(** * Intra-alignment variant calling (pav3.call.intra)

    A shallow embedding of [src/pav3/call/intra.py]: the per-record
    operation-stream expansion, the SNV and INS/DEL emitters, the
    chromosome pipeline with its optional parquet spill, the inversion
    flag filter and the inversion table join.  The reader, the summary
    and the file categories of [tests/summarize_results.py] follow the
    model of the caller.

    Conventions of the embedding.
    - A polars frame is a list of rows; a lazy frame that is collected
      inside the function is the list it collects to.
    - Coordinates are unbounded integers ([Z]).  CIGAR run lengths are
      [positive]: polars explodes an empty [int_ranges] list into a row
      of nulls, so a zero-length run is kept out of the data model.
    - Python [str] values are [list ascii]; names (chromosomes, query
      identifiers, paths) are [string].
    - Code that can raise returns a [Result]; code that touches the
      temporary directory or the sequence caches runs in the monad [M]
      over a [World].
    - A write of a spill file can fail: into a directory that does not
      exist it always does, and the file system may refuse any other
      write ([ParquetWriter]).
    - Columns are never null, except the [filter] column that the left
      join of [variant_tables_inv] adds.  Debug printing is left out. *)

From Stdlib Require Import ZArith Ascii String List Lia.
From stdpp Require Import base option list sorting strings gmap.

Local Open Scope Z_scope.

(** ** Python and polars primitives *)

Abbreviation pystr := (list ascii).

(** [s[i]] for a Python sequence: negative indices count from the end,
    anything out of range is an [IndexError] (here [None]). *)
Definition py_getitem {A} (s : list A) (i : Z) : option A :=
  let n := Z.of_nat (length s) in
  if bool_decide (0 ≤ i < n) then s !! Z.to_nat i
  else if bool_decide (- n ≤ i < 0) then s !! Z.to_nat (n + i)
  else None.

(** Bound adjustment of a slice index ([PySlice_AdjustIndices], step 1). *)
Definition py_slice_index (n i : Z) : Z :=
  if bool_decide (i < 0) then Z.max (i + n) 0 else Z.min i n.

(** [s[a:b]]: never raises, clamps both bounds to the sequence. *)
Definition py_slice {A} (s : list A) (a b : Z) : list A :=
  let n := Z.of_nat (length s) in
  let lo := py_slice_index n a in
  let hi := py_slice_index n b in
  take (Z.to_nat (hi - lo)) (drop (Z.to_nat lo) s).

(** [Expr.cum_sum] on an integer column. *)
Fixpoint cum_sum_from (acc : Z) (l : list Z) : list Z :=
  match l with
  | [] => []
  | x :: l' => (acc + x) :: cum_sum_from (acc + x) l'
  end.

Definition cum_sum (l : list Z) : list Z := cum_sum_from 0 l.

(** [Expr.shift(1, fill_value=v)]: every value moves down one row, the
    first row takes [v], the last value falls off. *)
Definition shift_fill {A} (v : A) (l : list A) : list A :=
  take (length l) (v :: l).

(** [Expr.replace(old, new)]: a value equal to an entry of [old] becomes
    the entry of [new] at the same index, any other value is kept. *)
Fixpoint assoc_find (tbl : list (pystr * pystr)) (v : pystr) : option pystr :=
  match tbl with
  | [] => None
  | (k, x) :: tbl' => if decide (k = v) then Some x else assoc_find tbl' v
  end.

Definition pl_replace (old new : list pystr) (v : pystr) : pystr :=
  default v (assoc_find (zip old new) v).

(** [os.path.join(a, b)] for two components. *)
Definition starts_with_sep (s : string) : bool :=
  match s with
  | String c _ => bool_decide (c = "/"%char)
  | EmptyString => false
  end.

Fixpoint ends_with_sep (s : string) : bool :=
  match s with
  | EmptyString => false
  | String c EmptyString => bool_decide (c = "/"%char)
  | String _ s' => ends_with_sep s'
  end.

Definition os_path_join (a b : string) : string :=
  if starts_with_sep b then b
  else if bool_decide (a = "") || ends_with_sep a then a +:+ b
  else a +:+ "/" +:+ b.

(** [s.rstrip(c)]: every trailing [c] is removed. *)
Fixpoint rstrip_char (c : ascii) (s : string) : string :=
  match s with
  | EmptyString => EmptyString
  | String c' s' =>
      match rstrip_char c s' with
      | EmptyString =>
          if bool_decide (c' = c) then EmptyString else String c' EmptyString
      | r => String c' r
      end
  end.

(** [c in s] for one character. *)
Fixpoint contains_char (c : ascii) (s : string) : bool :=
  match s with
  | EmptyString => false
  | String c' s' => bool_decide (c' = c) || contains_char c s'
  end.

(** [os.path.dirname]: the path up to its last separator, without the
    separators at the end of that head unless the head has nothing else. *)
Fixpoint dirname_head (path : string) : string :=
  match path with
  | EmptyString => EmptyString
  | String c path' =>
      if contains_char "/" path then String c (dirname_head path')
      else EmptyString
  end.

Fixpoint only_sep (s : string) : bool :=
  match s with
  | EmptyString => true
  | String c s' => bool_decide (c = "/"%char) && only_sep s'
  end.

Definition dirname (path : string) : string :=
  let head := dirname_head path in
  if only_sep head then head else rstrip_char "/" head.

(** ** Errors *)

Inductive PyError :=
| ValueError (msg : string)
| KeyError (key : string)
| IndexError
| FileNotFoundError (path : string)
| PermissionError (path : string).

Inductive Result (A : Type) :=
| Ok (a : A)
| Raise (e : PyError).
Arguments Ok {A} a.
Arguments Raise {A} e.

Definition rbind {A B} (m : Result A) (k : A → Result B) : Result B :=
  match m with
  | Ok a => k a
  | Raise e => Raise e
  end.

Notation "'let!' x ':=' m 'in' k" := (rbind m (fun x => k))
  (at level 10, x pattern, m at level 100, k at level 200).

Fixpoint mapR {A B} (f : A → Result B) (l : list A) : Result (list B) :=
  match l with
  | [] => Ok []
  | x :: l' =>
      let! y := f x in
      let! ys := mapR f l' in
      Ok (y :: ys)
  end.

Definition of_option {A} (e : PyError) (o : option A) : Result A :=
  match o with
  | Some a => Ok a
  | None => Raise e
  end.

(** ** Collaborators that are not part of this module *)

(** [pav3.align.op]: operation codes and the two advance tables. *)
Module op.
Inductive code := EQ | X | I | D | S | H | N.

#[global] Instance code_eq_dec : EqDecision code.
Proof. solve_decision. Defined.

(** Modelled from the spec: [op.ADV_REF_ARR] is not in the sources;
    section 3 gives ADV_REF = {=, X, D, N}. *)
Definition ADV_REF_ARR : list code := [EQ; X; D; N].

(** Modelled from the spec: [op.ADV_QRY_ARR] is not in the sources;
    section 3 gives ADV_QRY = {=, X, I, S}. *)
Definition ADV_QRY_ARR : list code := [EQ; X; I; S].
End op.

(** [pav3.align.score.ScoreModel]: the interface used here is
    [mismatch], [gap] and the order of the scores it produces.  Scores are
    floats in the source; the embedding keeps them abstract and asks only
    for the total order polars sorts them by. *)
Class ScoreModel := {
  score : Type;
  score_le : relation score;
  score_le_dec :: RelDecision score_le;
  score_eq_dec :: EqDecision score;
  score_le_po :: PartialOrder score_le;
  score_le_total :: Total score_le;
  mismatch : Z → score;
  gap : positive → score;
}.

(** [pav3.call.util]: the two translation lists handed to
    [Expr.replace] for reverse-strand SNVs. *)
Class ComplTable := {
  COMPL_TR_FROM : list pystr;
  COMPL_TR_TO : list pystr;
}.

(** [Bio.Seq]: [reverse_complement] translates every byte through the
    complement table of the library and reverses the result. *)
Class BioSeq := {
  complement_base : ascii → ascii;
}.

Definition reverse_complement `{BioSeq} (s : pystr) : pystr :=
  reverse (complement_base <$> s).

(** ** Data model *)

Inductive vartype := SNV | INS | DEL | INV.

#[global] Instance vartype_eq_dec : EqDecision vartype.
Proof. solve_decision. Defined.

(** Modelled from the spec: [expr.id_snv] and [expr.id_nonsnv] are not in
    the sources; section 6 derives the identifier from [chrom], [pos + 1],
    the variant type and [alt] (SNV) or [varlen] (other types).  The
    identifier is kept structured instead of being printed. *)
Inductive VarId :=
| IdSnv (chrom : string) (pos1 : Z) (alt : pystr)
| IdNonSnv (chrom : string) (pos1 : Z) (vt : vartype) (varlen : positive).

(** Variant call source column value. *)
Definition CALL_SOURCE : string := "INTRA".

Section Model.
Context `{ScoreModel, ComplTable, BioSeq}.

(** One row of the alignment table, with the columns this module reads.
    [align_ops] is a struct of two lists of equal length, [op_code] and
    [op_len]; it is kept as one list of pairs. *)
Record AlignRecord := {
  al_align_index : Z;
  al_chrom : string;
  al_pos : Z;
  al_qry_id : string;
  al_is_rev : bool;
  al_score : score;
  al_filter : string;
  al_align_ops : list (op.code * positive);
}.

(** One row of [df]: an exploded operation with its running coordinates
    and the record it was exploded from. *)
Record OpRow := {
  op_rec : AlignRecord;
  op_code : op.code;
  op_len : positive;
  op_pos : Z;
  op_end : Z;
  op_qry_pos : Z;
  op_qry_end : Z;
}.

(** A row of the SNV frame, with the columns of the [select] at lines
    239-251; the row index added after it is dropped again by the cast
    to the variant schema and is left out. *)
Record SnvRow := {
  snv_chrom : string;
  snv_pos : Z;
  snv_end : Z;
  snv_id : VarId;
  snv_vartype : vartype;
  snv_ref : pystr;
  snv_alt : pystr;
  snv_filter : string;
  snv_qry_id : string;
  snv_qry_pos : Z;
  snv_qry_end : Z;
  snv_qry_rev : bool;
  snv_call_source : string;
  snv_var_score : score;
  snv_align_source : list Z;
}.

(** A row of the INS/DEL frame, with the columns of the [select] at lines
    292-304. *)
Record InsDelRow := {
  sv_chrom : string;
  sv_pos : Z;
  sv_end : Z;
  sv_id : VarId;
  sv_vartype : vartype;
  sv_varlen : positive;
  sv_filter : string;
  sv_qry_id : string;
  sv_qry_pos : Z;
  sv_qry_end : Z;
  sv_qry_rev : bool;
  sv_call_source : string;
  sv_var_score : score;
  sv_align_source : list Z;
  sv_seq : pystr;
}.

(** A row together with the [_align_score] column, which the per-record
    and per-chromosome frames carry until the final [drop]. *)
Record Scored (A : Type) := {
  srow : A;
  _align_score : score;
}.
Arguments srow {A} _.
Arguments _align_score {A} _.

(** ** Operation-stream expansion (lines 161-200) *)

(** [with_row_index('_index')]. *)
Definition with_row_index (df_align : list AlignRecord) : list (Z * AlignRecord) :=
  imap (λ i r, (Z.of_nat i, r)) df_align.

(** [filter(_index == index)], the two struct fields and [explode].  A
    record without operations explodes to one row of nulls, which none of
    the three filters on [op_code] keeps; it is left out here. *)
Definition explode_ops (df_align : list (Z * AlignRecord)) (index : Z)
    : list (AlignRecord * (op.code * positive)) :=
  '(i, r) ← df_align;
  if decide (i = index) then (λ o, (r, o)) <$> al_align_ops r else [].

Definition ref_len (o : op.code * positive) : Z :=
  if decide (o.1 ∈ op.ADV_REF_ARR) then Z.pos o.2 else 0.

Definition qry_len (o : op.code * positive) : Z :=
  if decide (o.1 ∈ op.ADV_QRY_ARR) then Z.pos o.2 else 0.

Definition mk_op_row (x : AlignRecord * (op.code * positive))
    (c : Z * (Z * (Z * Z))) : OpRow :=
  {| op_rec := x.1; op_code := x.2.1; op_len := x.2.2;
     op_pos := c.1; op_end := c.2.1;
     op_qry_pos := c.2.2.1; op_qry_end := c.2.2.2 |}.

(** The three [with_columns] steps that add [end], [qry_end], [pos] and
    [qry_pos]; [pos] is the record start that the loop holds. *)
Definition op_rows (exploded : list (AlignRecord * (op.code * positive)))
    (pos : Z) : list OpRow :=
  let col_ref_len := ref_len ∘ snd <$> exploded in
  let col_qry_len := qry_len ∘ snd <$> exploded in
  let col_end := (λ s, s + pos) <$> cum_sum col_ref_len in
  let col_qry_end := cum_sum col_qry_len in
  let col_pos := shift_fill pos col_end in
  let col_qry_pos := shift_fill 0 col_qry_end in
  zip_with mk_op_row exploded
    (zip col_pos (zip col_end (zip col_qry_pos col_qry_end))).

(** The reverse-strand [with_columns]: both expressions read the frame
    as it was before the step. *)
Definition remap_rev (qry_len : Z) (r : OpRow) : OpRow :=
  {| op_rec := op_rec r; op_code := op_code r; op_len := op_len r;
     op_pos := op_pos r; op_end := op_end r;
     op_qry_pos := qry_len - op_qry_end r;
     op_qry_end := qry_len - op_qry_pos r |}.

Definition record_df (df_align : list (Z * AlignRecord)) (index : Z)
    (is_rev : bool) (pos : Z) (seq_qry : pystr) : list OpRow :=
  let qry_len := Z.of_nat (length seq_qry) in
  let df := op_rows (explode_ops df_align index) pos in
  if is_rev then remap_rev qry_len <$> df else df.

(** ** SNV emitter (lines 203-253) *)

(** One exploded offset of a mismatch row. *)
Definition snv_row (is_rev : bool) (seq_ref seq_qry : pystr)
    (r : OpRow) (offset_pos : Z) : Result (Scored SnvRow) :=
  let qry_shift := if is_rev then 1 else 0 in
  let pos := op_pos r + offset_pos in
  let qry_pos :=
    op_qry_pos r + offset_pos
    + (Z.pos (op_len r) - 2 * offset_pos - 1) * qry_shift in
  let end_ := pos + 1 in
  let qry_end := qry_pos + 1 in
  let! ref := of_option IndexError (py_getitem seq_ref pos) in
  let! alt := of_option IndexError (py_getitem seq_qry qry_pos) in
  let alt : pystr :=
    if is_rev then pl_replace COMPL_TR_FROM COMPL_TR_TO [alt] else [alt] in
  Ok {| srow := {|
          snv_chrom := al_chrom (op_rec r);
          snv_pos := pos; snv_end := end_;
          snv_id := IdSnv (al_chrom (op_rec r)) (pos + 1) alt;
          snv_vartype := SNV;
          snv_ref := [ref]; snv_alt := alt;
          snv_filter := al_filter (op_rec r);
          snv_qry_id := al_qry_id (op_rec r);
          snv_qry_pos := qry_pos; snv_qry_end := qry_end;
          snv_qry_rev := al_is_rev (op_rec r);
          snv_call_source := CALL_SOURCE;
          snv_var_score := mismatch 1;
          snv_align_source := [al_align_index (op_rec r)] |};
        _align_score := al_score (op_rec r) |}.

(** [int_ranges(0, op_len)] and [explode] over one mismatch row. *)
Definition snv_rows_of (is_rev : bool) (seq_ref seq_qry : pystr)
    (r : OpRow) : Result (list (Scored SnvRow)) :=
  mapR (snv_row is_rev seq_ref seq_qry r) (seqZ 0 (Z.pos (op_len r))).

Definition call_snv (is_rev : bool) (seq_ref seq_qry : pystr)
    (df : list OpRow) : Result (list (Scored SnvRow)) :=
  let! parts :=
    mapR (snv_rows_of is_rev seq_ref seq_qry)
         (filter (λ r, op_code r = op.X) df) in
  Ok (concat parts).

(** ** INS/DEL emitter (lines 154-159 and 256-305) *)

Definition get_ins_seq (is_rev : bool) (seq_qry : pystr)
    (qry_pos qry_end : Z) : pystr :=
  if is_rev then reverse_complement (py_slice seq_qry qry_pos qry_end)
  else py_slice seq_qry qry_pos qry_end.

Definition ins_row (is_rev : bool) (seq_qry : pystr) (r : OpRow)
    : Scored InsDelRow :=
  let end_ := op_pos r + 1 in
  {| srow := {|
       sv_chrom := al_chrom (op_rec r);
       sv_pos := op_pos r; sv_end := end_;
       sv_id := IdNonSnv (al_chrom (op_rec r)) (op_pos r + 1) INS (op_len r);
       sv_vartype := INS; sv_varlen := op_len r;
       sv_filter := al_filter (op_rec r);
       sv_qry_id := al_qry_id (op_rec r);
       sv_qry_pos := op_qry_pos r; sv_qry_end := op_qry_end r;
       sv_qry_rev := al_is_rev (op_rec r);
       sv_call_source := CALL_SOURCE;
       sv_var_score := gap (op_len r);
       sv_align_source := [al_align_index (op_rec r)];
       sv_seq := get_ins_seq is_rev seq_qry (op_qry_pos r) (op_qry_end r) |};
     _align_score := al_score (op_rec r) |}.

Definition del_row (seq_ref : pystr) (r : OpRow) : Scored InsDelRow :=
  let qry_end := op_qry_pos r + 1 in
  {| srow := {|
       sv_chrom := al_chrom (op_rec r);
       sv_pos := op_pos r; sv_end := op_end r;
       sv_id := IdNonSnv (al_chrom (op_rec r)) (op_pos r + 1) DEL (op_len r);
       sv_vartype := DEL; sv_varlen := op_len r;
       sv_filter := al_filter (op_rec r);
       sv_qry_id := al_qry_id (op_rec r);
       sv_qry_pos := op_qry_pos r; sv_qry_end := qry_end;
       sv_qry_rev := al_is_rev (op_rec r);
       sv_call_source := CALL_SOURCE;
       sv_var_score := gap (op_len r);
       sv_align_source := [al_align_index (op_rec r)];
       sv_seq := py_slice seq_ref (op_pos r) (op_end r) |};
     _align_score := al_score (op_rec r) |}.

Definition call_ins (is_rev : bool) (seq_qry : pystr) (df : list OpRow)
    : list (Scored InsDelRow) :=
  ins_row is_rev seq_qry <$> filter (λ r, op_code r = op.I) df.

Definition call_del (seq_ref : pystr) (df : list OpRow)
    : list (Scored InsDelRow) :=
  del_row seq_ref <$> filter (λ r, op_code r = op.D) df.


(** ** Sorting *)

(** The order [DataFrame.sort] puts on two columns: the first column
    decides, the second breaks ties.  Longer keys nest to the right; a
    descending column takes the flipped order. *)
Definition lex_le {A B} (RA : relation A) (RB : relation B) : relation (A * B) :=
  λ x y, (RA x.1 y.1 ∧ x.1 ≠ y.1) ∨ (x.1 = y.1 ∧ RB x.2 y.2).

#[global] Instance lex_le_dec {A B} (RA : relation A) (RB : relation B)
  `{!RelDecision RA, !EqDecision A, !RelDecision RB} : RelDecision (lex_le RA RB).
Proof. intros x y. unfold lex_le. apply _. Defined.

(** [DataFrame.sort]: polars leaves the order of rows with equal keys
    open; the embedding fixes it with a merge sort. *)
Definition sort_by {A K} (R : relation K) `{!RelDecision R} (key : A → K)
    (l : list A) : list A :=
  @merge_sort A (λ a b, R (key a) (key b))
    (λ a b, decide_rel R (key a) (key b)) l.

(** [pl.concat]: an empty list of frames is refused. *)
Definition pl_concat {A} (frames : list A) : Result (list A) :=
  match frames with
  | [] => Raise (ValueError "cannot concat empty list")
  | _ => Ok frames
  end.


(** Per-record INS/DEL sort (lines 288-291):
    [pos], [end], [_align_score] descending, [qry_id], [qry_pos]. *)
Definition insdel_record_le : relation (Z * (Z * (score * (string * Z)))) :=
  lex_le Z.le (lex_le Z.le (lex_le (flip score_le) (lex_le String.le Z.le))).

Definition insdel_record_key (r : Scored InsDelRow) :=
  (sv_pos (srow r), (sv_end (srow r), (_align_score r,
     (sv_qry_id (srow r), sv_qry_pos (srow r))))).

(** Per-chromosome SNV sort (lines 317-320): [pos], [alt], [var_score]
    descending, [_align_score] descending, [qry_id], [qry_pos]. *)
Definition snv_sort_le : relation (Z * (string * (score * (score * (string * Z))))) :=
  lex_le Z.le (lex_le String.le (lex_le (flip score_le)
    (lex_le (flip score_le) (lex_le String.le Z.le)))).

Definition snv_sort_key (r : Scored SnvRow) :=
  (snv_pos (srow r), (string_of_list_ascii (snv_alt (srow r)),
     (snv_var_score (srow r), (_align_score r,
        (snv_qry_id (srow r), snv_qry_pos (srow r)))))).

(** Per-chromosome INS/DEL sort (lines 329-332): [pos], [var_score]
    descending, [_align_score] descending, [qry_id], [qry_pos]. *)
Definition insdel_sort_le : relation (Z * (score * (score * (string * Z)))) :=
  lex_le Z.le (lex_le (flip score_le) (lex_le (flip score_le)
    (lex_le String.le Z.le))).

Definition insdel_sort_key (r : Scored InsDelRow) :=
  (sv_pos (srow r), (sv_var_score (srow r), (_align_score r,
     (sv_qry_id (srow r), sv_qry_pos (srow r))))).

#[global] Instance insdel_record_le_dec : RelDecision insdel_record_le.
Proof. unfold insdel_record_le. apply _. Defined.

#[global] Instance snv_sort_le_dec : RelDecision snv_sort_le.
Proof. unfold snv_sort_le. apply _. Defined.

#[global] Instance insdel_sort_le_dec : RelDecision insdel_sort_le.
Proof. unfold insdel_sort_le. apply _. Defined.

(** ** The world the pipeline runs in *)

(** Content of a parquet file written by [sink_parquet]. *)
Inductive SpillTable :=
| SnvFile (rows : list SnvRow)
| InsDelFile (rows : list InsDelRow).

(** What the pipeline does to the outside, in order. *)
Inductive Event :=
| RefFetch (chrom : string)
| QryFetch (qry_id : string)
| SinkParquet (path : string).

Record World := {
  w_dirs : gset string;
  w_files : gmap string SpillTable;
  w_log : list Event;
}.

Definition M (A : Type) : Type := World → Result A * World.

Definition ret {A} (a : A) : M A := λ w, (Ok a, w).

Definition raise {A} (e : PyError) : M A := λ w, (Raise e, w).

Definition bind {A B} (m : M A) (k : A → M B) : M B :=
  λ w, match m w with
       | (Ok a, w') => k a w'
       | (Raise e, w') => (Raise e, w')
       end.

Definition lift {A} (r : Result A) : M A := λ w, (r, w).

(** The file system under the parquet writer: the error with which it
    refuses a write to a path, if it does (no permission, no space, a
    parent that is a file), and what a batch of writes that fails leaves
    at a path of the batch (a file, or nothing). *)
Class ParquetWriter := {
  write_refused : string → option PyError;
  write_debris : string → option SpillTable;
}.
Context `{ParquetWriter}.

(** The error of a write to [path] in a world: the refusal of the file
    system, or the missing directory of the path. *)
Definition write_error (w : World) (path : string) : option PyError :=
  match write_refused path with
  | Some e => Some e
  | None =>
      if decide (dirname path = "" ∨ dirname path ∈ w_dirs w) then None
      else Some (FileNotFoundError path)
  end.

Notation "'let*' x ':=' m 'in' k" := (bind m (fun x => k))
  (at level 10, x pattern, m at level 100, k at level 200).

Definition emit (e : Event) : M unit :=
  λ w, (Ok (), {| w_dirs := w_dirs w; w_files := w_files w;
                  w_log := w_log w ++ [e] |}).

Fixpoint mapW {A B} (f : A → M B) (l : list A) : M (list B) :=
  match l with
  | [] => ret []
  | x :: l' =>
      let* y := f x in
      let* ys := mapW f l' in
      ret (y :: ys)
  end.

(** [os.path.isdir]. *)
Definition isdir (path : string) : M bool :=
  λ w, (Ok (bool_decide (path ∈ w_dirs w)), w).

(** [LazyFrame.sink_parquet(path, lazy=True)]: the plan of a write;
    nothing is written before the plan is collected. *)
Definition sink_parquet (path : string) (t : SpillTable) : string * SpillTable :=
  (path, t).

(** [pl.collect_all] over sink plans (line 345).  When no write fails
    every file is written, an existing file of that name being replaced.
    When a write fails its error is raised, the first in the order of the
    plans, and the files of the batch are what the file system leaves. *)
Definition collect_all (plans : list (string * SpillTable)) : M unit :=
  λ w,
    let log := w_log w ++ (SinkParquet <$> plans.*1) in
    match head (omap (write_error w) plans.*1) with
    | None =>
        (Ok (),
         {| w_dirs := w_dirs w;
            w_files := foldl (λ m x, <[x.1 := x.2]> m) (w_files w) plans;
            w_log := log |})
    | Some e =>
        (Raise e,
         {| w_dirs := w_dirs w;
            w_files := foldl (λ m x, match write_debris x.1 with
                                     | Some t => <[x.1 := t]> m
                                     | None => delete x.1 m
                                     end) (w_files w) plans;
            w_log := log |})
    end.

(** [LRUSequenceCache.__getitem__] over the content of a FASTA file. *)
Definition cache_get (ev : string → Event) (fa : string → option pystr)
    (name : string) : M pystr :=
  let* _ := emit (ev name) in
  lift (of_option (KeyError name) (fa name)).

(** A frame of the returned concatenation: held in memory, or a scan of a
    parquet file that is read when the result is collected. *)
Inductive Source (A : Type) :=
| InMemory (rows : list A)
| ScanParquet (path : string).
Arguments InMemory {A} rows.
Arguments ScanParquet {A} path.

(** ** Chromosome pipeline (lines 102-361) *)

(** [chrom_list]: the distinct chromosomes of the table in ascending order. *)
Definition chrom_list (df_align : list AlignRecord) : list string :=
  sort_by String.le id (remove_dups (al_chrom <$> df_align)).

(** Rows the inner loop runs over: the records of the chromosome sorted
    by [qry_id], reduced to [_index], [qry_id], [is_rev], [pos]. *)
Definition chrom_records (df_align : list (Z * AlignRecord)) (chrom : string)
    : list (Z * string * bool * Z) :=
  (λ x, (x.1, al_qry_id x.2, al_is_rev x.2, al_pos x.2)) <$>
    sort_by String.le (λ x, al_qry_id x.2)
      (filter (λ x, al_chrom x.2 = chrom) df_align).

(** Body of the inner loop (lines 146-312). *)
Definition process_record (df_align : list (Z * AlignRecord))
    (qry_fa : string → option pystr) (seq_ref : pystr)
    (row : Z * string * bool * Z)
    : M (list (Scored SnvRow) * list (Scored InsDelRow)) :=
  let '(index, qry_id, is_rev, pos) := row in
  let* seq_qry := cache_get QryFetch qry_fa qry_id in
  let df := record_df df_align index is_rev pos seq_qry in
  let df_ins := call_ins is_rev seq_qry df in
  let df_del := call_del seq_ref df in
  let df_insdel :=
    sort_by insdel_record_le insdel_record_key (df_ins ++ df_del) in
  let* df_snv := lift (call_snv is_rev seq_ref seq_qry df) in
  ret (df_snv, df_insdel).

Definition temp_file_name (temp_dir_name : string) (kind chrom : string) : string :=
  os_path_join temp_dir_name (kind +:+ "_" +:+ chrom +:+ ".parquet").

(** Body of the outer loop (lines 125-355).  [schema.cast] only fixes
    column types and is the identity on the rows of the embedding. *)
Definition process_chrom (df_align : list (Z * AlignRecord))
    (ref_fa qry_fa : string → option pystr) (temp_dir_name : option string)
    (chrom : string) : M (Source SnvRow * Source InsDelRow) :=
  let* seq_ref := cache_get RefFetch ref_fa chrom in
  let* df_chrom_list :=
    mapW (process_record df_align qry_fa seq_ref)
         (chrom_records df_align chrom) in
  let* snv_frames := lift (pl_concat (fst <$> df_chrom_list)) in
  let* insdel_frames := lift (pl_concat (snd <$> df_chrom_list)) in
  let df_snv :=
    srow <$> sort_by snv_sort_le snv_sort_key (concat snv_frames) in
  let df_insdel :=
    srow <$> sort_by insdel_sort_le insdel_sort_key (concat insdel_frames) in
  match temp_dir_name with
  | Some d =>
      let write_snv :=
        sink_parquet (temp_file_name d "snv" chrom) (SnvFile df_snv) in
      let write_insdel :=
        sink_parquet (temp_file_name d "insdel" chrom) (InsDelFile df_insdel) in
      let* _ := collect_all [write_snv; write_insdel] in
      ret (ScanParquet (temp_file_name d "snv" chrom),
           ScanParquet (temp_file_name d "insdel" chrom))
  | None => ret (InMemory df_snv, InMemory df_insdel)
  end.

Definition temp_dir_error (temp_dir_name : string) : PyError :=
  ValueError ("Temporary directory does not exist or is not a directory: "
              +:+ temp_dir_name).

(** Temp directory check (lines 108-110). *)
Definition check_temp_dir (temp_dir_name : option string) : M unit :=
  match temp_dir_name with
  | Some d =>
      let* ok := isdir d in
      if ok then ret () else raise (temp_dir_error d)
  | None => ret ()
  end.

Definition variant_tables_snv_insdel (df_align : list AlignRecord)
    (ref_fa qry_fa : string → option pystr) (temp_dir_name : option string)
    : M (list (Source SnvRow) * list (Source InsDelRow)) :=
  let chroms := chrom_list df_align in
  let* _ := check_temp_dir temp_dir_name in
  let df_align := with_row_index df_align in
  let* chrom_table_list :=
    mapW (process_chrom df_align ref_fa qry_fa temp_dir_name) chroms in
  let* snv := lift (pl_concat (fst <$> chrom_table_list)) in
  let* insdel := lift (pl_concat (snd <$> chrom_table_list)) in
  ret (snv, insdel).

(** Collecting a returned frame in a given world. *)
Definition read_snv (w : World) (s : Source SnvRow) : Result (list SnvRow) :=
  match s with
  | InMemory rows => Ok rows
  | ScanParquet path =>
      match w_files w !! path with
      | Some (SnvFile rows) => Ok rows
      | _ => Raise (FileNotFoundError path)
      end
  end.

Definition read_insdel (w : World) (s : Source InsDelRow) : Result (list InsDelRow) :=
  match s with
  | InMemory rows => Ok rows
  | ScanParquet path =>
      match w_files w !! path with
      | Some (InsDelFile rows) => Ok rows
      | _ => Raise (FileNotFoundError path)
      end
  end.

Definition collect_snv (w : World) (lf : list (Source SnvRow)) : Result (list SnvRow) :=
  let! parts := mapR (read_snv w) lf in Ok (concat parts).

Definition collect_insdel (w : World) (lf : list (Source InsDelRow))
    : Result (list InsDelRow) :=
  let! parts := mapR (read_insdel w) lf in Ok (concat parts).
End Model.

Arguments srow {_ A} _.
Arguments _align_score {_ A} _.
Arguments InMemory {A} rows.
Arguments ScanParquet {A} path.

(** ** Concrete collaborators used by the examples *)

(** Integer scores: a mismatch costs 4 per base, a gap 4 plus 2 per base. *)
#[local] Instance demo_score_model : ScoreModel := {|
  score := Z;
  score_le := Z.le;
  mismatch := λ n, - 4 * n;
  gap := λ n, - (4 + 2 * Z.pos n);
|}.

Definition base (c : string) : pystr := list_ascii_of_string c.

(** Modelled from the spec: the complement of a base as section 4.2
    gives it, A<->T, C<->G, N->N and every other base to N. *)
Definition spec_complement (b : ascii) : ascii :=
  if decide (b = "A"%char) then "T"%char
  else if decide (b = "T"%char) then "A"%char
  else if decide (b = "C"%char) then "G"%char
  else if decide (b = "G"%char) then "C"%char
  else "N"%char.

(** Every one-character string, in the order of the character codes. *)
Definition all_bases : list ascii := ascii_of_nat <$> seq 0 256.

(** Modelled from the spec: [COMPL_TR_FROM] and [COMPL_TR_TO] are not in
    the sources.  The two lists realise the mapping of section 4.2 for
    [replace], which keeps a value that is not listed: every base is
    listed, with its complement at the same index. *)
#[local] Instance spec_compl_table : ComplTable := {|
  COMPL_TR_FROM := (λ b, [b]) <$> all_bases;
  COMPL_TR_TO := (λ b, [spec_complement b]) <$> all_bases;
|}.

(** A file system that refuses no write and leaves nothing behind when a
    batch fails. *)
#[local] Instance demo_writer : ParquetWriter := {|
  write_refused := λ _, None;
  write_debris := λ _, None;
|}.

(** The unambiguous part of the complement table of [Bio.Seq]. *)
#[local] Instance demo_bio_seq : BioSeq := {|
  complement_base := λ c,
    if decide (c = "A"%char) then "T"%char
    else if decide (c = "T"%char) then "A"%char
    else if decide (c = "C"%char) then "G"%char
    else if decide (c = "G"%char) then "C"%char
    else c;
|}.

Definition empty_world : World :=
  {| w_dirs := ∅; w_files := ∅; w_log := [] |}.

Definition fasta (entries : list (string * string)) (name : string) : option pystr :=
  list_ascii_of_string <$> (list_to_map entries : gmap string string) !! name.

(** ** One-pass reading of the expansion

    The expansion of section 4.1 as a single pass that carries the
    reference and query coordinates; [op_rows] is compared with it below. *)
Section Running.
Context `{ScoreModel}.

Fixpoint running_rows (exploded : list (AlignRecord * (op.code * positive)))
    (ref_coord qry_coord : Z) : list OpRow :=
  match exploded with
  | [] => []
  | x :: rest =>
      let e := ref_coord + ref_len x.2 in
      let qe := qry_coord + qry_len x.2 in
      {| op_rec := x.1; op_code := x.2.1; op_len := x.2.2;
         op_pos := ref_coord; op_end := e;
         op_qry_pos := qry_coord; op_qry_end := qe |}
      :: running_rows rest e qe
  end.

(** The rows of one record before the reverse-strand step. *)
Definition aligned_rows (r : AlignRecord) : list OpRow :=
  running_rows ((λ o, (r, o)) <$> al_align_ops r) (al_pos r) 0.

(** Sum of the run lengths of the operations with a given code. *)
Definition op_len_sum (c : op.code) (ops : list (op.code * positive)) : Z :=
  foldr (λ o acc, (if decide (o.1 = c) then Z.pos o.2 else 0) + acc) 0 ops.

(** Reference and query bases a list of operations advances over. *)
Definition ref_span (ops : list (op.code * positive)) : Z :=
  foldr (λ o acc, ref_len o + acc) 0 ops.

Definition qry_span (ops : list (op.code * positive)) : Z :=
  foldr (λ o acc, qry_len o + acc) 0 ops.

(** A record whose operations stay inside the reference chromosome and
    the query contig. *)
Definition fits (r : AlignRecord) (seq_ref seq_qry : pystr) : Prop :=
  0 ≤ al_pos r
  ∧ al_pos r + ref_span (al_align_ops r) ≤ Z.of_nat (length seq_ref)
  ∧ qry_span (al_align_ops r) ≤ Z.of_nat (length seq_qry).

(** Every record has its two sequences and fits them. *)
Definition well_formed (df_align : list AlignRecord)
    (ref_fa qry_fa : string → option pystr) : Prop :=
  ∀ r, r ∈ df_align →
    ∃ seq_ref seq_qry,
      ref_fa (al_chrom r) = Some seq_ref
      ∧ qry_fa (al_qry_id r) = Some seq_qry
      ∧ fits r seq_ref seq_qry.

(** The operations of a frame, row by row. *)
Definition frame_ops (df : list OpRow) : list (op.code * positive) :=
  (λ d, (op_code d, op_len d)) <$> df.

Definition varlen_sum (vt : vartype) (rows : list (Scored InsDelRow)) : Z :=
  foldr (λ r acc,
           (if decide (sv_vartype (srow r) = vt)
            then Z.pos (sv_varlen (srow r)) else 0) + acc) 0 rows.
End Running.

(** ** Inversion candidates and inversion table (lines 364-512) *)
Section Inversion.
Context `{ScoreModel}.

(** A row of the table of flagged regions, with the columns read here.
    [fl_flag] is a list column. *)
Record FlagRow := {
  fl_chrom : string;
  fl_pos : Z;
  fl_end : Z;
  fl_align_index : Z;
  fl_flag : list string;
}.

Record Region := {
  rg_chrom : string;
  rg_pos : Z;
  rg_end : Z;
  rg_pos_align_index : Z;
  rg_end_align_index : Z;
}.

(** Modelled from the spec: [get_inv_row] is not in the sources; section
    4.6 names the columns of an accepted inversion row.  The row has no
    [filter] of its own: the join adds it. *)
Record InvRow := {
  inv_chrom : string;
  inv_pos : Z;
  inv_end : Z;
  inv_vartype : vartype;
  inv_varlen : positive;
  inv_qry_id : string;
  inv_qry_pos : Z;
  inv_qry_end : Z;
  inv_align_source : list Z;
}.

(** A row of the returned inversion table; [ivr_filter] is nullable. *)
Record InvVariant := {
  ivr_row : InvRow;
  ivr_id : VarId;
  ivr_call_source : string;
  ivr_filter : option string;
}.

Definition Fai := list (string * Z).

(** [pav3.inv] and [pav3.params]: the clustering and confirmation
    collaborators and the parameter object with its defaults.  The lift,
    k-mer and KDE helpers that [variant_tables_inv] builds are functions of
    the alignment table, the query lengths and the parameters, which
    [try_intra_region] receives here. *)
Class InvCollaborators := {
  PavParams : Type;
  default_params : PavParams;
  cluster_table :
    list SnvRow → list InsDelRow → Fai → Fai → PavParams → list FlagRow;
  try_intra_region :
    Region → (string → option pystr) → (string → option pystr) → Fai → Fai →
    list AlignRecord → PavParams → option InvRow;
}.
Context `{InvCollaborators}.

(** [cluster_table(...).filter(pl.col('flag') != ['CLUSTER_SNV'])]: the
    list value of the flag column is compared with the one-element list. *)
Definition variant_flag_inv (df_snv : list SnvRow) (df_insdel : list InsDelRow)
    (df_ref_fai df_qry_fai : Fai) (pav_params : option PavParams)
    : list FlagRow :=
  let pav_params := default default_params pav_params in
  filter (λ r, fl_flag r ≠ ["CLUSTER_SNV"])
    (cluster_table df_snv df_insdel df_ref_fai df_qry_fai pav_params).

(** The loop over the flagged regions (lines 418-439). *)
Definition accepted_inv_rows (df_align : list AlignRecord) (df_flag : list FlagRow)
    (ref_fa qry_fa : string → option pystr) (df_ref_fai df_qry_fai : Fai)
    (pav_params : PavParams) : list InvRow :=
  omap (λ row,
          let region_flag :=
            {| rg_chrom := fl_chrom row; rg_pos := fl_pos row;
               rg_end := fl_end row;
               rg_pos_align_index := fl_align_index row;
               rg_end_align_index := fl_align_index row |} in
          try_intra_region region_flag ref_fa qry_fa df_ref_fai df_qry_fai
            df_align pav_params)
       df_flag.

Definition with_id_source (r : InvRow) (f : option string) : InvVariant :=
  {| ivr_row := r;
     ivr_id := IdNonSnv (inv_chrom r) (inv_pos r + 1) (inv_vartype r) (inv_varlen r);
     ivr_call_source := CALL_SOURCE;
     ivr_filter := f |}.

(** The left join of one inversion row with [align_index], [filter] on
    [align_source.list.first()]: a null key matches nothing, and a row
    without a match is kept with a null [filter]. *)
Definition join_filter (df_align : list AlignRecord) (r : InvRow)
    : list InvVariant :=
  let key := head (inv_align_source r) in
  match filter (λ a, Some (al_align_index a) = key) df_align with
  | [] => [with_id_source r None]
  | matches => (λ a, with_id_source r (Some (al_filter a))) <$> matches
  end.

Definition variant_tables_inv (df_align : list AlignRecord) (df_flag : list FlagRow)
    (ref_fa qry_fa : string → option pystr) (df_ref_fai df_qry_fai : Fai)
    (pav_params : option PavParams) : list InvVariant :=
  let pav_params := default default_params pav_params in
  let variant_table_list :=
    accepted_inv_rows df_align df_flag ref_fa qry_fa df_ref_fai df_qry_fai
      pav_params in
  variant_table_list ≫= join_filter df_align.
End Inversion.

(** ** Results of the loops without the world

    The value each loop body computes, as a function of its inputs; the
    monadic bodies above are compared with these.  A body only adds to the
    log and, with a temporary directory, writes its two files. *)
Section Pure.
Context `{ScoreModel, ComplTable, BioSeq, !ParquetWriter}.

Definition record_result (df_align : list (Z * AlignRecord))
    (qry_fa : string → option pystr) (seq_ref : pystr)
    (row : Z * string * bool * Z)
    : Result (list (Scored SnvRow) * list (Scored InsDelRow)) :=
  let '(index, qry_id, is_rev, pos) := row in
  let! seq_qry := of_option (KeyError qry_id) (qry_fa qry_id) in
  let df := record_df df_align index is_rev pos seq_qry in
  let! df_snv := call_snv is_rev seq_ref seq_qry df in
  Ok (df_snv,
      sort_by insdel_record_le insdel_record_key
        (call_ins is_rev seq_qry df ++ call_del seq_ref df)).

Definition chrom_result (df_align : list (Z * AlignRecord))
    (ref_fa qry_fa : string → option pystr) (chrom : string)
    : Result (list (Scored SnvRow) * list (Scored InsDelRow)) :=
  let! seq_ref := of_option (KeyError chrom) (ref_fa chrom) in
  let! df_chrom_list :=
    mapR (record_result df_align qry_fa seq_ref)
         (chrom_records df_align chrom) in
  let! snv_frames := pl_concat (fst <$> df_chrom_list) in
  let! insdel_frames := pl_concat (snd <$> df_chrom_list) in
  Ok (sort_by snv_sort_le snv_sort_key (concat snv_frames),
      sort_by insdel_sort_le insdel_sort_key (concat insdel_frames)).

(** The rows of one record as the emitters see them. *)
Definition oriented_rows (r : AlignRecord) (seq_qry : pystr) : list OpRow :=
  if al_is_rev r
  then remap_rev (Z.of_nat (length seq_qry)) <$> aligned_rows r
  else aligned_rows r.

(** The two tables of a chromosome after [drop('_align_score')]. *)
Definition chrom_snv_table (p : list (Scored SnvRow) * list (Scored InsDelRow))
    : list SnvRow :=
  srow <$> p.1.

Definition chrom_insdel_table (p : list (Scored SnvRow) * list (Scored InsDelRow))
    : list InsDelRow :=
  srow <$> p.2.

(** The files the outer loop writes for one chromosome. *)
Definition chrom_paths (temp_dir_name : option string) (chrom : string)
    : list string :=
  match temp_dir_name with
  | Some d => [temp_file_name d "snv" chrom; temp_file_name d "insdel" chrom]
  | None => []
  end.

(** The error that stops the writing of these files in a world, if one
    of the writes fails. *)
Definition spill_error (w : World) (temp_dir_name : option string)
    (chrom : string) : option PyError :=
  head (omap (write_error w) (chrom_paths temp_dir_name chrom)).

(** The tuple the inner loop holds for the record at row [i]. *)
Definition loop_row (i : nat) (r : AlignRecord) : Z * string * bool * Z :=
  (Z.of_nat i, al_qry_id r, al_is_rev r, al_pos r).
End Pure.

(** ** Example inputs *)

Definition demo_ref : pystr := base "ACGTACGTACGT".
Definition demo_qry : pystr := base "ACGTTGCA".
Definition demo_ref_fa : string → option pystr := fasta [("chr1", "ACGTACGTACGT")].
Definition demo_qry_fa : string → option pystr :=
  fasta [("q1", "ACGTTGCA"); ("q2", "AC"); ("q3", "ARGT")].

(** A reverse-strand record over [q1]: 2 matches, 3 mismatches, a 2-base
    insertion, a 1-base deletion, 1 match. *)
Definition demo_rev : AlignRecord :=
  {| al_align_index := 7; al_chrom := "chr1"; al_pos := 2;
     al_qry_id := "q1"; al_is_rev := true; al_score := 50;
     al_filter := "PASS";
     al_align_ops := [(op.EQ, 2%positive); (op.X, 3%positive);
                      (op.I, 2%positive); (op.D, 1%positive);
                      (op.EQ, 1%positive)] |}.

(** The same operations on the forward strand. *)
Definition demo_fwd : AlignRecord :=
  {| al_align_index := 8; al_chrom := "chr1"; al_pos := 2;
     al_qry_id := "q1"; al_is_rev := false; al_score := 40;
     al_filter := "PASS";
     al_align_ops := al_align_ops demo_rev |}.

(** A record whose insertion runs past the end of its 2-base query. *)
Definition demo_overrun : AlignRecord :=
  {| al_align_index := 9; al_chrom := "chr1"; al_pos := 0;
     al_qry_id := "q2"; al_is_rev := false; al_score := 10;
     al_filter := "PASS";
     al_align_ops := [(op.I, 4%positive)] |}.

(** A reverse-strand record with one mismatch over the base R of [q3]. *)
Definition demo_ambiguous : AlignRecord :=
  {| al_align_index := 10; al_chrom := "chr1"; al_pos := 0;
     al_qry_id := "q3"; al_is_rev := true; al_score := 10;
     al_filter := "PASS";
     al_align_ops := [(op.EQ, 2%positive); (op.X, 1%positive);
                      (op.EQ, 1%positive)] |}.

(** The mismatch row of [demo_rev] after the reverse-strand step. *)
Definition demo_x_row : OpRow :=
  {| op_rec := demo_rev; op_code := op.X; op_len := 3;
     op_pos := 4; op_end := 7; op_qry_pos := 3; op_qry_end := 6 |}.

(** A world in which the directory [tmp] exists. *)
Definition demo_world : World :=
  {| w_dirs := {["tmp"]}; w_files := ∅; w_log := [] |}.

(** A second chromosome for the order of the partitions. *)
Definition demo_chr0 : AlignRecord :=
  {| al_align_index := 11; al_chrom := "chr0"; al_pos := 1;
     al_qry_id := "q1"; al_is_rev := false; al_score := 30;
     al_filter := "PASS";
     al_align_ops := [(op.EQ, 1%positive); (op.X, 2%positive);
                      (op.D, 2%positive); (op.I, 1%positive)] |}.

Definition demo_ref_fa2 : string → option pystr :=
  fasta [("chr1", "ACGTACGTACGT"); ("chr0", "TTGACA")].

(** The value of a computation that is known to return. *)
Definition from_ok {A} (d : A) (r : Result A) : A :=
  match r with
  | Ok a => a
  | Raise _ => d
  end.

(** A run over three records on two chromosomes with the spill directory. *)
Definition demo_run :=
  variant_tables_snv_insdel [demo_rev; demo_fwd; demo_chr0]
    demo_ref_fa2 demo_qry_fa (Some "tmp") demo_world.

Definition demo_frames := from_ok ([], []) demo_run.1.

Definition demo_snv_table : list SnvRow :=
  from_ok [] (collect_snv demo_run.2 demo_frames.1).

Definition demo_insdel_table : list InsDelRow :=
  from_ok [] (collect_insdel demo_run.2 demo_frames.2).

(** The frame and the SNV rows of [demo_rev] alone. *)
Definition demo_rev_df : list OpRow :=
  record_df (with_row_index [demo_rev]) 0 (al_is_rev demo_rev)
    (al_pos demo_rev) demo_qry.

Definition demo_rev_snv : list (Scored SnvRow) :=
  from_ok [] (call_snv (al_is_rev demo_rev) demo_ref demo_qry demo_rev_df).

Definition demo_rev_record :=
  from_ok ([], [])
    (process_record (with_row_index [demo_rev]) demo_qry_fa demo_ref
       (loop_row 0 demo_rev) empty_world).1.

(** Candidate regions and a confirmation collaborator for the examples:
    regions shorter than 50 bases are rejected, the others are accepted
    with the alignment index of the region as their only source. *)
Definition demo_flags : list FlagRow :=
  [ {| fl_chrom := "chr1"; fl_pos := 100; fl_end := 400;
       fl_align_index := 7; fl_flag := ["CLUSTER_SNV"] |};
    {| fl_chrom := "chr1"; fl_pos := 500; fl_end := 900;
       fl_align_index := 7; fl_flag := ["MATCH_INDEL"] |};
    {| fl_chrom := "chr1"; fl_pos := 950; fl_end := 960;
       fl_align_index := 7; fl_flag := ["CLUSTER_SNV"; "CLUSTER_INDEL"] |};
    {| fl_chrom := "chr1"; fl_pos := 2000; fl_end := 2300;
       fl_align_index := 99; fl_flag := ["CLUSTER_MIXED"] |} ].

#[local] Instance demo_inv_collaborators : InvCollaborators := {|
  PavParams := unit;
  default_params := ();
  cluster_table := λ _ _ _ _ _, demo_flags;
  try_intra_region := λ rg _ _ _ _ _ _,
    if bool_decide (rg_end rg - rg_pos rg < 50) then None
    else Some {| inv_chrom := rg_chrom rg; inv_pos := rg_pos rg;
                 inv_end := rg_end rg; inv_vartype := INV;
                 inv_varlen := Z.to_pos (rg_end rg - rg_pos rg);
                 inv_qry_id := "q1"; inv_qry_pos := 0; inv_qry_end := 0;
                 inv_align_source := [rg_pos_align_index rg] |};
|}.



(** Scenarios 1 and 2 of section 8: a forward record at [pos = 100] with
    one mismatch, or a run of three, after ten matches. *)
Definition scenario_ref : pystr :=
  replicate 110 "C"%char ++ base "ACG" ++ replicate 7 "C"%char.

Definition scenario1_qry : pystr :=
  replicate 10 "C"%char ++ base "G" ++ replicate 9 "C"%char.

Definition scenario2_qry : pystr :=
  replicate 10 "C"%char ++ base "TGA" ++ replicate 7 "C"%char.

Definition scenario_record (ops : list (op.code * positive)) : AlignRecord :=
  {| al_align_index := 0; al_chrom := "chr1"; al_pos := 100;
     al_qry_id := "q1"; al_is_rev := false; al_score := 0;
     al_filter := "PASS"; al_align_ops := ops |}.

Definition scenario_snv (ops : list (op.code * positive)) (seq_qry : pystr) :=
  (λ s, (snv_pos (srow s), snv_end (srow s), snv_ref (srow s), snv_alt (srow s),
         snv_qry_pos (srow s), snv_qry_end (srow s), snv_qry_rev (srow s))) <$>
  from_ok []
    (call_snv false scenario_ref seq_qry
       (record_df (with_row_index [scenario_record ops]) 0 false 100 seq_qry)).

(** A world with the directory [tmp] and an old file under a spill name. *)
Definition demo_world_stale : World :=
  {| w_dirs := {["tmp"]};
     w_files := {[ "tmp/snv_chr0.parquet" := SnvFile [];
                   "notes.txt" := InsDelFile [] ]};
     w_log := [] |}.

(** A record on a chromosome whose name has a separator: the spill files
    of the chromosome lie in a directory that does not exist. *)
Definition demo_slash : AlignRecord :=
  {| al_align_index := 13; al_chrom := "chr1/x"; al_pos := 0;
     al_qry_id := "q1"; al_is_rev := false; al_score := 5;
     al_filter := "PASS";
     al_align_ops := [(op.EQ, 4%positive)] |}.

Definition demo_ref_fa3 : string → option pystr :=
  fasta [("chr0", "TTGACA"); ("chr1/x", "ACGTACGT")].

(** A file system that refuses the INS/DEL file of [chr0] under [tmp]. *)
Definition demo_refusing_writer : ParquetWriter := {|
  write_refused := λ p,
    if decide (p = "tmp/insdel_chr0.parquet") then Some (PermissionError p)
    else None;
  write_debris := λ _, None;
|}.



(** The run over [demo_ambiguous] alone, in memory. *)
Definition demo_ambiguous_run :=
  variant_tables_snv_insdel [demo_ambiguous] demo_ref_fa demo_qry_fa None
    empty_world.

Definition demo_ambiguous_frames := from_ok ([], []) demo_ambiguous_run.1.

Definition demo_ambiguous_table : list SnvRow :=
  from_ok [] (collect_snv demo_ambiguous_run.2 demo_ambiguous_frames.1).

(** The frame and the SNV rows of [demo_fwd] alone. *)
Definition demo_fwd_df : list OpRow :=
  record_df (with_row_index [demo_fwd]) 0 (al_is_rev demo_fwd)
    (al_pos demo_fwd) demo_qry.

Definition demo_fwd_snv : list (Scored SnvRow) :=
  from_ok [] (call_snv (al_is_rev demo_fwd) demo_ref demo_qry demo_fwd_df).

(** ** Totals *)

(** Sum of an integer measure over a list. *)
Definition sumZ {A} (f : A → Z) (l : list A) : Z :=
  foldr (λ x acc, f x + acc) 0 l.

Section TableTotals.
Context `{ScoreModel}.

(** Total [varlen] of the rows of one variant type in a returned table. *)
Definition table_varlen_sum (vt : vartype) (rows : list InsDelRow) : Z :=
  sumZ (λ s, if decide (sv_vartype s = vt) then Z.pos (sv_varlen s) else 0) rows.
End TableTotals.

(** * Result summary (tests/summarize_results.py)

    The VCF reader, the per-file summary and the categorisation of the
    output files.  A text line, a field and a file name are [string]s;
    file names are ASCII.  A path [Path(root) / fname] is kept as the pair
    of its two parts.  The printing of [print_summary] and the argument
    parsing of [main] are left out. *)

(** ** Python string methods *)

(** [s.startswith(c)] for a one-character prefix. *)
Definition startswith_char (c : ascii) (s : string) : bool :=
  match s with
  | String c' _ => bool_decide (c' = c)
  | EmptyString => false
  end.

(** [s.split(sep)] for a one-character separator: the result is never
    empty, and two separators in a row give an empty part. *)
Fixpoint py_split (sep : ascii) (s : string) : list string :=
  match s with
  | EmptyString => [EmptyString]
  | String c s' =>
      if bool_decide (c = sep) then EmptyString :: py_split sep s'
      else match py_split sep s' with
           | p :: ps => String c p :: ps
           | [] => [String c EmptyString]
           end
  end.

(** [s.split(sep, 1)]: at most one split, at the first separator. *)
Fixpoint py_split1 (sep : ascii) (s : string) : list string :=
  match s with
  | EmptyString => [EmptyString]
  | String c s' =>
      if bool_decide (c = sep) then [EmptyString; s']
      else match py_split1 sep s' with
           | p :: ps => String c p :: ps
           | [] => [String c EmptyString]
           end
  end.

(** [sep.join(parts)]. *)
Fixpoint py_join (sep : string) (parts : list string) : string :=
  match parts with
  | [] => EmptyString
  | [p] => p
  | p :: ps => p +:+ sep +:+ py_join sep ps
  end.

(** [s.lower()] on ASCII. *)
Definition lower_ascii (c : ascii) : ascii :=
  let n := N_of_ascii c in
  if bool_decide (65 ≤ n ≤ 90)%N then ascii_of_N (n + 32) else c.

Fixpoint lower (s : string) : string :=
  match s with
  | EmptyString => EmptyString
  | String c s' => String (lower_ascii c) (lower s')
  end.

(** [sub in s] for strings. *)
Fixpoint py_in (sub s : string) : bool :=
  String.prefix sub s
  || match s with
     | EmptyString => false
     | String _ s' => py_in sub s'
     end.

Definition TAB : ascii := "009"%char.
Definition NL : ascii := "010"%char.

(** A loop with an accumulator whose body can raise. *)
Fixpoint foldR {A B} (f : B → A → Result B) (b : B) (l : list A) : Result B :=
  match l with
  | [] => Ok b
  | x :: l' => let! b' := f b x in foldR f b' l'
  end.

(** ** Collaborators *)

(** The builtin [int] on a [str]: [None] stands for its [ValueError]. *)
Class PyInt := { py_int : string → option Z }.

(** The message of the [ValueError] of [int], for a string whose [repr]
    is the string between single quotes. *)
Definition int_of_str `{PyInt} (s : string) : Result Z :=
  of_option (ValueError ("invalid literal for int() with base 10: '" +:+ s +:+ "'"))
    (py_int s).

(** [Path(root) / fname]; [name] is its last part. *)
Record FilePath := {
  fp_root : string;
  fp_name : string;
}.

#[global] Instance FilePath_eq_dec : EqDecision FilePath.
Proof. solve_decision. Defined.

(** The file system: the lines the handle opened at lines 37-39 yields
    (each with its line end), or the error of the opener; and the triples
    of [os.walk]. *)
Class FileSystem := {
  open_lines : FilePath → Result (list string);
  os_walk : string → list (string * list string * list string);
}.

(** ** Records *)

(** A value of the [info] dict: a string, or [True] for a flag. *)
Inductive InfoVal :=
| IStr (s : string)
| ITrue.

#[global] Instance InfoVal_eq_dec : EqDecision InfoVal.
Proof. solve_decision. Defined.

#[global, refine] Instance InfoVal_countable : Countable InfoVal :=
  inj_countable'
    (λ v, match v with IStr s => Some s | ITrue => None end)
    (λ o, match o with Some s => IStr s | None => ITrue end) _.
Proof. by intros []. Defined.

Record VcfRecord := {
  vr_chrom : string;
  vr_pos : Z;
  vr_id : string;
  vr_ref : string;
  vr_alt : string;
  vr_qual : string;
  vr_filter : string;
  vr_info : gmap string InfoVal;
}.

Record Summary := {
  sm_file : string;
  sm_total : nat;
  sm_by_type : gmap InfoVal nat;
  sm_sv_lengths : list Z;
}.

Record Categories := {
  cat_vcf : list FilePath;
  cat_bed : list FilePath;
  cat_tsv : list FilePath;
  cat_other : list FilePath;
}.

Section Summarize.
Context `{PyInt, FileSystem}.

(** ** [read_vcf_records] (lines 33-68) *)

(** One turn of the loop over the INFO entries (lines 50-55); the
    unpacking of [key, val] raises when the split has not two parts. *)
Definition parse_entry (info : gmap string InfoVal) (entry : string)
    : Result (gmap string InfoVal) :=
  if contains_char "=" entry then
    match py_split1 "=" entry with
    | [key; val] => Ok (<[key := IStr val]> info)
    | [] | [_] => Raise (ValueError "not enough values to unpack")
    | _ => Raise (ValueError "too many values to unpack (expected 2)")
    end
  else Ok (<[entry := ITrue]> info).

Definition parse_info (field : string) : Result (gmap string InfoVal) :=
  foldR parse_entry ∅ (py_split ";" field).

(** One turn of the loop over the lines (lines 40-66). *)
Definition read_line (records : list VcfRecord) (line : string)
    : Result (list VcfRecord) :=
  if startswith_char "#" line then Ok records
  else
    match py_split TAB (rstrip_char NL line) with
    | f0 :: f1 :: f2 :: f3 :: f4 :: f5 :: f6 :: f7 :: _ =>
        let! info := parse_info f7 in
        let! pos := int_of_str f1 in
        Ok (records ++ [ {| vr_chrom := f0; vr_pos := pos; vr_id := f2;
                            vr_ref := f3; vr_alt := f4; vr_qual := f5;
                            vr_filter := f6; vr_info := info |} ])
    | _ => Ok records
    end.

Definition read_vcf_records (vcf_path : FilePath) : Result (list VcfRecord) :=
  let! fh := open_lines vcf_path in
  foldR read_line [] fh.

(** ** [summarize_vcf] (lines 71-94) *)

(** [int(svlen)] for a value of the [info] dict: [int(True)] is 1. *)
Definition info_int (v : InfoVal) : option Z :=
  match v with
  | IStr s => py_int s
  | ITrue => Some 1
  end.

(** One turn of the loop over the records (lines 78-87). *)
Definition count_record (acc : gmap InfoVal nat * list Z) (rec : VcfRecord)
    : gmap InfoVal nat * list Z :=
  let '(sv_type_counts, sv_lengths) := acc in
  let svtype := default (IStr "UNKNOWN") (vr_info rec !! "SVTYPE") in
  let sv_type_counts :=
    <[svtype := S (default 0%nat (sv_type_counts !! svtype))]> sv_type_counts in
  let sv_lengths :=
    match vr_info rec !! "SVLEN" with
    | Some svlen =>
        match info_int svlen with
        | Some n => sv_lengths ++ [Z.abs n]
        | None => sv_lengths
        end
    | None => sv_lengths
    end in
  (sv_type_counts, sv_lengths).

Definition summarize_vcf (vcf_path : FilePath) : Result Summary :=
  let! records := read_vcf_records vcf_path in
  let counted := foldl count_record (∅, []) records in
  Ok {| sm_file := fp_name vcf_path;
        sm_total := length records;
        sm_by_type := counted.1;
        sm_sv_lengths := counted.2 |}.

(** ** [find_output_files] (lines 97-121) *)

(** The body of the inner loop (lines 109-119). *)
Definition categorise (categories : Categories) (root fname : string)
    : Categories :=
  let fpath := {| fp_root := root; fp_name := fname |} in
  let name_lower := lower fname in
  if py_in ".vcf" name_lower then
    {| cat_vcf := cat_vcf categories ++ [fpath]; cat_bed := cat_bed categories;
       cat_tsv := cat_tsv categories; cat_other := cat_other categories |}
  else if py_in ".bed" name_lower then
    {| cat_vcf := cat_vcf categories; cat_bed := cat_bed categories ++ [fpath];
       cat_tsv := cat_tsv categories; cat_other := cat_other categories |}
  else if py_in ".tsv" name_lower then
    {| cat_vcf := cat_vcf categories; cat_bed := cat_bed categories;
       cat_tsv := cat_tsv categories ++ [fpath]; cat_other := cat_other categories |}
  else
    {| cat_vcf := cat_vcf categories; cat_bed := cat_bed categories;
       cat_tsv := cat_tsv categories; cat_other := cat_other categories ++ [fpath] |}.

Definition find_output_files (output_dir : string) : Categories :=
  foldl (λ categories '(root, _dirs, files),
           foldl (λ categories fname, categorise categories root fname)
                 categories files)
        {| cat_vcf := []; cat_bed := []; cat_tsv := []; cat_other := [] |}
        (os_walk output_dir).

(** The files [os.walk] lists, in its order. *)
Definition walked_files (output_dir : string) : list FilePath :=
  '(root, _dirs, files) ← os_walk output_dir;
  (λ fname, {| fp_root := root; fp_name := fname |}) <$> files.

(** The tab-separated fields of a line, and whether the loop of
    [read_vcf_records] makes a record of the line. *)
Definition line_fields (line : string) : list string :=
  py_split TAB (rstrip_char NL line).

Definition is_data_line (line : string) : bool :=
  negb (startswith_char "#" line) && bool_decide (8 ≤ length (line_fields line))%nat.

(** The record a data line gives. *)
Definition line_record (line : string) (rec : VcfRecord) : Prop :=
  ∃ f1 f7 rest,
    line_fields line
    = vr_chrom rec :: f1 :: vr_id rec :: vr_ref rec :: vr_alt rec
        :: vr_qual rec :: vr_filter rec :: f7 :: rest
    ∧ py_int f1 = Some (vr_pos rec)
    ∧ parse_info f7 = Ok (vr_info rec).

(** The [svtype] under which [summarize_vcf] counts a record. *)
Definition record_svtype (rec : VcfRecord) : InfoVal :=
  default (IStr "UNKNOWN") (vr_info rec !! "SVTYPE").
End Summarize.

(** ** Collaborators used by the examples *)

(** Decimal digits with an optional sign. *)
Fixpoint digits_value (acc : Z) (s : string) : option Z :=
  match s with
  | EmptyString => Some acc
  | String c s' =>
      let n := N_of_ascii c in
      if bool_decide (48 ≤ n ≤ 57)%N
      then digits_value (10 * acc + Z.of_N (n - 48)) s'
      else None
  end.

Definition demo_int (s : string) : option Z :=
  match s with
  | EmptyString => None
  | String "-" EmptyString => None
  | String "-" s' => Z.opp <$> digits_value 0 s'
  | _ => digits_value 0 s
  end.

#[local] Instance demo_py_int : PyInt := {| py_int := demo_int |}.

Definition vcf_line (fields : list string) : string :=
  py_join (String TAB EmptyString) fields +:+ String NL EmptyString.

Definition demo_vcf_lines : list string :=
  [ "##fileformat=VCFv4.2" +:+ String NL EmptyString;
    vcf_line ["#CHROM"; "POS"; "ID"; "REF"; "ALT"; "QUAL"; "FILTER"; "INFO"];
    vcf_line ["chr1"; "100"; "v1"; "A"; "<INS>"; "."; "PASS";
              "SVTYPE=INS;SVLEN=52;NOTE=a=b;SVTYPE=DUP"];
    String NL EmptyString;
    vcf_line ["chr1"; "200"; "v2"; "AT"; "A"; "."; "PASS"; "SVLEN=-31;IMPRECISE"];
    vcf_line ["chr2"; "7"; "v3"; "C"; "G"; "."; "PASS"; "."];
    vcf_line ["chr2"; "9"; "short"];
    vcf_line ["chr2"; "30"; "v4"; "C"; "<DEL>"; "."; "PASS"; "SVTYPE=DEL;SVLEN"] ].

Definition demo_bad_lines : list string :=
  [ vcf_line ["chr1"; "100"; "v1"; "A"; "<INS>"; "."; "PASS"; "SVTYPE=INS"];
    vcf_line ["chr1"; "1e3"; "v2"; "A"; "<INS>"; "."; "PASS"; "SVTYPE=INS"] ].

Definition demo_vcf_path : FilePath := {| fp_root := "out"; fp_name := "calls.vcf.gz" |}.
Definition demo_bad_path : FilePath := {| fp_root := "out"; fp_name := "bad.vcf" |}.

#[local] Instance demo_fs : FileSystem := {|
  open_lines p :=
    if decide (p = demo_vcf_path) then Ok demo_vcf_lines
    else if decide (p = demo_bad_path) then Ok demo_bad_lines
    else Raise (FileNotFoundError (fp_name p));
  os_walk d :=
    if decide (d = "out")
    then [ ("out", ["sub"], ["calls.vcf.gz"; "bad.vcf"; "README"; "Regions.BED"]);
           ("out/sub", [], ["table.tsv.gz"; "calls.vcf.bed"; "notes.txt"]) ]
    else [];
|}.

Definition demo_records : list VcfRecord := from_ok [] (read_vcf_records demo_vcf_path).

(** * Properties *)

(** ** Results and traversals *)

Lemma rbind_Ok {A B} (m : Result A) (k : A → Result B) b :
  rbind m k = Ok b ↔ ∃ a, m = Ok a ∧ k a = Ok b.
Proof.
  destruct m as [a|e]; simpl; split.
  - eauto.
  - by intros (a' & [= <-] & ?).
  - done.
  - by intros (a' & ? & ?).
Qed.

Lemma of_option_Ok {A} e (o : option A) a : of_option e o = Ok a ↔ o = Some a.
Proof. destruct o; simpl; split; congruence. Qed.

Lemma mapR_Ok_Forall2 {A B} (f : A → Result B) l k :
  mapR f l = Ok k ↔ Forall2 (λ x y, f x = Ok y) l k.
Proof.
  revert k. induction l as [|x l IH]; intros k; simpl.
  - split; [intros [= <-]; constructor | by inversion 1].
  - rewrite rbind_Ok. split.
    + intros (y & Hy & Hk). apply rbind_Ok in Hk as (ys & Hys & [= <-]).
      constructor; [done | by apply IH].
    + inversion 1 as [|? y ? ys Hy Hys]; subst. exists y. split; [done|].
      apply IH in Hys. by rewrite Hys.
Qed.

Lemma mapR_length {A B} (f : A → Result B) l k :
  mapR f l = Ok k → length k = length l.
Proof. intros Hm%mapR_Ok_Forall2. symmetry. by eapply Forall2_length. Qed.

Lemma mapR_ext {A B} (f g : A → Result B) l :
  (∀ x, x ∈ l → f x = g x) → mapR f l = mapR g l.
Proof.
  induction l as [|x l IH]; intros Hfg; simpl; [done|].
  rewrite Hfg by left. rewrite IH; [done|]. intros y Hy. apply Hfg. by right.
Qed.

Lemma mapR_fmap {A B C} (f : B → Result C) (g : A → B) l :
  mapR f (g <$> l) = mapR (f ∘ g) l.
Proof.
  induction l as [|x l IH]; [done|].
  rewrite fmap_cons. cbn [mapR]. by rewrite IH.
Qed.

Lemma mapR_pure {A B} (g : A → B) l : mapR (λ x, Ok (g x)) l = Ok (g <$> l).
Proof. induction l as [|x l IH]; simpl; [done|]. by rewrite IH. Qed.

(** ** Python slices *)

Lemma py_slice_length_le {A} (s : list A) a b :
  0 ≤ b - a → Z.of_nat (length (py_slice s a b)) ≤ b - a.
Proof.
  intros Hab. unfold py_slice, py_slice_index.
  rewrite length_take, length_drop. repeat case_bool_decide; lia.
Qed.

Lemma py_slice_length_in {A} (s : list A) a b :
  0 ≤ a → a ≤ b → b ≤ Z.of_nat (length s) →
  Z.of_nat (length (py_slice s a b)) = b - a.
Proof.
  intros Ha Hab Hb. unfold py_slice, py_slice_index.
  rewrite length_take, length_drop. repeat case_bool_decide; lia.
Qed.

Lemma reverse_complement_length `{BioSeq} (s : pystr) :
  length (reverse_complement s) = length s.
Proof. unfold reverse_complement. by rewrite length_reverse, length_fmap. Qed.

(** ** polars replace *)

Lemma assoc_find_None tbl v : v ∉ tbl.*1 → assoc_find tbl v = None.
Proof.
  induction tbl as [|[k x] tbl IH]; simpl; [done|].
  intros Hv. rewrite not_elem_of_cons in Hv. destruct Hv as [Hne Hv].
  case_decide; [congruence | by apply IH].
Qed.

Lemma pl_replace_unlisted old new v : v ∉ old → pl_replace old new v = v.
Proof.
  intros Hv. unfold pl_replace. rewrite assoc_find_None; [done|].
  intros Hin. apply Hv. apply list_elem_of_fmap in Hin as ([k x] & -> & Hin).
  simpl. by apply elem_of_zip_l in Hin.
Qed.

Lemma pl_replace_listed old new v k t :
  old !! k = Some v → new !! k = Some t →
  (∀ j, (j < k)%nat → old !! j ≠ Some v) →
  pl_replace old new v = t.
Proof.
  unfold pl_replace. revert new k.
  induction old as [|o old IH]; intros [|n new] [|k]; simpl; try done.
  - intros [= ->] [= ->] _. by rewrite decide_True.
  - intros Ho Hn Hfirst. rewrite decide_False.
    + apply (IH new k); [done..|]. intros j Hj. apply (Hfirst (S j)). lia.
    + intros ->. by apply (Hfirst 0%nat); [lia|].
Qed.

(** Whatever the two translation lists are, as long as the first has
    fewer than 255 entries some base other than N is not listed, and
    [replace] hands it back unchanged. *)
Lemma pl_replace_keeps_some_base (old new : list pystr) :
  (length old < 255)%nat →
  ∃ c : ascii,
    c ≠ "N"%char ∧ ([c] ∉ old) ∧ pl_replace old new [c] = [c].
Proof.
  intros Hlen.
  set (cands := filter (λ c : ascii, c ≠ "N"%char)
                  (ascii_of_nat <$> seq 0 256)).
  assert (Hnd : NoDup ((λ c : ascii, [c]) <$> cands)).
  { apply NoDup_fmap; [by intros c1 c2 [= ->]|].
    apply NoDup_filter. apply NoDup_fmap_2_strong; [|apply NoDup_seq].
    intros n m Hn%elem_of_seq Hm%elem_of_seq Heq.
    rewrite <- (nat_ascii_embedding n), <- (nat_ascii_embedding m) by lia.
    by rewrite Heq. }
  assert (Hcount : length ((λ c : ascii, [c]) <$> cands) = 255%nat)
    by (vm_compute; reflexivity).
  destruct (decide (Forall (λ c : ascii, [c] ∈ old) cands)) as [Hall | Hsome].
  - assert (((λ c : ascii, [c]) <$> cands) ⊆+ old) as Hsub.
    { apply NoDup_submseteq; [done|].
      intros x (c & -> & Hc)%list_elem_of_fmap.
      rewrite Forall_forall in Hall. by apply Hall. }
    apply submseteq_length in Hsub. lia.
  - apply not_Forall_Exists in Hsome; [|apply _].
    apply Exists_exists in Hsome as (c & Hc & Hnot).
    apply list_elem_of_filter in Hc as [Hn _].
    exists c. split_and!; [done..|]. by apply pl_replace_unlisted.
Qed.

(** ** Operation-stream expansion *)
Section Expansion.
Context `{ScoreModel}.

Lemma shift_fill_cons {A} (v x : A) l : shift_fill v (x :: l) = v :: shift_fill x l.
Proof. done. Qed.

Lemma op_rows_from (ex : list (AlignRecord * (op.code * positive))) a b pos :
  zip_with mk_op_row ex
    (zip (shift_fill (a + pos)
            ((λ s, s + pos) <$> cum_sum_from a (ref_len ∘ snd <$> ex)))
       (zip ((λ s, s + pos) <$> cum_sum_from a (ref_len ∘ snd <$> ex))
          (zip (shift_fill b (cum_sum_from b (qry_len ∘ snd <$> ex)))
             (cum_sum_from b (qry_len ∘ snd <$> ex)))))
  = running_rows ex (a + pos) b.
Proof.
  revert a b. induction ex as [|x ex IH]; intros a b; [done|].
  rewrite !fmap_cons. cbn [cum_sum_from fmap list_fmap].
  rewrite !shift_fill_cons. cbn [zip zip_with running_rows].
  f_equal.
  - unfold mk_op_row; simpl. f_equal; lia.
  - specialize (IH (a + ref_len x.2) (b + qry_len x.2)).
    replace (a + pos + ref_len x.2) with (a + ref_len x.2 + pos) by lia.
    rewrite <- IH. done.
Qed.

(** The column-wise frame is the one-pass expansion seeded with the
    record start and 0. *)
Lemma op_rows_running (ex : list (AlignRecord * (op.code * positive))) pos :
  op_rows ex pos = running_rows ex pos 0.
Proof. unfold op_rows, cum_sum. apply (op_rows_from ex 0 0 pos). Qed.

Lemma explode_ops_cons (x : Z * AlignRecord) df index :
  explode_ops (x :: df) index
  = (if decide (x.1 = index) then (λ o, (x.2, o)) <$> al_align_ops x.2 else [])
    ++ explode_ops df index.
Proof. unfold explode_ops. rewrite bind_cons. by destruct x. Qed.

Lemma explode_ops_miss (df : list (Z * AlignRecord)) index :
  Forall (λ x, x.1 ≠ index) df → explode_ops df index = [].
Proof.
  induction 1 as [|x df Hx _ IH]; [done|].
  rewrite explode_ops_cons, IH. by rewrite decide_False.
Qed.

(** Row indices are distinct, so the filter on [_index] selects the
    operations of one record. *)
Lemma explode_ops_imap (df : list AlignRecord) (k i : nat) :
  explode_ops (imap (λ j r, (Z.of_nat (k + j), r)) df) (Z.of_nat (k + i))
  = from_option (λ r, (λ o, (r, o)) <$> al_align_ops r) [] (df !! i).
Proof.
  revert k i. induction df as [|r df IH]; intros k i; [done|].
  cbn [imap]. rewrite explode_ops_cons. cbn [fst snd].
  assert (Hshift : imap ((λ j r0, (Z.of_nat (k + j), r0)) ∘ S) df
                   = imap (λ j r0, (Z.of_nat (S k + j), r0)) df).
  { apply imap_ext. intros j x _. simpl. do 2 f_equal. lia. }
  rewrite Hshift. destruct i as [|i].
  - rewrite decide_True by done. rewrite explode_ops_miss; [by rewrite app_nil_r|].
    apply Forall_forall. intros [j x] Hin.
    apply elem_of_lookup_imap in Hin as (n & y & [= -> ->] & _). simpl. lia.
  - rewrite decide_False by lia.
    replace (k + S i)%nat with (S k + i)%nat by lia. apply IH.
Qed.

Lemma explode_ops_with_row_index (df : list AlignRecord) i r :
  df !! i = Some r →
  explode_ops (with_row_index df) (Z.of_nat i) = (λ o, (r, o)) <$> al_align_ops r.
Proof.
  intros Hr. unfold with_row_index.
  pose proof (explode_ops_imap df 0 i) as Hex. simpl in Hex.
  rewrite Hex, Hr. done.
Qed.

Lemma record_df_oriented (df : list AlignRecord) i r seq_qry :
  df !! i = Some r →
  record_df (with_row_index df) (Z.of_nat i) (al_is_rev r) (al_pos r) seq_qry
  = oriented_rows r seq_qry.
Proof.
  intros Hr. unfold record_df, oriented_rows, aligned_rows.
  by rewrite (explode_ops_with_row_index df i r Hr), op_rows_running.
Qed.
End Expansion.

(** ** Emitters over one frame *)

Lemma elem_of_concat {A} (x : A) (ls : list (list A)) :
  x ∈ concat ls ↔ ∃ l, l ∈ ls ∧ x ∈ l.
Proof.
  induction ls as [|l ls IH]; simpl.
  - split; [by intros ?%elem_of_nil | by intros (l & ?%elem_of_nil & _)].
  - rewrite elem_of_app, IH. split.
    + intros [Hx | (l' & Hl' & Hx)]; [exists l | exists l']; split; auto.
      * by left.
      * by right.
    + intros (l' & Hl' & Hx). apply elem_of_cons in Hl' as [-> | Hl']; eauto.
Qed.

Lemma mapR_concat_elem {A B} (f : A → Result (list B)) l parts y :
  mapR f l = Ok parts →
  y ∈ concat parts ↔ ∃ x ys, x ∈ l ∧ f x = Ok ys ∧ y ∈ ys.
Proof.
  intros HF%mapR_Ok_Forall2. rewrite elem_of_concat. split.
  - intros (ys & Hys & Hy).
    apply list_elem_of_lookup in Hys as (n & Hn).
    destruct (Forall2_lookup_r _ _ _ _ _ HF Hn) as (x & Hx & Hfx).
    exists x, ys. eauto using list_elem_of_lookup_2.
  - intros (x & ys & Hx & Hfx & Hy).
    apply list_elem_of_lookup in Hx as (n & Hn).
    destruct (Forall2_lookup_l _ _ _ _ _ HF Hn) as (ys' & Hys' & Hfx').
    exists ys. split; [|done].
    rewrite Hfx in Hfx'. injection Hfx' as ->.
    eauto using list_elem_of_lookup_2.
Qed.

Section Emission.
Context `{ScoreModel, ComplTable, BioSeq, !ParquetWriter}.

(** The columns the offset expansion fixes, whatever the strand. *)
Lemma snv_row_fields is_rev seq_ref seq_qry d o s :
  snv_row is_rev seq_ref seq_qry d o = Ok s →
  snv_pos (srow s) = op_pos d + o
  ∧ snv_qry_pos (srow s)
    = op_qry_pos d + o
      + (Z.pos (op_len d) - 2 * o - 1) * (if is_rev then 1 else 0)
  ∧ snv_end (srow s) = snv_pos (srow s) + 1
  ∧ snv_qry_end (srow s) = snv_qry_pos (srow s) + 1
  ∧ snv_chrom (srow s) = al_chrom (op_rec d)
  ∧ snv_qry_id (srow s) = al_qry_id (op_rec d)
  ∧ snv_qry_rev (srow s) = al_is_rev (op_rec d)
  ∧ snv_var_score (srow s) = mismatch 1
  ∧ _align_score s = al_score (op_rec d).
Proof.
  unfold snv_row. intros Hs.
  apply rbind_Ok in Hs as (rb & _ & Hs).
  apply rbind_Ok in Hs as (qb & _ & [= <-]). simpl. tauto.
Qed.

(** The two bases of an SNV row. *)
Lemma snv_row_bases is_rev seq_ref seq_qry d o s :
  snv_row is_rev seq_ref seq_qry d o = Ok s →
  ∃ rb qb,
    py_getitem seq_ref (snv_pos (srow s)) = Some rb
    ∧ snv_ref (srow s) = [rb]
    ∧ py_getitem seq_qry (snv_qry_pos (srow s)) = Some qb
    ∧ snv_alt (srow s)
      = if is_rev then pl_replace COMPL_TR_FROM COMPL_TR_TO [qb] else [qb].
Proof.
  unfold snv_row. intros Hs.
  apply rbind_Ok in Hs as (rb & Hrb%of_option_Ok & Hs).
  apply rbind_Ok in Hs as (qb & Hqb%of_option_Ok & [= <-]).
  exists rb, qb. simpl. by destruct is_rev.
Qed.

Lemma snv_rows_of_elem is_rev seq_ref seq_qry d part s :
  snv_rows_of is_rev seq_ref seq_qry d = Ok part →
  s ∈ part ↔
  ∃ o, 0 ≤ o < Z.pos (op_len d) ∧ snv_row is_rev seq_ref seq_qry d o = Ok s.
Proof.
  unfold snv_rows_of. intros HF%mapR_Ok_Forall2. split.
  - intros (n & Hn)%list_elem_of_lookup.
    destruct (Forall2_lookup_r _ _ _ _ _ HF Hn) as (o & Ho & Hfo).
    apply lookup_seqZ in Ho as [-> Hlt]. exists (0 + Z.of_nat n). split; [lia|done].
  - intros (o & Ho & Hs).
    assert (seqZ 0 (Z.pos (op_len d)) !! Z.to_nat o = Some o) as Hn.
    { apply lookup_seqZ. lia. }
    destruct (Forall2_lookup_l _ _ _ _ _ HF Hn) as (s' & Hs' & Hfo).
    rewrite Hs in Hfo. injection Hfo as <-. eauto using list_elem_of_lookup_2.
Qed.

Lemma snv_rows_of_length is_rev seq_ref seq_qry d part :
  snv_rows_of is_rev seq_ref seq_qry d = Ok part →
  Z.of_nat (length part) = Z.pos (op_len d).
Proof.
  unfold snv_rows_of. intros ->%mapR_length. rewrite length_seqZ. lia.
Qed.

(** Every row [call_snv] returns is one offset of one mismatch row. *)
Lemma call_snv_elem is_rev seq_ref seq_qry df rows s :
  call_snv is_rev seq_ref seq_qry df = Ok rows →
  s ∈ rows ↔
  ∃ d o, d ∈ df ∧ op_code d = op.X ∧ 0 ≤ o < Z.pos (op_len d)
         ∧ snv_row is_rev seq_ref seq_qry d o = Ok s.
Proof.
  unfold call_snv. intros (parts & Hparts & [= <-])%rbind_Ok.
  rewrite (mapR_concat_elem _ _ _ _ Hparts). split.
  - intros (d & part & [Hx Hd]%list_elem_of_filter & Hpart & Hs).
    apply (snv_rows_of_elem _ _ _ _ _ _ Hpart) in Hs as (o & Ho & Hs).
    exists d, o. eauto.
  - intros (d & o & Hd & Hx & Ho & Hs).
    apply mapR_Ok_Forall2 in Hparts as HF.
    assert (d ∈ filter (λ r, op_code r = op.X) df) as Hin
      by by apply list_elem_of_filter.
    apply list_elem_of_lookup in Hin as (n & Hn).
    destruct (Forall2_lookup_l _ _ _ _ _ HF Hn) as (part & _ & Hpart).
    exists d, part. split_and!; [by apply list_elem_of_filter | done |].
    apply (snv_rows_of_elem _ _ _ _ _ _ Hpart). eauto.
Qed.

(** Every offset of every mismatch row of the frame has its row. *)
Lemma call_snv_offset is_rev seq_ref seq_qry df rows d o :
  call_snv is_rev seq_ref seq_qry df = Ok rows →
  d ∈ df → op_code d = op.X → 0 ≤ o < Z.pos (op_len d) →
  ∃ s, s ∈ rows ∧ snv_row is_rev seq_ref seq_qry d o = Ok s.
Proof.
  intros Hrows Hin Hx Ho.
  assert (Hex : ∃ s, snv_row is_rev seq_ref seq_qry d o = Ok s).
  { unfold call_snv in Hrows.
    apply rbind_Ok in Hrows as (parts & Hparts%mapR_Ok_Forall2 & _).
    assert (d ∈ filter (λ r, op_code r = op.X) df) as Hf
      by by apply list_elem_of_filter.
    apply list_elem_of_lookup in Hf as (n & Hn).
    destruct (Forall2_lookup_l _ _ _ _ _ Hparts Hn) as (part & _ & Hpart).
    unfold snv_rows_of in Hpart. apply mapR_Ok_Forall2 in Hpart.
    assert (seqZ 0 (Z.pos (op_len d)) !! Z.to_nat o = Some o) as Hn'.
    { apply lookup_seqZ. lia. }
    destruct (Forall2_lookup_l _ _ _ _ _ Hpart Hn') as (s & _ & Hs). eauto. }
  destruct Hex as (s & Hs). exists s. split; [|done].
  apply (call_snv_elem _ _ _ _ _ s Hrows). exists d, o. done.
Qed.

Lemma call_snv_length is_rev seq_ref seq_qry df rows :
  call_snv is_rev seq_ref seq_qry df = Ok rows →
  Z.of_nat (length rows) = op_len_sum op.X (frame_ops df).
Proof.
  unfold call_snv. intros (parts & Hparts & [= <-])%rbind_Ok.
  revert parts Hparts. induction df as [|d df IH]; intros parts Hparts.
  - injection Hparts as <-. done.
  - rewrite filter_cons in Hparts. unfold frame_ops. rewrite fmap_cons.
    cbn [op_len_sum foldr fst snd]. case_decide as Hx.
    + cbn [mapR] in Hparts.
      apply rbind_Ok in Hparts as (part & Hpart & Hrest).
      apply rbind_Ok in Hrest as (parts' & Hparts' & [= <-]).
      cbn [concat]. rewrite length_app, Nat2Z.inj_add.
      rewrite (snv_rows_of_length _ _ _ _ _ Hpart).
      f_equal. by apply IH.
    + rewrite Z.add_0_l. by apply IH.
Qed.
End Emission.

(** ** Rows of one record *)
Section RecordRows.
Context `{ScoreModel, ComplTable, BioSeq, !ParquetWriter}.

Lemma running_rows_elem (ex : list (AlignRecord * (op.code * positive))) a b d :
  d ∈ running_rows ex a b →
  op_end d = op_pos d + ref_len (op_code d, op_len d)
  ∧ op_qry_end d = op_qry_pos d + qry_len (op_code d, op_len d)
  ∧ (op_rec d, (op_code d, op_len d)) ∈ ex.
Proof.
  revert a b. induction ex as [|[r [c l]] ex IH]; intros a b; simpl.
  - by intros ?%elem_of_nil.
  - intros [-> | Hd]%elem_of_cons; simpl.
    + split_and!; [done..|left].
    + destruct (IH _ _ Hd) as (? & ? & ?). split_and!; [done..|by right].
Qed.

Lemma running_rows_ops (ex : list (AlignRecord * (op.code * positive))) a b :
  frame_ops (running_rows ex a b) = snd <$> ex.
Proof.
  revert a b. induction ex as [|[r [c l]] ex IH]; intros a b; [done|].
  unfold frame_ops in *. simpl. by rewrite IH.
Qed.

Lemma running_rows_head (ex : list (AlignRecord * (op.code * positive))) a b d :
  head (running_rows ex a b) = Some d → op_pos d = a ∧ op_qry_pos d = b.
Proof. destruct ex as [|x ex]; simpl; [done|]. by intros [= <-]. Qed.

(** Consecutive rows share their boundary coordinates. *)
Lemma running_rows_chain (ex : list (AlignRecord * (op.code * positive))) a b k d d' :
  running_rows ex a b !! k = Some d →
  running_rows ex a b !! S k = Some d' →
  op_pos d' = op_end d ∧ op_qry_pos d' = op_qry_end d.
Proof.
  revert a b k. induction ex as [|x ex IH]; intros a b k; [done|].
  destruct k as [|k]; simpl.
  - intros [= <-] Hd'. simpl.
    apply (running_rows_head ex). by rewrite head_lookup.
  - apply IH.
Qed.

Lemma aligned_rows_ops (r : AlignRecord) : frame_ops (aligned_rows r) = al_align_ops r.
Proof.
  unfold aligned_rows. rewrite running_rows_ops, <- list_fmap_compose.
  by rewrite list_fmap_id.
Qed.

Lemma oriented_rows_ops (r : AlignRecord) seq_qry :
  frame_ops (oriented_rows r seq_qry) = al_align_ops r.
Proof.
  unfold oriented_rows. destruct (al_is_rev r); [|apply aligned_rows_ops].
  rewrite <- (aligned_rows_ops r). unfold frame_ops.
  by rewrite <- list_fmap_compose.
Qed.

(** Each row of a record spans its own reference and query advance, on
    either strand, and belongs to that record. *)
Lemma oriented_rows_elem (r : AlignRecord) seq_qry d :
  d ∈ oriented_rows r seq_qry →
  op_end d = op_pos d + ref_len (op_code d, op_len d)
  ∧ op_qry_end d = op_qry_pos d + qry_len (op_code d, op_len d)
  ∧ op_rec d = r.
Proof.
  assert (Hal : ∀ d, d ∈ aligned_rows r →
    op_end d = op_pos d + ref_len (op_code d, op_len d)
    ∧ op_qry_end d = op_qry_pos d + qry_len (op_code d, op_len d)
    ∧ op_rec d = r).
  { intros d' Hd'. apply running_rows_elem in Hd' as (? & ? & Hin).
    apply list_elem_of_fmap in Hin as (o & [= ? _] & _). done. }
  unfold oriented_rows. destruct (al_is_rev r); [|apply Hal].
  intros (a & -> & Ha)%list_elem_of_fmap.
  destruct (Hal a Ha) as (? & ? & ?). simpl. split_and!; [done| lia |done].
Qed.

Lemma ref_len_nonneg o : 0 ≤ ref_len o.
Proof. unfold ref_len. case_decide; lia. Qed.

Lemma qry_len_nonneg o : 0 ≤ qry_len o.
Proof. unfold qry_len. case_decide; lia. Qed.

Lemma ref_span_nonneg ops : 0 ≤ ref_span ops.
Proof.
  induction ops as [|o ops IH]; simpl; [done|].
  pose proof (ref_len_nonneg o). lia.
Qed.

Lemma qry_span_nonneg ops : 0 ≤ qry_span ops.
Proof.
  induction ops as [|o ops IH]; simpl; [done|].
  pose proof (qry_len_nonneg o). lia.
Qed.

(** Every row of the one-pass expansion lies between the seeds and the
    seeds plus the total advance. *)
Lemma running_rows_bounds (ex : list (AlignRecord * (op.code * positive))) a b d :
  d ∈ running_rows ex a b →
  a ≤ op_pos d ∧ op_pos d ≤ op_end d ∧ op_end d ≤ a + ref_span (snd <$> ex)
  ∧ b ≤ op_qry_pos d ∧ op_qry_pos d ≤ op_qry_end d
  ∧ op_qry_end d ≤ b + qry_span (snd <$> ex).
Proof.
  revert a b. induction ex as [|[r o] ex IH]; intros a b.
  - by intros ?%elem_of_nil.
  - rewrite fmap_cons. cbn [running_rows ref_span qry_span foldr fst snd].
    pose proof (ref_len_nonneg o). pose proof (qry_len_nonneg o).
    pose proof (ref_span_nonneg (snd <$> ex)).
    pose proof (qry_span_nonneg (snd <$> ex)).
    fold (ref_span (snd <$> ex)). fold (qry_span (snd <$> ex)).
    intros [-> | Hd]%elem_of_cons; cbn [op_pos op_end op_qry_pos op_qry_end].
    + lia.
    + apply IH in Hd. lia.
Qed.

(** On a record that fits its sequences every row is in range on both
    axes, on either strand. *)
Lemma oriented_rows_in_range (r : AlignRecord) seq_ref seq_qry d :
  fits r seq_ref seq_qry →
  d ∈ oriented_rows r seq_qry →
  0 ≤ op_pos d ∧ op_pos d ≤ op_end d ∧ op_end d ≤ Z.of_nat (length seq_ref)
  ∧ 0 ≤ op_qry_pos d ∧ op_qry_pos d ≤ op_qry_end d
  ∧ op_qry_end d ≤ Z.of_nat (length seq_qry).
Proof.
  intros (Hp & Hr & Hq).
  assert (Hal : ∀ a, a ∈ aligned_rows r →
    0 ≤ op_pos a ∧ op_pos a ≤ op_end a ∧ op_end a ≤ Z.of_nat (length seq_ref)
    ∧ 0 ≤ op_qry_pos a ∧ op_qry_pos a ≤ op_qry_end a
    ∧ op_qry_end a ≤ Z.of_nat (length seq_qry)).
  { intros a Ha%running_rows_bounds.
    rewrite <- list_fmap_compose, list_fmap_id in Ha. lia. }
  unfold oriented_rows. destruct (al_is_rev r); [|apply Hal].
  intros (a & -> & Ha)%list_elem_of_fmap. apply Hal in Ha. simpl. lia.
Qed.

Lemma qry_len_I l : qry_len (op.I, l) = Z.pos l.
Proof. unfold qry_len. rewrite decide_True; [done|]. set_solver. Qed.

Lemma ref_len_D l : ref_len (op.D, l) = Z.pos l.
Proof. unfold ref_len. rewrite decide_True; [done|]. set_solver. Qed.

Lemma call_ins_elem is_rev seq_qry df s :
  s ∈ call_ins is_rev seq_qry df ↔
  ∃ d, d ∈ df ∧ op_code d = op.I ∧ s = ins_row is_rev seq_qry d.
Proof.
  unfold call_ins. rewrite list_elem_of_fmap. split.
  - intros (d & -> & [Hc Hd]%list_elem_of_filter). eauto.
  - intros (d & Hd & Hc & ->). exists d. split; [done|].
    by apply list_elem_of_filter.
Qed.

Lemma call_del_elem seq_ref df s :
  s ∈ call_del seq_ref df ↔
  ∃ d, d ∈ df ∧ op_code d = op.D ∧ s = del_row seq_ref d.
Proof.
  unfold call_del. rewrite list_elem_of_fmap. split.
  - intros (d & -> & [Hc Hd]%list_elem_of_filter). eauto.
  - intros (d & Hd & Hc & ->). exists d. split; [done|].
    by apply list_elem_of_filter.
Qed.

Lemma varlen_sum_app vt (l1 l2 : list (Scored InsDelRow)) :
  varlen_sum vt (l1 ++ l2) = varlen_sum vt l1 + varlen_sum vt l2.
Proof.
  induction l1 as [|s l1 IH]; simpl; [done|]. rewrite IH. lia.
Qed.

Lemma varlen_sum_Permutation vt (l1 l2 : list (Scored InsDelRow)) :
  l1 ≡ₚ l2 → varlen_sum vt l1 = varlen_sum vt l2.
Proof. induction 1; simpl; lia. Qed.

Lemma call_ins_varlen is_rev seq_qry df :
  varlen_sum INS (call_ins is_rev seq_qry df) = op_len_sum op.I (frame_ops df)
  ∧ varlen_sum DEL (call_ins is_rev seq_qry df) = 0.
Proof.
  unfold call_ins, frame_ops. induction df as [|d df [IH1 IH2]]; [done|].
  rewrite filter_cons, fmap_cons. cbn [op_len_sum foldr fst snd].
  case_decide.
  - rewrite fmap_cons. simpl. rewrite IH1, IH2. done.
  - rewrite IH1, IH2. done.
Qed.

Lemma call_del_varlen seq_ref df :
  varlen_sum DEL (call_del seq_ref df) = op_len_sum op.D (frame_ops df)
  ∧ varlen_sum INS (call_del seq_ref df) = 0.
Proof.
  unfold call_del, frame_ops. induction df as [|d df [IH1 IH2]]; [done|].
  rewrite filter_cons, fmap_cons. cbn [op_len_sum foldr fst snd].
  case_decide.
  - rewrite fmap_cons. simpl. rewrite IH1, IH2. done.
  - rewrite IH1, IH2. done.
Qed.

Lemma sort_by_Permutation {A K} (R : relation K) `{!RelDecision R}
    (key : A → K) (l : list A) :
  sort_by R key l ≡ₚ l.
Proof. unfold sort_by. apply merge_sort_Permutation. Qed.

(** What the inner loop computes for the record at row [i]. *)
Lemma record_result_Ok (df_align : list AlignRecord) qry_fa seq_ref i r snv insdel :
  df_align !! i = Some r →
  record_result (with_row_index df_align) qry_fa seq_ref (loop_row i r)
    = Ok (snv, insdel) →
  ∃ seq_qry,
    qry_fa (al_qry_id r) = Some seq_qry
    ∧ call_snv (al_is_rev r) seq_ref seq_qry (oriented_rows r seq_qry) = Ok snv
    ∧ insdel ≡ₚ call_ins (al_is_rev r) seq_qry (oriented_rows r seq_qry)
                ++ call_del seq_ref (oriented_rows r seq_qry).
Proof.
  intros Hr. unfold record_result, loop_row.
  intros (seq_qry & Hq%of_option_Ok & Hrest)%rbind_Ok.
  rewrite (record_df_oriented df_align i r seq_qry Hr) in Hrest.
  apply rbind_Ok in Hrest as (snv' & Hsnv & [= <- <-]).
  exists seq_qry. split_and!; [done..|]. apply sort_by_Permutation.
Qed.

(** The loop body returns the world-free result and only extends the log. *)
Lemma process_record_spec (df_align : list (Z * AlignRecord)) qry_fa seq_ref row w :
  (process_record df_align qry_fa seq_ref row w).1
    = record_result df_align qry_fa seq_ref row
  ∧ w_files (process_record df_align qry_fa seq_ref row w).2 = w_files w
  ∧ w_dirs (process_record df_align qry_fa seq_ref row w).2 = w_dirs w.
Proof.
  destruct row as [[[index qry_id] is_rev] pos].
  unfold process_record, record_result, cache_get, bind, emit, lift, ret. simpl.
  destruct (qry_fa qry_id) as [seq_qry|]; simpl; [|done].
  destruct (call_snv _ _ _ _); done.
Qed.
End RecordRows.

(** ** Claims about one record *)
Section RecordClaims.
Context `{ScoreModel, ComplTable, BioSeq, !ParquetWriter}.

(** C1 (amended).  On a reverse-strand record, the SNV row for offset [o] of
    a mismatch run of length [L] with remapped coordinates [(pos, qry_pos)]
    has [pos' = pos + o] and [qry_pos' = qry_pos + o + (L - 2o - 1)], that
    is [qry_pos + (L - o - 1)], with [end' = pos' + 1] and
    [qry_end' = qry_pos' + 1]; every such row is in the SNV frame of the
    record. *)
Theorem snv_reverse_offsets (df_align : list AlignRecord) i r seq_ref seq_qry rows k d o :
  df_align !! i = Some r →
  al_is_rev r = true →
  let df := record_df (with_row_index df_align) (Z.of_nat i)
              (al_is_rev r) (al_pos r) seq_qry in
  call_snv (al_is_rev r) seq_ref seq_qry df = Ok rows →
  df !! k = Some d →
  op_code d = op.X →
  0 ≤ o < Z.pos (op_len d) →
  ∃ s, s ∈ rows
       ∧ snv_row (al_is_rev r) seq_ref seq_qry d o = Ok s
       ∧ snv_pos (srow s) = op_pos d + o
       ∧ snv_qry_pos (srow s) = op_qry_pos d + o + (Z.pos (op_len d) - 2 * o - 1)
       ∧ snv_qry_pos (srow s) = op_qry_pos d + (Z.pos (op_len d) - o - 1)
       ∧ snv_end (srow s) = snv_pos (srow s) + 1
       ∧ snv_qry_end (srow s) = snv_qry_pos (srow s) + 1.
Proof.
  intros Hr Hrev df Hrows Hd Hx Ho.
  assert (Hin : d ∈ df) by eauto using list_elem_of_lookup_2.
  destruct (call_snv_offset _ _ _ _ _ d o Hrows Hin Hx Ho) as (s & Hs & Hrow).
  exists s.
  pose proof (snv_row_fields _ _ _ _ _ _ Hrow) as (Hp & Hq & He & Hqe & _).
  rewrite Hrev in Hq. split_and!; [done|done|done|lia|lia|done|done].
Qed.

(** C2.  On a reverse-strand record the query coordinates of the expansion,
    which start at 0 on the aligned strand, are remapped in one step to
    [qry_pos' = qry_len - qry_end] and [qry_end' = qry_len - qry_pos] with
    [qry_len] the length of the query contig, and the INS, DEL and SNV rows
    of the record carry the remapped coordinates. *)
Theorem reverse_remap (df_align : list AlignRecord) i r qry_fa seq_ref seq_qry
    w snv insdel :
  df_align !! i = Some r →
  al_is_rev r = true →
  qry_fa (al_qry_id r) = Some seq_qry →
  (process_record (with_row_index df_align) qry_fa seq_ref (loop_row i r) w).1
    = Ok (snv, insdel) →
  let qry_len := Z.of_nat (length seq_qry) in
  let expanded :=
    op_rows (explode_ops (with_row_index df_align) (Z.of_nat i)) (al_pos r) in
  let df := record_df (with_row_index df_align) (Z.of_nat i)
              (al_is_rev r) (al_pos r) seq_qry in
  (∀ a, head expanded = Some a → op_qry_pos a = 0 ∧ op_pos a = al_pos r)
  ∧ length df = length expanded
  ∧ ∀ k a, expanded !! k = Some a →
      (∃ d, df !! k = Some d
            ∧ op_qry_pos d = qry_len - op_qry_end a
            ∧ op_qry_end d = qry_len - op_qry_pos a
            ∧ op_pos d = op_pos a ∧ op_end d = op_end a
            ∧ op_code d = op_code a ∧ op_len d = op_len a)
      ∧ (op_code a = op.I →
           ∃ s, s ∈ insdel ∧ sv_vartype (srow s) = INS
                ∧ sv_pos (srow s) = op_pos a
                ∧ sv_qry_pos (srow s) = qry_len - op_qry_end a
                ∧ sv_qry_end (srow s) = qry_len - op_qry_pos a)
      ∧ (op_code a = op.D →
           ∃ s, s ∈ insdel ∧ sv_vartype (srow s) = DEL
                ∧ sv_pos (srow s) = op_pos a
                ∧ sv_qry_pos (srow s) = qry_len - op_qry_end a
                ∧ sv_qry_end (srow s) = qry_len - op_qry_end a + 1)
      ∧ (op_code a = op.X → ∀ o, 0 ≤ o < Z.pos (op_len a) →
           ∃ s, s ∈ snv ∧ snv_pos (srow s) = op_pos a + o
                ∧ snv_qry_pos (srow s)
                  = qry_len - op_qry_end a + (Z.pos (op_len a) - o - 1)).
Proof.
  intros Hr Hrev Hq Hres qry_len expanded df.
  destruct (process_record_spec (with_row_index df_align) qry_fa seq_ref
              (loop_row i r) w) as (Hspec & _).
  rewrite Hspec in Hres. clear Hspec.
  assert (Hdf : df = remap_rev qry_len <$> expanded).
  { subst df expanded qry_len. unfold record_df. by rewrite Hrev. }
  assert (Hexp : expanded = aligned_rows r).
  { subst expanded. rewrite (explode_ops_with_row_index df_align i r Hr).
    apply op_rows_running. }
  unfold record_result, loop_row in Hres. rewrite Hq in Hres. simpl in Hres.
  fold df in Hres.
  apply rbind_Ok in Hres as (snv' & Hsnv & [= <- Hins]).
  split; [|split].
  - intros a Ha. rewrite Hexp in Ha.
    apply running_rows_head in Ha as [-> ->]. done.
  - by rewrite Hdf, length_fmap.
  - intros k a Ha.
    assert (Hd : df !! k = Some (remap_rev qry_len a)).
    { by rewrite Hdf, list_lookup_fmap, Ha. }
    assert (Hin : remap_rev qry_len a ∈ df) by eauto using list_elem_of_lookup_2.
    split_and!.
    + exists (remap_rev qry_len a). split_and!; done.
    + intros Hi. exists (ins_row (al_is_rev r) seq_qry (remap_rev qry_len a)).
      split; [|by simpl].
      rewrite <- Hins. rewrite sort_by_Permutation.
      apply elem_of_app. left. apply call_ins_elem. eauto.
    + intros Hdl. exists (del_row seq_ref (remap_rev qry_len a)).
      split; [|by simpl].
      rewrite <- Hins. rewrite sort_by_Permutation.
      apply elem_of_app. right. apply call_del_elem. eauto.
    + intros Hx o Ho.
      destruct (call_snv_offset _ _ _ _ _ (remap_rev qry_len a) o Hsnv Hin Hx Ho)
        as (s & Hs & Hrow).
      pose proof (snv_row_fields _ _ _ _ _ _ Hrow) as (Hp & Hqp & _).
      rewrite Hrev in Hqp. simpl in Hp, Hqp.
      exists s. split_and!; [done..|]. lia.
Qed.
End RecordClaims.

(** ** Sort orders *)

Lemma lex_le_total {A B} (RA : relation A) (RB : relation B)
    `{!EqDecision A, !Total RA, !Total RB} : Total (lex_le RA RB).
Proof.
  intros [a1 b1] [a2 b2]. unfold lex_le. simpl.
  destruct (decide (a1 = a2)) as [->|Hne].
  - destruct (total RB b1 b2); [left | right]; right; done.
  - destruct (total RA a1 a2); [left | right]; left; split; congruence.
Qed.

Lemma lex_le_trans {A B} (RA : relation A) (RB : relation B)
    `{!PartialOrder RA, !Transitive RB} : Transitive (lex_le RA RB).
Proof.
  intros [a1 b1] [a2 b2] [a3 b3]. unfold lex_le. simpl.
  intros [[H12 Hn12] | [-> H12]] [[H23 Hn23] | [-> H23]].
  - left. split; [by etrans|].
    intros ->. apply Hn12. by apply (anti_symm RA).
  - left. done.
  - left. done.
  - right. split; [done | by etrans].
Qed.

Lemma flip_po {A} (R : relation A) `{!PartialOrder R} : PartialOrder (flip R).
Proof.
  split; [split|].
  - intros x. unfold flip. reflexivity.
  - intros x y z Hxy Hyz. unfold flip in *. by etrans.
  - intros x y Hxy Hyx. unfold flip in *. by apply (anti_symm R).
Qed.

Lemma flip_total {A} (R : relation A) `{!Total R} : Total (flip R).
Proof. intros x y. unfold flip. destruct (total R x y); auto. Qed.

Lemma on_key_total {A K} (R : relation K) (key : A → K) `{!Total R} :
  Total (λ a b, R (key a) (key b)).
Proof. intros a b. apply (total R). Qed.

Lemma on_key_trans {A K} (R : relation K) (key : A → K) `{!Transitive R} :
  Transitive (λ a b, R (key a) (key b)).
Proof. intros a b c. apply (transitivity (R := R)). Qed.

Lemma sort_by_sorted {A K} (R : relation K) `{!RelDecision R}
    `{!Total R, !Transitive R} (key : A → K) (l : list A) :
  StronglySorted (λ a b, R (key a) (key b)) (sort_by R key l).
Proof.
  unfold sort_by.
  apply (@StronglySorted_merge_sort _ _ _ (on_key_trans R key) (on_key_total R key)).
Qed.

Section SortOrders.
Context `{ScoreModel}.

Lemma tail_key_total : Total (lex_le String.le Z.le).
Proof. apply lex_le_total; apply _. Qed.

Lemma tail_key_trans : Transitive (lex_le String.le Z.le).
Proof. apply lex_le_trans; apply _. Qed.

Lemma score_tail_total :
  Total (lex_le (flip score_le) (lex_le String.le Z.le)).
Proof.
  apply lex_le_total; [apply _ | apply flip_total, _ | apply tail_key_total].
Qed.

Lemma score_tail_trans :
  Transitive (lex_le (flip score_le) (lex_le String.le Z.le)).
Proof. apply lex_le_trans; [apply flip_po, _ | apply tail_key_trans]. Qed.

Lemma insdel_sort_le_total : Total insdel_sort_le.
Proof.
  unfold insdel_sort_le.
  apply lex_le_total; [apply _ ..|].
  apply lex_le_total; [apply _ | apply flip_total, _ | apply score_tail_total].
Qed.

Lemma insdel_sort_le_trans : Transitive insdel_sort_le.
Proof.
  unfold insdel_sort_le.
  apply lex_le_trans; [apply _|].
  apply lex_le_trans; [apply flip_po, _ | apply score_tail_trans].
Qed.

Lemma snv_sort_le_total : Total snv_sort_le.
Proof.
  unfold snv_sort_le.
  apply lex_le_total; [apply _ ..|].
  apply lex_le_total; [apply _ ..|].
  apply lex_le_total; [apply _ | apply flip_total, _ | apply score_tail_total].
Qed.

Lemma snv_sort_le_trans : Transitive snv_sort_le.
Proof.
  unfold snv_sort_le.
  apply lex_le_trans; [apply _|].
  apply lex_le_trans; [apply _|].
  apply lex_le_trans; [apply flip_po, _ | apply score_tail_trans].
Qed.
End SortOrders.

(** ** File names *)

Lemma list_ascii_of_string_app a b :
  list_ascii_of_string (a +:+ b)
  = list_ascii_of_string a ++ list_ascii_of_string b.
Proof. induction a as [|c a IH]; [done|]. cbn. by rewrite <- IH. Qed.

Lemma list_ascii_of_string_inj a b :
  list_ascii_of_string a = list_ascii_of_string b → a = b.
Proof.
  intros Hab. rewrite <- (string_of_list_ascii_of_string a).
  rewrite <- (string_of_list_ascii_of_string b). by rewrite Hab.
Qed.

Lemma string_app_assoc a b c : (a +:+ b) +:+ c = a +:+ (b +:+ c).
Proof.
  apply list_ascii_of_string_inj.
  rewrite !list_ascii_of_string_app. by rewrite app_assoc.
Qed.

Lemma string_app_inj_r a b t : a +:+ t = b +:+ t → a = b.
Proof.
  intros Hab. apply list_ascii_of_string_inj.
  apply (f_equal list_ascii_of_string) in Hab.
  rewrite !list_ascii_of_string_app in Hab. by apply app_inv_tail in Hab.
Qed.

Lemma os_path_join_prefix d :
  ∃ P, ∀ x, starts_with_sep x = false → os_path_join d x = P +:+ x.
Proof.
  unfold os_path_join.
  destruct (bool_decide (d = "") || ends_with_sep d).
  - exists d. by intros x ->.
  - exists (d +:+ "/"). intros x ->. by rewrite string_app_assoc.
Qed.

(** Distinct chromosomes and distinct table kinds get distinct files. *)
Lemma temp_file_name_inj d c1 c2 :
  (temp_file_name d "snv" c1 = temp_file_name d "snv" c2 → c1 = c2)
  ∧ (temp_file_name d "insdel" c1 = temp_file_name d "insdel" c2 → c1 = c2)
  ∧ temp_file_name d "snv" c1 ≠ temp_file_name d "insdel" c2.
Proof.
  destruct (os_path_join_prefix d) as (P & HP). unfold temp_file_name.
  rewrite !HP by done. split_and!.
  - intros Heq%(inj (String.app P)). cbv [String.append] in Heq.
    injection Heq as Heq. by apply string_app_inj_r in Heq.
  - intros Heq%(inj (String.app P)). cbv [String.append] in Heq.
    injection Heq as Heq. by apply string_app_inj_r in Heq.
  - intros Heq%(inj (String.app P)). cbv [String.append] in Heq. discriminate.
Qed.

Lemma chrom_paths_disjoint tmp c1 c2 p :
  c1 ≠ c2 → p ∈ chrom_paths tmp c1 → p ∉ chrom_paths tmp c2.
Proof.
  intros Hne. destruct tmp as [d|]; simpl; [|by intros ?%elem_of_nil].
  pose proof (temp_file_name_inj d c1 c2) as (Hs & Hi & Hsi).
  pose proof (temp_file_name_inj d c2 c1) as (_ & _ & Hsi').
  rewrite !elem_of_cons, !elem_of_nil.
  intros [-> | [-> | []]] [Heq | [Heq | []]]; auto.
Qed.

(** ** The loops and the world *)
Section Loops.
Context `{ScoreModel, ComplTable, BioSeq, !ParquetWriter}.

Lemma mapW_pure {A B} (f : A → M B) (g : A → Result B) l w :
  (∀ x w, (f x w).1 = g x
          ∧ w_files (f x w).2 = w_files w ∧ w_dirs (f x w).2 = w_dirs w) →
  (mapW f l w).1 = mapR g l
  ∧ w_files (mapW f l w).2 = w_files w ∧ w_dirs (mapW f l w).2 = w_dirs w.
Proof.
  intros Hf. revert w. induction l as [|x l IH]; intros w; [done|].
  cbn [mapW mapR]. unfold bind.
  destruct (Hf x w) as (Hr & Hfi & Hd).
  destruct (f x w) as [[y|e] w1]; cbn [fst snd] in Hr, Hfi, Hd; rewrite <- Hr;
    cbn [rbind]; [|done].
  destruct (IH w1) as (Hr' & Hfi' & Hd').
  destruct (mapW f l w1) as [[ys|e] w2]; cbn [fst snd] in Hr', Hfi', Hd';
    rewrite <- Hr'; cbn [rbind ret fst snd]; split_and!; congruence.
Qed.

Lemma process_records_spec (df_align : list (Z * AlignRecord)) qry_fa seq_ref rows w :
  (mapW (process_record df_align qry_fa seq_ref) rows w).1
    = mapR (record_result df_align qry_fa seq_ref) rows
  ∧ w_files (mapW (process_record df_align qry_fa seq_ref) rows w).2 = w_files w
  ∧ w_dirs (mapW (process_record df_align qry_fa seq_ref) rows w).2 = w_dirs w.
Proof. apply mapW_pure. intros x w0. apply process_record_spec. Qed.

Lemma bind_inv {A B} (m : M A) (k : A → M B) w r w' :
  bind m k w = (r, w') →
  (∃ a w1, m w = (Ok a, w1) ∧ k a w1 = (r, w'))
  ∨ (∃ e, m w = (Raise e, w') ∧ r = Raise e).
Proof.
  unfold bind. destruct (m w) as [[a|e] w1]; intros Hk.
  - left. eauto.
  - right. injection Hk as <- <-. eauto.
Qed.

Lemma cache_get_inv ev fa name w r w' :
  cache_get ev fa name w = (r, w') →
  r = of_option (KeyError name) (fa name)
  ∧ w_files w' = w_files w ∧ w_dirs w' = w_dirs w.
Proof. unfold cache_get, bind, emit, lift. by intros [= <- <-]. Qed.

Lemma lift_inv {A} (x : Result A) w r w' : lift x w = (r, w') → r = x ∧ w' = w.
Proof. unfold lift. by intros [= <- <-]. Qed.

Lemma write_error_dirs w1 w2 p :
  w_dirs w1 = w_dirs w2 → write_error w1 p = write_error w2 p.
Proof. unfold write_error. by intros ->. Qed.

Lemma spill_error_dirs w1 w2 tmp c :
  w_dirs w1 = w_dirs w2 → spill_error w1 tmp c = spill_error w2 tmp c.
Proof.
  intros Hd. unfold spill_error. destruct tmp as [d|]; [|done].
  cbn [chrom_paths]. simpl. by rewrite !(write_error_dirs w1 w2) by done.
Qed.

(** The batch of the two writes of a chromosome: the directories and the
    other files stay, and the batch succeeds, with both files written,
    exactly when neither write has an error. *)
Lemma collect_all_inv p1 t1 p2 t2 w r w' :
  collect_all [sink_parquet p1 t1; sink_parquet p2 t2] w = (r, w') →
  w_dirs w' = w_dirs w
  ∧ (∀ p, p ≠ p1 → p ≠ p2 → w_files w' !! p = w_files w !! p)
  ∧ match head (omap (write_error w) [p1; p2]) with
    | None => r = Ok () ∧ w_files w' = <[p2 := t2]> (<[p1 := t1]> (w_files w))
    | Some e => r = Raise e
    end.
Proof.
  unfold collect_all, sink_parquet. rewrite !fmap_cons, fmap_nil.
  cbn [fst snd foldl].
  destruct (head (omap (write_error w) [p1; p2])) as [e|];
    intros [= <- <-]; cbn [w_dirs w_files].
  - split; [done|]. split; [|done]. intros p Hp1 Hp2.
    destruct (write_debris p1), (write_debris p2);
      repeat first [ rewrite lookup_insert_ne by congruence
                   | rewrite lookup_delete_ne by congruence ]; done.
  - split; [done|]. split; [|done]. intros p Hp1 Hp2.
    by rewrite !lookup_insert_ne by congruence.
Qed.

(** One turn of the outer loop.  No file other than the two files of the
    chromosome is touched.  When the tables of [chrom_result] cannot be
    computed their error is raised and no file is touched at all; when
    they can, they are returned in memory, or written to the two files
    and returned as scans, unless a write fails. *)
Lemma process_chrom_spec (df_align : list (Z * AlignRecord)) ref_fa qry_fa tmp c w r w' :
  process_chrom df_align ref_fa qry_fa tmp c w = (r, w') →
  w_dirs w' = w_dirs w
  ∧ (∀ p, p ∉ chrom_paths tmp c → w_files w' !! p = w_files w !! p)
  ∧ match chrom_result df_align ref_fa qry_fa c with
    | Raise e => r = Raise e ∧ w_files w' = w_files w
    | Ok part =>
        match spill_error w tmp c with
        | Some e => r = Raise e
        | None =>
            ∃ src, r = Ok src
              ∧ ∀ w2, (∀ p, p ∈ chrom_paths tmp c →
                            w_files w2 !! p = w_files w' !! p) →
                      read_snv w2 src.1 = Ok (srow <$> part.1)
                      ∧ read_insdel w2 src.2 = Ok (srow <$> part.2)
        end
    end.
Proof.
  unfold process_chrom, chrom_result. intros Hout.
  apply bind_inv in Hout as [(seq_ref & w1 & Hget & Hout) | (e & Hget & ->)];
    apply cache_get_inv in Hget as (Hseq & Hf1 & Hd1); rewrite <- Hseq;
    cbn [rbind]; [|by rewrite Hf1].
  pose proof (process_records_spec df_align qry_fa seq_ref
                (chrom_records df_align c) w1) as (Hr & Hf2 & Hd2).
  rewrite <- Hr.
  apply bind_inv in Hout as [(parts & w2 & Hloop & Hout) | (e & Hloop & ->)];
    rewrite Hloop in Hr, Hf2, Hd2 |- *; cbn [fst snd rbind] in Hf2, Hd2 |- *;
    [|split_and!; [congruence | intros; congruence | done | congruence]].
  apply bind_inv in Hout as [(snv_frames & w3 & Hc1 & Hout) | (e & Hc1 & ->)];
    apply lift_inv in Hc1 as [Hc1 ->]; rewrite <- Hc1; cbn [rbind];
    [|split_and!; [congruence | intros; congruence | done | congruence]].
  apply bind_inv in Hout as [(insdel_frames & w4 & Hc2 & Hout) | (e & Hc2 & ->)];
    apply lift_inv in Hc2 as [Hc2 ->]; rewrite <- Hc2; cbn [rbind];
    [|split_and!; [congruence | intros; congruence | done | congruence]].
  destruct tmp as [d|]; cbn [chrom_paths].
  - assert (Hfirst : spill_error w (Some d) c
              = head (omap (write_error w2)
                        [temp_file_name d "snv" c; temp_file_name d "insdel" c])).
    { rewrite (spill_error_dirs w w2) by congruence. done. }
    rewrite Hfirst.
    pose proof (temp_file_name_inj d c c) as (_ & _ & Hne).
    apply bind_inv in Hout as [([] & w5 & Hs & Hout) | (e & Hs & ->)];
      apply collect_all_inv in Hs as (Hd5 & Hf5 & Hs);
      destruct (head (omap (write_error w2) _)) as [e'|]; try done.
    + destruct Hs as [_ Hf6]. unfold ret in Hout. injection Hout as <- <-.
      split_and!; [congruence | |].
      * intros p Hp. rewrite !not_elem_of_cons in Hp. destruct Hp as (? & ? & _).
        rewrite Hf5 by done. congruence.
      * eexists. split; [done|]. intros w7 Hw7.
        cbn [fst snd read_snv read_insdel].
        rewrite !Hw7 by (rewrite !elem_of_cons; auto).
        rewrite Hf6. rewrite lookup_insert_ne by done.
        rewrite !lookup_insert_eq. done.
    + injection Hs as ->. split_and!; [congruence | | done].
      intros p Hp. rewrite !not_elem_of_cons in Hp. destruct Hp as (? & ? & _).
      rewrite Hf5 by done. congruence.
    + by destruct Hs.
  - unfold ret in Hout. injection Hout as <- <-.
    split_and!; [congruence | intros; congruence |].
    eexists. split; [done|]. done.
Qed.
Lemma mapW_cons_inv {A B} (f : A → M B) x l w ys w' :
  mapW f (x :: l) w = (Ok ys, w') →
  ∃ y ys' w1, f x w = (Ok y, w1) ∧ mapW f l w1 = (Ok ys', w') ∧ ys = y :: ys'.
Proof.
  cbn [mapW]. intros Hm.
  apply bind_inv in Hm as [(y & w1 & Hy & Hm) | (e & _ & [=])].
  apply bind_inv in Hm as [(ys' & w2 & Hys & Hm) | (e & _ & [=])].
  unfold ret in Hm. injection Hm as <- <-. eauto 6.
Qed.

(** The outer loop over distinct chromosomes: every returned frame reads
    back, in the final world, as the table of its chromosome. *)
Lemma chrom_loop_spec (df_align : list (Z * AlignRecord)) ref_fa qry_fa tmp
    chroms w srcs w' :
  NoDup chroms →
  mapW (process_chrom df_align ref_fa qry_fa tmp) chroms w = (Ok srcs, w') →
  w_dirs w' = w_dirs w
  ∧ (∀ p, (∀ c, c ∈ chroms → p ∉ chrom_paths tmp c) →
          w_files w' !! p = w_files w !! p)
  ∧ ∃ parts,
      mapR (chrom_result df_align ref_fa qry_fa) chroms = Ok parts
      ∧ Forall2 (λ src part,
                   read_snv w' src.1 = Ok (srow <$> part.1)
                   ∧ read_insdel w' src.2 = Ok (srow <$> part.2))
                srcs parts.
Proof.
  intros Hnd. revert w srcs.
  induction chroms as [|c cs IH]; intros w srcs Hloop.
  - injection Hloop as <- <-. split_and!; [done..|]. exists []. split; [done|constructor].
  - apply NoDup_cons in Hnd as [Hc Hnd].
    apply mapW_cons_inv in Hloop as (src & srcs' & w1 & Hsrc & Hloop & ->).
    apply process_chrom_spec in Hsrc as (Hd1 & Hf1 & Hres).
    destruct (IH Hnd _ _ Hloop) as (Hd2 & Hf2 & parts & Hparts & HF).
    destruct (chrom_result df_align ref_fa qry_fa c) as [part|e] eqn:Hpart;
      [|by destruct Hres].
    destruct (spill_error w tmp c); [done|].
    destruct Hres as (src' & [= <-] & Hread).
    split_and!.
    + congruence.
    + intros p Hp. rewrite Hf2, Hf1; [done|..].
      * apply Hp. left.
      * intros c' Hc'. apply Hp. by right.
    + exists (part :: parts). split.
      * cbn [mapR]. rewrite Hpart, Hparts. done.
      * constructor; [|done]. apply Hread. intros p Hp. apply Hf2.
        intros c' Hc'. apply (chrom_paths_disjoint tmp c c' p); [|done].
        intros ->. done.
Qed.

Lemma check_temp_dir_inv tmp w r w' :
  check_temp_dir tmp w = (r, w') →
  w' = w
  ∧ match tmp with
    | Some d => if bool_decide (d ∈ w_dirs w) then r = Ok ()
                else r = Raise (temp_dir_error d)
    | None => r = Ok ()
    end.
Proof.
  unfold check_temp_dir. destruct tmp as [d|].
  - unfold bind, isdir, ret, raise.
    destruct (bool_decide (d ∈ w_dirs w)); by intros [= <- <-].
  - unfold ret. by intros [= <- <-].
Qed.

Lemma pl_concat_Ok {A} (l l' : list A) : pl_concat l = Ok l' → l' = l.
Proof. destruct l; [done|]. by intros [= <-]. Qed.

Lemma chrom_list_NoDup (df_align : list AlignRecord) : NoDup (chrom_list df_align).
Proof.
  unfold chrom_list. rewrite sort_by_Permutation. apply NoDup_remove_dups.
Qed.

Lemma chrom_list_elem (df_align : list AlignRecord) c :
  c ∈ chrom_list df_align ↔ ∃ r, r ∈ df_align ∧ al_chrom r = c.
Proof.
  unfold chrom_list. rewrite sort_by_Permutation, elem_of_remove_dups.
  rewrite list_elem_of_fmap. split; intros (r & ? & ?); eauto.
Qed.

(** The call as a whole: on success the two returned frames collect, in
    the world the call leaves, to the tables of [chrom_result] taken over
    [chrom_list] in order. *)
Lemma pipeline_tables (df_align : list AlignRecord) ref_fa qry_fa tmp w snv insdel w' :
  variant_tables_snv_insdel df_align ref_fa qry_fa tmp w = (Ok (snv, insdel), w') →
  ∃ parts : list (list (Scored SnvRow) * list (Scored InsDelRow)),
    mapR (chrom_result (with_row_index df_align) ref_fa qry_fa)
         (chrom_list df_align) = Ok parts
    ∧ collect_snv w' snv = Ok (concat (chrom_snv_table <$> parts))
    ∧ collect_insdel w' insdel = Ok (concat (chrom_insdel_table <$> parts)).
Proof.
  unfold variant_tables_snv_insdel. intros Hcall.
  apply bind_inv in Hcall as [([] & w1 & Hchk & Hcall) | (e & _ & [=])].
  apply check_temp_dir_inv in Hchk as [-> _].
  apply bind_inv in Hcall as [(srcs & w2 & Hloop & Hcall) | (e & _ & [=])].
  apply bind_inv in Hcall as [(snv' & w3 & Hc1 & Hcall) | (e & _ & [=])].
  apply lift_inv in Hc1 as [Hc1 ->].
  apply bind_inv in Hcall as [(insdel' & w4 & Hc2 & Hcall) | (e & _ & [=])].
  apply lift_inv in Hc2 as [Hc2 ->].
  unfold ret in Hcall. injection Hcall as <- <- <-.
  symmetry in Hc1, Hc2. apply pl_concat_Ok in Hc1 as ->, Hc2 as ->.
  apply chrom_loop_spec in Hloop as (_ & _ & parts & Hparts & HF);
    [|apply chrom_list_NoDup].
  exists parts. split; [done|].
  unfold collect_snv, collect_insdel.
  assert (mapR (read_snv w2) srcs.*1 = Ok (chrom_snv_table <$> parts)) as ->.
  { apply mapR_Ok_Forall2. apply Forall2_fmap.
    eapply Forall2_impl; [exact HF|]. by intros ? ? [? ?]. }
  assert (mapR (read_insdel w2) srcs.*2 = Ok (chrom_insdel_table <$> parts)) as ->.
  { apply mapR_Ok_Forall2. apply Forall2_fmap.
    eapply Forall2_impl; [exact HF|]. by intros ? ? [? ?]. }
  done.
Qed.
End Loops.

(** ** Where the rows of the returned tables come from *)
Section Provenance.
Context `{ScoreModel, ComplTable, BioSeq, !ParquetWriter}.

Lemma chrom_records_elem (df_align : list AlignRecord) c row :
  row ∈ chrom_records (with_row_index df_align) c ↔
  ∃ i r, df_align !! i = Some r ∧ al_chrom r = c ∧ row = loop_row i r.
Proof.
  unfold chrom_records, with_row_index. rewrite list_elem_of_fmap. split.
  - intros ([j r] & -> & Hin). rewrite sort_by_Permutation in Hin.
    apply list_elem_of_filter in Hin as [Hc Hin].
    apply elem_of_lookup_imap in Hin as (i & r' & [= -> ->] & Hr).
    exists i, r'. done.
  - intros (i & r & Hr & Hc & ->). exists (Z.of_nat i, r). split; [done|].
    rewrite sort_by_Permutation. apply list_elem_of_filter. split; [done|].
    apply elem_of_lookup_imap. eauto.
Qed.

(** A chromosome table is the sort of the frames of its records. *)
Lemma chrom_result_Ok (df_align : list (Z * AlignRecord)) ref_fa qry_fa c part :
  chrom_result df_align ref_fa qry_fa c = Ok part →
  ∃ seq_ref frames,
    ref_fa c = Some seq_ref
    ∧ mapR (record_result df_align qry_fa seq_ref) (chrom_records df_align c)
      = Ok frames
    ∧ part.1 = sort_by snv_sort_le snv_sort_key (concat frames.*1)
    ∧ part.2 = sort_by insdel_sort_le insdel_sort_key (concat frames.*2).
Proof.
  unfold chrom_result.
  intros (seq_ref & Href%of_option_Ok & Hrest)%rbind_Ok.
  apply rbind_Ok in Hrest as (frames & Hframes & Hrest).
  apply rbind_Ok in Hrest as (f1 & ->%pl_concat_Ok & Hrest).
  apply rbind_Ok in Hrest as (f2 & ->%pl_concat_Ok & [= <-]).
  exists seq_ref, frames. done.
Qed.

Lemma chrom_result_frame (df_align : list AlignRecord) ref_fa qry_fa c part :
  chrom_result (with_row_index df_align) ref_fa qry_fa c = Ok part →
  ∃ seq_ref, ref_fa c = Some seq_ref ∧
  (∀ s, s ∈ part.1 →
     ∃ i r seq_qry, df_align !! i = Some r ∧ al_chrom r = c
       ∧ qry_fa (al_qry_id r) = Some seq_qry
       ∧ ∃ snv, call_snv (al_is_rev r) seq_ref seq_qry (oriented_rows r seq_qry)
                = Ok snv ∧ s ∈ snv)
  ∧ (∀ s, s ∈ part.2 →
     ∃ i r seq_qry, df_align !! i = Some r ∧ al_chrom r = c
       ∧ qry_fa (al_qry_id r) = Some seq_qry
       ∧ s ∈ call_ins (al_is_rev r) seq_qry (oriented_rows r seq_qry)
             ++ call_del seq_ref (oriented_rows r seq_qry)).
Proof.
  intros (seq_ref & frames & Href & Hframes & Hp1 & Hp2)%chrom_result_Ok.
  exists seq_ref. split; [done|].
  apply mapR_Ok_Forall2 in Hframes.
  assert (Hframe : ∀ fr, fr ∈ frames →
    ∃ i r seq_qry, df_align !! i = Some r ∧ al_chrom r = c
      ∧ qry_fa (al_qry_id r) = Some seq_qry
      ∧ call_snv (al_is_rev r) seq_ref seq_qry (oriented_rows r seq_qry)
        = Ok fr.1
      ∧ fr.2 ≡ₚ call_ins (al_is_rev r) seq_qry (oriented_rows r seq_qry)
                ++ call_del seq_ref (oriented_rows r seq_qry)).
  { intros [fs fi] (n & Hn)%list_elem_of_lookup.
    destruct (Forall2_lookup_r _ _ _ _ _ Hframes Hn) as (row & Hrow & Hres).
    apply list_elem_of_lookup_2, chrom_records_elem in Hrow
      as (i & r & Hr & Hc & ->).
    apply (record_result_Ok df_align) in Hres as (seq_qry & Hq & Hsnv & Hperm);
      [|done].
    exists i, r, seq_qry. done. }
  split.
  - intros s Hs. rewrite Hp1, sort_by_Permutation in Hs.
    apply elem_of_concat in Hs as (fs & Hfs & Hs).
    apply list_elem_of_fmap in Hfs as (fr & -> & Hfr).
    destruct (Hframe fr Hfr) as (i & r & seq_qry & Hr & Hc & Hq & Hsnv & _).
    exists i, r, seq_qry. eauto 6.
  - intros s Hs. rewrite Hp2, sort_by_Permutation in Hs.
    apply elem_of_concat in Hs as (fi & Hfi & Hs).
    apply list_elem_of_fmap in Hfi as (fr & -> & Hfr).
    destruct (Hframe fr Hfr) as (i & r & seq_qry & Hr & Hc & Hq & _ & Hperm).
    exists i, r, seq_qry. split_and!; [done..|]. by rewrite <- Hperm.
Qed.

(** Every row of the returned SNV table is one offset of one mismatch
    operation of one alignment record. *)
Lemma snv_output_rows (df_align : list AlignRecord) ref_fa qry_fa tmp w
    snv insdel w' table s :
  variant_tables_snv_insdel df_align ref_fa qry_fa tmp w = (Ok (snv, insdel), w') →
  collect_snv w' snv = Ok table →
  s ∈ table →
  ∃ i r seq_ref seq_qry d o sc,
    df_align !! i = Some r
    ∧ ref_fa (al_chrom r) = Some seq_ref
    ∧ qry_fa (al_qry_id r) = Some seq_qry
    ∧ d ∈ oriented_rows r seq_qry ∧ op_code d = op.X
    ∧ 0 ≤ o < Z.pos (op_len d)
    ∧ snv_row (al_is_rev r) seq_ref seq_qry d o = Ok sc
    ∧ s = srow sc.
Proof.
  intros (parts & Hparts & Hsnv & _)%pipeline_tables Hcol Hs.
  rewrite Hsnv in Hcol. injection Hcol as <-.
  apply elem_of_concat in Hs as (t & Ht & Hs).
  apply list_elem_of_fmap in Ht as (part & -> & Hpart).
  apply list_elem_of_lookup in Hpart as (n & Hn).
  apply mapR_Ok_Forall2 in Hparts.
  destruct (Forall2_lookup_r _ _ _ _ _ Hparts Hn) as (c & _ & Hres).
  apply chrom_result_frame in Hres as (seq_ref & Href & Hfr & _).
  unfold chrom_snv_table in Hs. apply list_elem_of_fmap in Hs as (sc & -> & Hsc).
  destruct (Hfr sc Hsc) as (i & r & seq_qry & Hr & Hc & Hq & rows & Hrows & Hin).
  apply (call_snv_elem _ _ _ _ _ sc Hrows) in Hin as (d & o & Hd & Hx & Ho & Hrow).
  exists i, r, seq_ref, seq_qry, d, o, sc. rewrite Hc. done.
Qed.

(** Every row of the returned INS/DEL table is the row of one insertion
    or deletion operation of one alignment record. *)
Lemma insdel_output_rows (df_align : list AlignRecord) ref_fa qry_fa tmp w
    snv insdel w' table s :
  variant_tables_snv_insdel df_align ref_fa qry_fa tmp w = (Ok (snv, insdel), w') →
  collect_insdel w' insdel = Ok table →
  s ∈ table →
  ∃ i r seq_ref seq_qry d,
    df_align !! i = Some r
    ∧ ref_fa (al_chrom r) = Some seq_ref
    ∧ qry_fa (al_qry_id r) = Some seq_qry
    ∧ d ∈ oriented_rows r seq_qry
    ∧ ((op_code d = op.I ∧ s = srow (ins_row (al_is_rev r) seq_qry d))
       ∨ (op_code d = op.D ∧ s = srow (del_row seq_ref d))).
Proof.
  intros (parts & Hparts & _ & Hins)%pipeline_tables Hcol Hs.
  rewrite Hins in Hcol. injection Hcol as <-.
  apply elem_of_concat in Hs as (t & Ht & Hs).
  apply list_elem_of_fmap in Ht as (part & -> & Hpart).
  apply list_elem_of_lookup in Hpart as (n & Hn).
  apply mapR_Ok_Forall2 in Hparts.
  destruct (Forall2_lookup_r _ _ _ _ _ Hparts Hn) as (c & _ & Hres).
  apply chrom_result_frame in Hres as (seq_ref & Href & _ & Hfr).
  unfold chrom_insdel_table in Hs.
  apply list_elem_of_fmap in Hs as (sc & -> & Hsc).
  destruct (Hfr sc Hsc) as (i & r & seq_qry & Hr & Hc & Hq & Hin).
  exists i, r, seq_ref, seq_qry.
  apply elem_of_app in Hin as [Hin | Hin].
  - apply call_ins_elem in Hin as (d & Hd & Hi & ->).
    exists d. rewrite Hc. split_and!; [done..|]. by left.
  - apply call_del_elem in Hin as (d & Hd & Hdl & ->).
    exists d. rewrite Hc. split_and!; [done..|]. by right.
Qed.
End Provenance.

(** ** Claims about the returned tables *)

Lemma StronglySorted_strict {A} (R : relation A) `{!AntiSymm (=) R} (l : list A) :
  StronglySorted R l → NoDup l → StronglySorted (strict R) l.
Proof.
  induction 1 as [|x l Hl IH Hx]; intros Hnd; [constructor|].
  apply NoDup_cons in Hnd as [Hxl Hnd]. constructor; [by apply IH|].
  rewrite Forall_forall in Hx |- *. intros y Hy. split; [by apply Hx|].
  intros Hyx. apply Hxl. by rewrite (anti_symm R x y (Hx y Hy) Hyx).
Qed.

Section TableClaims.
Context `{ScoreModel, ComplTable, BioSeq, !ParquetWriter}.

(** The bases of a row of the returned SNV table, for any pair of
    translation lists: [ref] is the reference base at [pos], and [alt] is
    the query base at [qry_pos], passed through
    [replace(COMPL_TR_FROM, COMPL_TR_TO)] on a reverse record. *)
Lemma snv_table_bases (df_align : list AlignRecord) ref_fa qry_fa tmp w
    snv insdel w' table k s :
  variant_tables_snv_insdel df_align ref_fa qry_fa tmp w = (Ok (snv, insdel), w') →
  collect_snv w' snv = Ok table →
  table !! k = Some s →
  ∃ seq_ref seq_qry rb qb,
    ref_fa (snv_chrom s) = Some seq_ref
    ∧ qry_fa (snv_qry_id s) = Some seq_qry
    ∧ py_getitem seq_ref (snv_pos s) = Some rb
    ∧ snv_ref s = [rb]
    ∧ py_getitem seq_qry (snv_qry_pos s) = Some qb
    ∧ snv_alt s = (if snv_qry_rev s
                   then pl_replace COMPL_TR_FROM COMPL_TR_TO [qb] else [qb])
    ∧ (snv_qry_rev s = true → [qb] ∉ COMPL_TR_FROM → snv_alt s = [qb])
    ∧ (snv_qry_rev s = true → ∀ n t,
         COMPL_TR_FROM !! n = Some [qb] → COMPL_TR_TO !! n = Some t →
         (∀ j, (j < n)%nat → COMPL_TR_FROM !! j ≠ Some [qb]) →
         snv_alt s = t).
Proof.
  intros Hcall Hcol Hs%list_elem_of_lookup_2.
  destruct (snv_output_rows _ _ _ _ _ _ _ _ _ _ Hcall Hcol Hs)
    as (i & r & seq_ref & seq_qry & d & o & sc & Hr & Href & Hq & Hd & Hx & Ho
        & Hrow & ->).
  apply oriented_rows_elem in Hd as (_ & _ & Hrec).
  pose proof (snv_row_fields _ _ _ _ _ _ Hrow)
    as (_ & _ & _ & _ & Hc & Hid & Hrev & _).
  destruct (snv_row_bases _ _ _ _ _ _ Hrow) as (rb & qb & Hrb & Href' & Hqb & Halt).
  rewrite Hrec in Hc, Hid, Hrev.
  exists seq_ref, seq_qry, rb, qb. rewrite Hc, Hid, Hrev.
  split_and!; [done..| |].
  - intros Hrv Hnl. rewrite Halt, Hrv. by apply pl_replace_unlisted.
  - intros Hrv n t Hn Ht Hfirst. rewrite Halt, Hrv.
    by apply (pl_replace_listed _ _ _ n).
Qed.

(** C4.  For every INS row of the returned table, [seq] is the reverse
    complement of the query slice [query[qry_id][qry_pos:qry_end]] when
    [qry_rev] is true and the slice itself otherwise. *)
Theorem ins_seq_strand (df_align : list AlignRecord) ref_fa qry_fa tmp w
    snv insdel w' table k s :
  variant_tables_snv_insdel df_align ref_fa qry_fa tmp w = (Ok (snv, insdel), w') →
  collect_insdel w' insdel = Ok table →
  table !! k = Some s →
  sv_vartype s = INS →
  ∃ seq_qry,
    qry_fa (sv_qry_id s) = Some seq_qry
    ∧ sv_seq s = if sv_qry_rev s
                 then reverse_complement
                        (py_slice seq_qry (sv_qry_pos s) (sv_qry_end s))
                 else py_slice seq_qry (sv_qry_pos s) (sv_qry_end s).
Proof.
  intros Hcall Hcol Hs%list_elem_of_lookup_2 Hvt.
  destruct (insdel_output_rows _ _ _ _ _ _ _ _ _ _ Hcall Hcol Hs)
    as (i & r & seq_ref & seq_qry & d & Hr & Href & Hq & Hd & Hcase).
  apply oriented_rows_elem in Hd as (_ & _ & Hrec).
  destruct Hcase as [[Hi ->] | [Hdl ->]]; [|done].
  exists seq_qry. simpl. rewrite Hrec. split; [done|].
  unfold get_ins_seq. by destruct (al_is_rev r).
Qed.

(** C5 (amended).  Every INS row comes from an I operation and has
    [end = pos + 1], [varlen = op_len] and [varlen = qry_end - qry_pos];
    every DEL row comes from a D operation and has [end - pos = varlen],
    [qry_end = qry_pos + 1] and [seq = reference[pos:end]].  In both
    cases [len(seq) <= varlen], with [len(seq) = varlen] when the slice
    bounds lie inside the sequence it is cut from, and so for every row of
    a record whose operations fit its reference chromosome and query
    contig. *)
Theorem insdel_row_shape (df_align : list AlignRecord) ref_fa qry_fa tmp w
    snv insdel w' table k s :
  variant_tables_snv_insdel df_align ref_fa qry_fa tmp w = (Ok (snv, insdel), w') →
  collect_insdel w' insdel = Ok table →
  table !! k = Some s →
  ∃ i r seq_ref seq_qry d,
    df_align !! i = Some r
    ∧ ref_fa (sv_chrom s) = Some seq_ref
    ∧ qry_fa (sv_qry_id s) = Some seq_qry
    ∧ d ∈ record_df (with_row_index df_align) (Z.of_nat i)
            (al_is_rev r) (al_pos r) seq_qry
    ∧ sv_varlen s = op_len d
    ∧ Z.of_nat (length (sv_seq s)) ≤ Z.pos (sv_varlen s)
    ∧ (fits r seq_ref seq_qry →
       Z.of_nat (length (sv_seq s)) = Z.pos (sv_varlen s))
    ∧ ((sv_vartype s = INS ∧ op_code d = op.I
        ∧ sv_end s = sv_pos s + 1
        ∧ Z.pos (sv_varlen s) = sv_qry_end s - sv_qry_pos s
        ∧ (0 ≤ sv_qry_pos s → sv_qry_end s ≤ Z.of_nat (length seq_qry) →
           Z.of_nat (length (sv_seq s)) = Z.pos (sv_varlen s)))
       ∨ (sv_vartype s = DEL ∧ op_code d = op.D
          ∧ sv_end s - sv_pos s = Z.pos (sv_varlen s)
          ∧ sv_qry_end s = sv_qry_pos s + 1
          ∧ sv_seq s = py_slice seq_ref (sv_pos s) (sv_end s)
          ∧ (0 ≤ sv_pos s → sv_end s ≤ Z.of_nat (length seq_ref) →
             Z.of_nat (length (sv_seq s)) = Z.pos (sv_varlen s)))).
Proof.
  intros Hcall Hcol Hs%list_elem_of_lookup_2.
  destruct (insdel_output_rows _ _ _ _ _ _ _ _ _ _ Hcall Hcol Hs)
    as (i & r & seq_ref & seq_qry & d & Hr & Href & Hq & Hd & Hcase).
  pose proof (oriented_rows_elem _ _ _ Hd) as (Hre & Hqe & Hrec).
  pose proof (λ Hfit, oriented_rows_in_range r seq_ref seq_qry d Hfit Hd) as Hin.
  exists i, r, seq_ref, seq_qry, d.
  rewrite (record_df_oriented df_align i r seq_qry Hr).
  destruct Hcase as [[Hi ->] | [Hdl ->]]; cbn [srow ins_row del_row sv_chrom
    sv_qry_id sv_varlen sv_seq sv_vartype sv_end sv_pos sv_qry_end sv_qry_pos];
    rewrite Hrec.
  - rewrite Hi, qry_len_I in Hqe.
    assert (Hlen : ∀ is_rev,
      Z.of_nat (length (get_ins_seq is_rev seq_qry (op_qry_pos d) (op_qry_end d)))
      = Z.of_nat (length (py_slice seq_qry (op_qry_pos d) (op_qry_end d)))).
    { intros []; unfold get_ins_seq; by rewrite ?reverse_complement_length. }
    rewrite Hlen. split_and!; [done..| | |].
    + etrans; [apply py_slice_length_le|]; lia.
    + intros Hfit%Hin. rewrite py_slice_length_in; lia.
    + left. split_and!; [done..|lia|]. intros Hlo Hhi.
      rewrite py_slice_length_in; lia.
  - rewrite Hdl, ref_len_D in Hre. split_and!; [done..| | |].
    + etrans; [apply py_slice_length_le|]; lia.
    + intros Hfit%Hin. rewrite py_slice_length_in; lia.
    + right. split_and!; [done..|lia|done|done|]. intros Hlo Hhi.
      rewrite py_slice_length_in; lia.
Qed.

(** C6.  For every alignment record the inner loop processes, the number
    of SNV rows of the record equals the sum of the lengths of its X
    operations, the INS rows of the record have a total [varlen] equal to
    the sum of its I lengths, and its DEL rows a total [varlen] equal to
    the sum of its D lengths. *)
Theorem coverage_completeness (df_align : list AlignRecord) qry_fa seq_ref i r w
    snv insdel :
  df_align !! i = Some r →
  (process_record (with_row_index df_align) qry_fa seq_ref (loop_row i r) w).1
    = Ok (snv, insdel) →
  Z.of_nat (length snv) = op_len_sum op.X (al_align_ops r)
  ∧ varlen_sum INS insdel = op_len_sum op.I (al_align_ops r)
  ∧ varlen_sum DEL insdel = op_len_sum op.D (al_align_ops r).
Proof.
  intros Hr Hres.
  destruct (process_record_spec (with_row_index df_align) qry_fa seq_ref
              (loop_row i r) w) as (Hspec & _).
  rewrite Hspec in Hres.
  apply (record_result_Ok df_align) in Hres as (seq_qry & Hq & Hsnv & Hperm);
    [|done].
  split_and!.
  - rewrite (call_snv_length _ _ _ _ _ Hsnv). by rewrite oriented_rows_ops.
  - rewrite (varlen_sum_Permutation _ _ _ Hperm), varlen_sum_app.
    destruct (call_ins_varlen (al_is_rev r) seq_qry (oriented_rows r seq_qry))
      as [-> _].
    destruct (call_del_varlen seq_ref (oriented_rows r seq_qry)) as [_ ->].
    rewrite oriented_rows_ops. lia.
  - rewrite (varlen_sum_Permutation _ _ _ Hperm), varlen_sum_app.
    destruct (call_ins_varlen (al_is_rev r) seq_qry (oriented_rows r seq_qry))
      as [_ ->].
    destruct (call_del_varlen seq_ref (oriented_rows r seq_qry)) as [-> _].
    rewrite oriented_rows_ops. lia.
Qed.
End TableClaims.

(** [replace] with the lists of the specification is its complement. *)
Lemma spec_table_complement (b : ascii) :
  pl_replace COMPL_TR_FROM COMPL_TR_TO [b] = [spec_complement b].
Proof.
  destruct b as [[] [] [] [] [] [] [] []]; vm_compute; reflexivity.
Qed.

Section ComplementClaims.
Context `{ScoreModel, BioSeq, !ParquetWriter}.

(** C3.  With the translation lists of the specification, for every row
    of the returned SNV table [ref] is the reference base at [pos] and
    [alt] comes from the query base at [qry_pos], both in original-contig
    coordinates: on a forward record [alt] is that base, and on a reverse
    record it is the complement of that base under A<->T, C<->G, N->N,
    with every other base mapped to N. *)
Theorem snv_bases (df_align : list AlignRecord) ref_fa qry_fa tmp w
    snv insdel w' table k s :
  variant_tables_snv_insdel (H0 := spec_compl_table) df_align ref_fa qry_fa
    tmp w = (Ok (snv, insdel), w') →
  collect_snv w' snv = Ok table →
  table !! k = Some s →
  ∃ seq_ref seq_qry rb qb,
    ref_fa (snv_chrom s) = Some seq_ref
    ∧ qry_fa (snv_qry_id s) = Some seq_qry
    ∧ py_getitem seq_ref (snv_pos s) = Some rb
    ∧ snv_ref s = [rb]
    ∧ py_getitem seq_qry (snv_qry_pos s) = Some qb
    ∧ (snv_qry_rev s = false → snv_alt s = [qb])
    ∧ (snv_qry_rev s = true →
       snv_alt s = [spec_complement qb]
       ∧ (qb = "A"%char → snv_alt s = base "T")
       ∧ (qb = "T"%char → snv_alt s = base "A")
       ∧ (qb = "C"%char → snv_alt s = base "G")
       ∧ (qb = "G"%char → snv_alt s = base "C")
       ∧ (qb = "N"%char → snv_alt s = base "N")
       ∧ (qb ∉ ["A"; "T"; "C"; "G"]%char → snv_alt s = base "N")).
Proof.
  intros Hcall Hcol Hs.
  destruct (snv_table_bases _ _ _ _ _ _ _ _ _ _ _ Hcall Hcol Hs)
    as (seq_ref & seq_qry & rb & qb & Href & Hq & Hrb & Hr & Hqb & Halt & _).
  exists seq_ref, seq_qry, rb, qb. split_and!; try done.
  - intros Hrev. by rewrite Halt, Hrev.
  - intros Hrev. rewrite Halt, Hrev, spec_table_complement.
    split_and!; [done|by intros ->..|].
    intros Hqb'. rewrite !not_elem_of_cons in Hqb'.
    destruct Hqb' as (? & ? & ? & ? & _). unfold spec_complement.
    by rewrite !decide_False by done.
Qed.
End ComplementClaims.

Section OrderClaims.
Context `{ScoreModel, ComplTable, BioSeq, !ParquetWriter}.

Lemma chrom_result_chrom (df_align : list AlignRecord) ref_fa qry_fa c part :
  chrom_result (with_row_index df_align) ref_fa qry_fa c = Ok part →
  (∀ s, s ∈ part.1 → snv_chrom (srow s) = c)
  ∧ (∀ s, s ∈ part.2 → sv_chrom (srow s) = c).
Proof.
  intros (seq_ref & Href & Hsnv & Hins)%chrom_result_frame. split.
  - intros s Hs.
    destruct (Hsnv s Hs) as (i & r & seq_qry & Hr & Hc & Hq & rows & Hrows & Hin).
    apply (call_snv_elem _ _ _ _ _ s Hrows) in Hin as (d & o & Hd & _ & _ & Hrow).
    apply oriented_rows_elem in Hd as (_ & _ & Hrec).
    pose proof (snv_row_fields _ _ _ _ _ _ Hrow) as (_ & _ & _ & _ & Hch & _).
    by rewrite Hch, Hrec.
  - intros s Hs.
    destruct (Hins s Hs) as (i & r & seq_qry & Hr & Hc & Hq & Hin).
    apply elem_of_app in Hin as [Hin | Hin].
    + apply call_ins_elem in Hin as (d & Hd & _ & ->).
      apply oriented_rows_elem in Hd as (_ & _ & Hrec). simpl. by rewrite Hrec.
    + apply call_del_elem in Hin as (d & Hd & _ & ->).
      apply oriented_rows_elem in Hd as (_ & _ & Hrec). simpl. by rewrite Hrec.
Qed.

(** C7.  The returned SNV table is the concatenation of one partition per
    chromosome, the chromosomes taken once each in ascending order; the
    rows of a partition all lie on its chromosome and are ordered by
    [pos] ascending, [alt] ascending, [var_score] descending, alignment
    score descending, [qry_id] ascending, [qry_pos] ascending.  The
    INS/DEL table is built the same way, ordered by the same key without
    [alt]. *)
Theorem sorted_partitions (df_align : list AlignRecord) ref_fa qry_fa tmp w
    snv insdel w' :
  variant_tables_snv_insdel df_align ref_fa qry_fa tmp w = (Ok (snv, insdel), w') →
  ∃ parts : list (list (Scored SnvRow) * list (Scored InsDelRow)),
    collect_snv w' snv = Ok (concat (chrom_snv_table <$> parts))
    ∧ collect_insdel w' insdel = Ok (concat (chrom_insdel_table <$> parts))
    ∧ StronglySorted (strict String.le) (chrom_list df_align)
    ∧ (∀ c, c ∈ chrom_list df_align ↔ ∃ r, r ∈ df_align ∧ al_chrom r = c)
    ∧ Forall2 (λ c part,
         chrom_result (with_row_index df_align) ref_fa qry_fa c = Ok part
         ∧ (∀ s, s ∈ chrom_snv_table part → snv_chrom s = c)
         ∧ (∀ s, s ∈ chrom_insdel_table part → sv_chrom s = c)
         ∧ StronglySorted
             (λ a b, snv_sort_le (snv_sort_key a) (snv_sort_key b)) part.1
         ∧ StronglySorted
             (λ a b, insdel_sort_le (insdel_sort_key a) (insdel_sort_key b))
             part.2)
        (chrom_list df_align) parts.
Proof.
  intros (parts & Hparts & Hsnv & Hins)%pipeline_tables.
  exists parts. split_and!; [done..| | |].
  - apply StronglySorted_strict; [apply _ | | apply chrom_list_NoDup].
    unfold chrom_list.
    apply (sort_by_sorted String.le id (remove_dups (al_chrom <$> df_align))).
  - apply chrom_list_elem.
  - apply mapR_Ok_Forall2 in Hparts.
    eapply Forall2_impl; [exact Hparts|]. intros c part Hres. cbn beta in Hres.
    destruct (chrom_result_chrom _ _ _ _ _ Hres) as (Hc1 & Hc2).
    apply chrom_result_Ok in Hres as Hsort.
    destruct Hsort as (seq_ref & frames & _ & _ & Hp1 & Hp2).
    split_and!.
    + done.
    + intros s (sc & -> & Hsc)%list_elem_of_fmap. by apply Hc1.
    + intros s (sc & -> & Hsc)%list_elem_of_fmap. by apply Hc2.
    + rewrite Hp1.
      apply (@sort_by_sorted _ _ snv_sort_le _ snv_sort_le_total snv_sort_le_trans).
    + rewrite Hp2.
      apply (@sort_by_sorted _ _ insdel_sort_le _ insdel_sort_le_total
               insdel_sort_le_trans).
Qed.

(** C9.  When a temporary directory name is given and it is not a
    directory of the world, the call raises its [ValueError] and leaves
    the world as it was: no sequence has been fetched, no chromosome
    processed and no file written. *)
Theorem missing_temp_dir (df_align : list AlignRecord) ref_fa qry_fa d w :
  d ∉ w_dirs w →
  variant_tables_snv_insdel df_align ref_fa qry_fa (Some d) w
  = (Raise (temp_dir_error d), w).
Proof.
  intros Hd. unfold variant_tables_snv_insdel, check_temp_dir, bind, isdir.
  rewrite bool_decide_false by done. done.
Qed.
End OrderClaims.

(** ** Inversion candidates and inversion table *)
Section InversionClaims.
Context `{ScoreModel, InvCollaborators}.




Lemma join_filter_unmatched (df_align : list AlignRecord) (r : InvRow) :
  (∀ a, a ∈ df_align → Some (al_align_index a) ≠ head (inv_align_source r)) →
  join_filter df_align r = [with_id_source r None].
Proof.
  intros Hno. unfold join_filter.
  destruct (filter _ df_align) as [|a l] eqn:Hf; [done|].
  assert (a ∈ filter (λ a, Some (al_align_index a) = head (inv_align_source r))
                df_align) as Ha by (rewrite Hf; left).
  apply list_elem_of_filter in Ha as [Heq Ha]. by destruct (Hno a Ha).
Qed.

Lemma join_filter_rows (df_align : list AlignRecord) (r : InvRow) v :
  v ∈ join_filter df_align r →
  ivr_row v = r
  ∧ (ivr_filter v = None ∧
       (∀ a, a ∈ df_align → Some (al_align_index a) ≠ head (inv_align_source r))
     ∨ ∃ a, a ∈ df_align ∧ Some (al_align_index a) = head (inv_align_source r)
            ∧ ivr_filter v = Some (al_filter a)).
Proof.
  unfold join_filter.
  destruct (filter _ df_align) as [|a l] eqn:Hf.
  - intros ->%list_elem_of_singleton. split; [done|]. left. split; [done|].
    intros a Ha Heq.
    assert (a ∈ filter (λ a, Some (al_align_index a) = head (inv_align_source r))
                  df_align) as Hin by by apply list_elem_of_filter.
    rewrite Hf in Hin. by apply elem_of_nil in Hin.
  - rewrite <- Hf. intros (a' & -> & [Heq Ha']%list_elem_of_filter)%list_elem_of_fmap.
    split; [done|]. right. eauto.
Qed.

(** C10.  In [variant_tables_inv] the [filter] of every accepted
    inversion row comes from a left join of the first element of its
    [align_source] with [align_index]: the row is returned once per
    matching alignment record with that record's [filter], and when no
    record matches it is returned once with a null [filter]; no accepted
    row is dropped. *)
Theorem inv_filter_left_join (df_align : list AlignRecord) (df_flag : list FlagRow)
    ref_fa qry_fa (df_ref_fai df_qry_fai : Fai) (pav_params : option PavParams) :
  let accepted :=
    accepted_inv_rows df_align df_flag ref_fa qry_fa df_ref_fai df_qry_fai
      (default default_params pav_params) in
  let df_inv :=
    variant_tables_inv df_align df_flag ref_fa qry_fa df_ref_fai df_qry_fai
      pav_params in
  (∀ v, v ∈ df_inv →
     ivr_row v ∈ accepted
     ∧ (ivr_filter v = None
          ∧ (∀ a, a ∈ df_align →
                  Some (al_align_index a) ≠ head (inv_align_source (ivr_row v)))
        ∨ ∃ a, a ∈ df_align
               ∧ Some (al_align_index a) = head (inv_align_source (ivr_row v))
               ∧ ivr_filter v = Some (al_filter a)))
  ∧ (∀ r, r ∈ accepted →
       (∀ a, a ∈ df_align → Some (al_align_index a) ≠ head (inv_align_source r)) →
       with_id_source r None ∈ df_inv
       ∧ ∀ v, v ∈ df_inv → ivr_row v = r → v = with_id_source r None)
  ∧ (∀ r, r ∈ accepted → ∃ v, v ∈ df_inv ∧ ivr_row v = r)
  ∧ (length accepted ≤ length df_inv)%nat.
Proof.
  intros accepted df_inv. subst df_inv. unfold variant_tables_inv.
  fold accepted. split_and!.
  - intros v (r & Hv & Hr)%list_elem_of_bind.
    apply join_filter_rows in Hv as [-> Hcase]. done.
  - intros r Hr Hno. split.
    + apply list_elem_of_bind. exists r. split; [|done].
      rewrite join_filter_unmatched by done. left.
    + intros v (r' & Hv & Hr')%list_elem_of_bind Hrow.
      apply join_filter_rows in Hv as Hrows. destruct Hrows as [Heq _].
      rewrite Hrow in Heq. subst r'.
      rewrite join_filter_unmatched in Hv by done.
      by apply list_elem_of_singleton in Hv.
  - intros r Hr.
    assert (∃ v, v ∈ join_filter df_align r) as (v & Hv).
    { unfold join_filter. destruct (filter _ df_align) as [|a l].
      - eexists. left.
      - eexists. rewrite fmap_cons. left. }
    exists v. split.
    + apply list_elem_of_bind. eauto.
    + by apply join_filter_rows in Hv as [-> _].
  - induction accepted as [|r l IH]; [simpl; lia|].
    rewrite bind_cons, length_app. cbn [length].
    assert (1 ≤ length (join_filter df_align r))%nat.
    { unfold join_filter. destruct (filter _ df_align) as [|a l'].
      - simpl. lia.
      - rewrite length_fmap. simpl. lia. }
    lia.
Qed.
End InversionClaims.

(** ** The claims on the example inputs *)

Lemma snv_reverse_offsets_witness :
  ∃ s, snv_row true demo_ref demo_qry demo_x_row 1 = Ok s
       ∧ snv_pos (srow s) = 4 + 1
       ∧ snv_qry_pos (srow s) = 3 + (3 - 1 - 1)
       ∧ snv_end (srow s) = snv_pos (srow s) + 1
       ∧ snv_qry_end (srow s) = snv_qry_pos (srow s) + 1.
Proof.
  destruct (snv_reverse_offsets [demo_rev] 0%nat demo_rev demo_ref demo_qry
              demo_rev_snv 1%nat demo_x_row 1)
    as (s & _ & Hrow & Hp & _ & Hq & He & Hqe).
  - reflexivity.
  - reflexivity.
  - vm_compute. reflexivity.
  - vm_compute. reflexivity.
  - reflexivity.
  - simpl. lia.
  - exists s. split_and!; [exact Hrow | exact Hp | exact Hq | exact He | exact Hqe].
Defined.

(** C1 as the specification states it fails on [demo_rev]: at offset 1 of
    its 3-base mismatch run, whose remapped [qry_pos] is 3, the emitted row
    has [qry_pos = 4], not [3 + (3 - 2 * 1 - 1) = 3]. *)
Lemma snv_reverse_offset_counterexample :
  ∃ d s,
    record_df (with_row_index [demo_rev]) 0 (al_is_rev demo_rev)
      (al_pos demo_rev) demo_qry !! 1%nat = Some d
    ∧ al_is_rev demo_rev = true
    ∧ op_code d = op.X
    ∧ snv_row (al_is_rev demo_rev) demo_ref demo_qry d 1 = Ok s
    ∧ snv_qry_pos (srow s) = 4
    ∧ snv_qry_pos (srow s) ≠ op_qry_pos d + (Z.pos (op_len d) - 2 * 1 - 1).
Proof.
  eexists. eexists. split_and!.
  - vm_compute. reflexivity.
  - reflexivity.
  - reflexivity.
  - vm_compute. reflexivity.
  - reflexivity.
  - vm_compute. discriminate.
Qed.

Lemma reverse_remap_witness :
  let qry_len := Z.of_nat (length demo_qry) in
  let expanded :=
    op_rows (explode_ops (with_row_index [demo_rev]) (Z.of_nat 0))
      (al_pos demo_rev) in
  (∀ a, head expanded = Some a → op_qry_pos a = 0 ∧ op_pos a = al_pos demo_rev)
  ∧ ∀ k a, expanded !! k = Some a →
      ∃ d, record_df (with_row_index [demo_rev]) (Z.of_nat 0)
             (al_is_rev demo_rev) (al_pos demo_rev) demo_qry !! k = Some d
           ∧ op_qry_pos d = qry_len - op_qry_end a
           ∧ op_qry_end d = qry_len - op_qry_pos a.
Proof.
  intros qry_len expanded.
  destruct (reverse_remap [demo_rev] 0%nat demo_rev demo_qry_fa demo_ref demo_qry
              empty_world demo_rev_record.1 demo_rev_record.2)
    as (Hseed & _ & Hrows).
  - reflexivity.
  - reflexivity.
  - vm_compute. reflexivity.
  - vm_compute. reflexivity.
  - split; [exact Hseed|]. intros k a Ha.
    destruct (Hrows k a Ha) as ((d & Hd & Hqp & Hqe & _) & _).
    exists d. split_and!; [exact Hd | exact Hqp | exact Hqe].
Defined.

Lemma snv_bases_witness :
  ∃ s, demo_ambiguous_table !! 0%nat = Some s ∧
  ∃ seq_ref seq_qry rb qb,
    demo_ref_fa (snv_chrom s) = Some seq_ref
    ∧ demo_qry_fa (snv_qry_id s) = Some seq_qry
    ∧ py_getitem seq_ref (snv_pos s) = Some rb
    ∧ snv_ref s = [rb]
    ∧ py_getitem seq_qry (snv_qry_pos s) = Some qb
    ∧ (snv_qry_rev s = false → snv_alt s = [qb])
    ∧ (snv_qry_rev s = true →
       snv_alt s = [spec_complement qb]
       ∧ (qb = "A"%char → snv_alt s = base "T")
       ∧ (qb = "T"%char → snv_alt s = base "A")
       ∧ (qb = "C"%char → snv_alt s = base "G")
       ∧ (qb = "G"%char → snv_alt s = base "C")
       ∧ (qb = "N"%char → snv_alt s = base "N")
       ∧ (qb ∉ ["A"; "T"; "C"; "G"]%char → snv_alt s = base "N")).
Proof.
  eexists. split; [vm_compute; reflexivity|].
  eapply (snv_bases [demo_ambiguous] demo_ref_fa demo_qry_fa None empty_world
            demo_ambiguous_frames.1 demo_ambiguous_frames.2
            demo_ambiguous_run.2 demo_ambiguous_table 0%nat).
  - vm_compute. reflexivity.
  - vm_compute. reflexivity.
  - vm_compute. reflexivity.
Defined.

Lemma ins_seq_strand_witness :
  ∃ s, demo_insdel_table !! 4%nat = Some s ∧ sv_vartype s = INS ∧
  ∃ seq_qry,
    demo_qry_fa (sv_qry_id s) = Some seq_qry
    ∧ sv_seq s = if sv_qry_rev s
                 then reverse_complement
                        (py_slice seq_qry (sv_qry_pos s) (sv_qry_end s))
                 else py_slice seq_qry (sv_qry_pos s) (sv_qry_end s).
Proof.
  eexists. split; [vm_compute; reflexivity|]. split; [reflexivity|].
  eapply (ins_seq_strand [demo_rev; demo_fwd; demo_chr0] demo_ref_fa2 demo_qry_fa
            (Some "tmp") demo_world demo_frames.1 demo_frames.2 demo_run.2
            demo_insdel_table 4%nat).
  - vm_compute. reflexivity.
  - vm_compute. reflexivity.
  - vm_compute. reflexivity.
  - reflexivity.
Defined.

Lemma insdel_row_shape_witness :
  ∃ s, demo_insdel_table !! 2%nat = Some s ∧
  ∃ i r seq_ref seq_qry d,
    [demo_rev; demo_fwd; demo_chr0] !! i = Some r
    ∧ demo_ref_fa2 (sv_chrom s) = Some seq_ref
    ∧ demo_qry_fa (sv_qry_id s) = Some seq_qry
    ∧ d ∈ record_df (with_row_index [demo_rev; demo_fwd; demo_chr0]) (Z.of_nat i)
            (al_is_rev r) (al_pos r) seq_qry
    ∧ sv_varlen s = op_len d
    ∧ Z.of_nat (length (sv_seq s)) ≤ Z.pos (sv_varlen s)
    ∧ (fits r seq_ref seq_qry →
       Z.of_nat (length (sv_seq s)) = Z.pos (sv_varlen s))
    ∧ ((sv_vartype s = INS ∧ op_code d = op.I
        ∧ sv_end s = sv_pos s + 1
        ∧ Z.pos (sv_varlen s) = sv_qry_end s - sv_qry_pos s
        ∧ (0 ≤ sv_qry_pos s → sv_qry_end s ≤ Z.of_nat (length seq_qry) →
           Z.of_nat (length (sv_seq s)) = Z.pos (sv_varlen s)))
       ∨ (sv_vartype s = DEL ∧ op_code d = op.D
          ∧ sv_end s - sv_pos s = Z.pos (sv_varlen s)
          ∧ sv_qry_end s = sv_qry_pos s + 1
          ∧ sv_seq s = py_slice seq_ref (sv_pos s) (sv_end s)
          ∧ (0 ≤ sv_pos s → sv_end s ≤ Z.of_nat (length seq_ref) →
             Z.of_nat (length (sv_seq s)) = Z.pos (sv_varlen s)))).
Proof.
  eexists. split; [vm_compute; reflexivity|].
  eapply (insdel_row_shape [demo_rev; demo_fwd; demo_chr0] demo_ref_fa2 demo_qry_fa
            (Some "tmp") demo_world demo_frames.1 demo_frames.2 demo_run.2
            demo_insdel_table 2%nat).
  - vm_compute. reflexivity.
  - vm_compute. reflexivity.
  - vm_compute. reflexivity.
Defined.

(** C5 as the specification states it fails on [demo_overrun]: its 4-base
    insertion lies over a 2-base query, the slice [query[0:4]] is cut to
    the 2 bases there are, and the INS row has [varlen = 4] with a [seq]
    of length 2. *)
Lemma ins_length_counterexample :
  ∃ snv insdel w' s,
    variant_tables_snv_insdel [demo_overrun] demo_ref_fa demo_qry_fa None
      empty_world = (Ok (snv, insdel), w')
    ∧ collect_insdel w' insdel = Ok [s]
    ∧ sv_vartype s = INS
    ∧ sv_varlen s = 4%positive
    ∧ sv_qry_end s - sv_qry_pos s = 4
    ∧ sv_seq s = base "AC"
    ∧ Z.of_nat (length (sv_seq s)) ≠ Z.pos (sv_varlen s).
Proof.
  do 4 eexists. split_and!.
  - vm_compute. reflexivity.
  - vm_compute. reflexivity.
  - reflexivity.
  - reflexivity.
  - reflexivity.
  - reflexivity.
  - vm_compute. discriminate.
Qed.

Lemma coverage_completeness_witness :
  Z.of_nat (length demo_rev_record.1) = 3
  ∧ varlen_sum INS demo_rev_record.2 = 2
  ∧ varlen_sum DEL demo_rev_record.2 = 1.
Proof.
  apply (coverage_completeness [demo_rev] demo_qry_fa demo_ref 0%nat demo_rev
           empty_world demo_rev_record.1 demo_rev_record.2).
  - reflexivity.
  - vm_compute. reflexivity.
Defined.

Lemma sorted_partitions_witness :
  ∃ parts : list (list (Scored SnvRow) * list (Scored InsDelRow)),
    collect_snv demo_run.2 demo_frames.1 = Ok (concat (chrom_snv_table <$> parts))
    ∧ collect_insdel demo_run.2 demo_frames.2
      = Ok (concat (chrom_insdel_table <$> parts))
    ∧ StronglySorted (strict String.le)
        (chrom_list [demo_rev; demo_fwd; demo_chr0])
    ∧ Forall2 (λ c part,
         (∀ s, s ∈ chrom_snv_table part → snv_chrom s = c)
         ∧ (∀ s, s ∈ chrom_insdel_table part → sv_chrom s = c)
         ∧ StronglySorted
             (λ a b, snv_sort_le (snv_sort_key a) (snv_sort_key b)) part.1
         ∧ StronglySorted
             (λ a b, insdel_sort_le (insdel_sort_key a) (insdel_sort_key b))
             part.2)
        (chrom_list [demo_rev; demo_fwd; demo_chr0]) parts.
Proof.
  destruct (sorted_partitions [demo_rev; demo_fwd; demo_chr0] demo_ref_fa2
              demo_qry_fa (Some "tmp") demo_world demo_frames.1 demo_frames.2
              demo_run.2)
    as (parts & Hsnv & Hins & Hchrom & _ & Hparts).
  - vm_compute. reflexivity.
  - exists parts. split_and!; [exact Hsnv | exact Hins | exact Hchrom |].
    eapply Forall2_impl; [exact Hparts|].
    intros c part (_ & Hc1 & Hc2 & Hs1 & Hs2). split_and!; assumption.
Defined.

Lemma missing_temp_dir_witness :
  variant_tables_snv_insdel [demo_rev; demo_fwd; demo_chr0] demo_ref_fa2
    demo_qry_fa (Some "tmp") empty_world
  = (Raise (temp_dir_error "tmp"), empty_world).
Proof.
  apply (missing_temp_dir [demo_rev; demo_fwd; demo_chr0] demo_ref_fa2
           demo_qry_fa "tmp" empty_world).
  simpl. apply not_elem_of_empty.
Defined.



(** The flag filter on the example candidates: the SNV-only region goes,
    the region flagged with SNV and indel clusters stays. *)
Example flag_filter_demo :
  fl_pos <$> variant_flag_inv [] [] [] [] None = [500; 950; 2000].
Proof. reflexivity. Qed.

(** The inversion table on the flagged example regions: the short region
    is rejected, the region on alignment 7 takes that record's filter, and
    the region whose source matches no record is kept with a null filter. *)
Example inv_filter_left_join_demo :
  (λ v, (inv_pos (ivr_row v), ivr_filter v)) <$>
    variant_tables_inv [demo_rev; demo_fwd]
      (variant_flag_inv [] [] [] [] None) demo_ref_fa demo_qry_fa [] [] None
  = [(500, Some "PASS"); (2000, None)].
Proof. reflexivity. Qed.

(** [replace] with the lists of the specification: the four bases and N
    are translated, any other base becomes N. *)
Example spec_table_replace :
  pl_replace COMPL_TR_FROM COMPL_TR_TO <$>
    [base "A"; base "T"; base "C"; base "G"; base "N"; base "R"; base "a"]
  = [base "T"; base "A"; base "G"; base "C"; base "N"; base "N"; base "N"].
Proof. vm_compute. reflexivity. Qed.

(** Scenario 1 of section 8: one SNV at [pos = 110], [A] to [G]. *)
Example scenario_single_mismatch :
  scenario_snv [(op.EQ, 10%positive); (op.X, 1%positive); (op.EQ, 9%positive)]
    scenario1_qry
  = [(110, 111, base "A", base "G", 10, 11, false)].
Proof. vm_compute. reflexivity. Qed.

(** Scenario 2 of section 8: three SNVs at 110, 111 and 112 with the
    alternate bases T, G and A. *)
Example scenario_multi_base :
  scenario_snv [(op.EQ, 10%positive); (op.X, 3%positive); (op.EQ, 7%positive)]
    scenario2_qry
  = [(110, 111, base "A", base "T", 10, 11, false);
     (111, 112, base "C", base "G", 11, 12, false);
     (112, 113, base "G", base "A", 12, 13, false)].
Proof. vm_compute. reflexivity. Qed.

(** ** The call returns on inputs that fit *)
Section Returns.
Context `{ScoreModel, ComplTable, BioSeq, !ParquetWriter}.

Lemma mapR_returns {A B} (f : A → Result B) l :
  (∀ x, x ∈ l → ∃ y, f x = Ok y) → ∃ k, mapR f l = Ok k.
Proof.
  induction l as [|x l IH]; intros Hf; [by exists []|].
  destruct (Hf x) as (y & Hy); [left|].
  destruct IH as (k & Hk); [intros z Hz; apply Hf; by right|].
  exists (y :: k). cbn [mapR]. by rewrite Hy, Hk.
Qed.

Lemma py_getitem_in_range {A} (s : list A) i :
  0 ≤ i < Z.of_nat (length s) → ∃ c, py_getitem s i = Some c.
Proof.
  intros Hi. unfold py_getitem. rewrite bool_decide_true by done.
  apply lookup_lt_is_Some. lia.
Qed.

Lemma ref_len_X l : ref_len (op.X, l) = Z.pos l.
Proof. unfold ref_len. rewrite decide_True; [done|]. set_solver. Qed.

Lemma qry_len_X l : qry_len (op.X, l) = Z.pos l.
Proof. unfold qry_len. rewrite decide_True; [done|]. set_solver. Qed.

Lemma call_snv_returns (r : AlignRecord) seq_ref seq_qry :
  fits r seq_ref seq_qry →
  ∃ rows,
    call_snv (al_is_rev r) seq_ref seq_qry (oriented_rows r seq_qry) = Ok rows.
Proof.
  intros Hfit. unfold call_snv.
  destruct (mapR_returns (snv_rows_of (al_is_rev r) seq_ref seq_qry)
              (filter (λ d, op_code d = op.X) (oriented_rows r seq_qry)))
    as (parts & Hparts); [|rewrite Hparts; by eexists].
  intros d [Hx Hd]%list_elem_of_filter. unfold snv_rows_of.
  apply mapR_returns. intros o [Ho1 Ho2]%elem_of_seqZ.
  pose proof (oriented_rows_elem _ _ _ Hd) as (Hre & Hqe & _).
  rewrite Hx in Hre, Hqe. rewrite ref_len_X in Hre. rewrite qry_len_X in Hqe.
  pose proof (oriented_rows_in_range _ _ _ _ Hfit Hd) as Hrange.
  unfold snv_row.
  destruct (py_getitem_in_range seq_ref (op_pos d + o)) as (rb & ->); [lia|].
  destruct (py_getitem_in_range seq_qry
              (op_qry_pos d + o
               + (Z.pos (op_len d) - 2 * o - 1) * (if al_is_rev r then 1 else 0)))
    as (qb & ->); [destruct (al_is_rev r); lia|].
  simpl. by eexists.
Qed.

Lemma record_result_returns (df_align : list AlignRecord) qry_fa seq_ref seq_qry i r :
  df_align !! i = Some r →
  qry_fa (al_qry_id r) = Some seq_qry →
  fits r seq_ref seq_qry →
  ∃ res,
    record_result (with_row_index df_align) qry_fa seq_ref (loop_row i r) = Ok res.
Proof.
  intros Hr Hq Hfit. unfold record_result, loop_row. rewrite Hq. cbn [of_option rbind].
  rewrite (record_df_oriented df_align i r seq_qry Hr).
  destruct (call_snv_returns r seq_ref seq_qry Hfit) as (rows & ->).
  simpl. by eexists.
Qed.

Lemma chrom_result_returns (df_align : list AlignRecord) ref_fa qry_fa c :
  well_formed df_align ref_fa qry_fa →
  c ∈ chrom_list df_align →
  ∃ part, chrom_result (with_row_index df_align) ref_fa qry_fa c = Ok part.
Proof.
  intros Hwf (r0 & Hr0 & Hc0)%chrom_list_elem. unfold chrom_result.
  destruct (Hwf r0 Hr0) as (seq_ref & _ & Href & _ & _). rewrite Hc0 in Href.
  rewrite Href. cbn [of_option rbind].
  destruct (mapR_returns (record_result (with_row_index df_align) qry_fa seq_ref)
              (chrom_records (with_row_index df_align) c)) as (frames & Hframes).
  { intros row (i & r & Hr & Hc & ->)%chrom_records_elem.
    destruct (Hwf r) as (seq_ref' & seq_qry & Href' & Hq & Hfit);
      [by eapply list_elem_of_lookup_2|].
    rewrite Hc, Href in Href'. injection Href' as <-.
    by eapply record_result_returns. }
  rewrite Hframes. cbn [rbind].
  assert (frames ≠ []) as Hne.
  { apply mapR_length in Hframes. intros ->.
    apply list_elem_of_lookup in Hr0 as (i & Hi).
    assert (loop_row i r0 ∈ chrom_records (with_row_index df_align) c) as Hin
      by (apply chrom_records_elem; eauto).
    destruct (chrom_records (with_row_index df_align) c); [|done].
    by apply elem_of_nil in Hin. }
  destruct frames as [|fr frames]; [done|]. simpl. by eexists.
Qed.

Lemma chrom_loop_returns (df_align : list (Z * AlignRecord)) ref_fa qry_fa tmp chroms w :
  (∀ c, c ∈ chroms → ∃ part, chrom_result df_align ref_fa qry_fa c = Ok part) →
  (∀ c, c ∈ chroms → spill_error w tmp c = None) →
  ∃ srcs w',
    mapW (process_chrom df_align ref_fa qry_fa tmp) chroms w = (Ok srcs, w')
    ∧ length srcs = length chroms.
Proof.
  revert w. induction chroms as [|c cs IH]; intros w Hall Hwr.
  - exists [], w. done.
  - destruct (Hall c) as (part & Hpart); [left|].
    destruct (process_chrom df_align ref_fa qry_fa tmp c w) as [res w1] eqn:Hc.
    pose proof (process_chrom_spec _ _ _ _ _ _ _ _ Hc) as (Hd1 & _ & Hres).
    rewrite Hpart, Hwr in Hres by left. destruct Hres as (src & -> & _).
    destruct (IH w1) as (srcs & w' & Hloop & Hlen);
      [intros c' Hc'; apply Hall; by right
      |intros c' Hc'; rewrite (spill_error_dirs w1 w) by done; apply Hwr;
       by right|].
    exists (src :: srcs), w'. split; [|simpl; by rewrite Hlen].
    cbn [mapW]. unfold bind at 1. rewrite Hc.
    unfold bind at 1. rewrite Hloop. done.
Qed.

(** On a non-empty alignment table whose records fit their sequences,
    with no temporary directory or an existing one in which the spill
    files can be written, the call returns its two frames and both
    collect. *)
Lemma pipeline_returns (df_align : list AlignRecord) ref_fa qry_fa tmp w :
  df_align ≠ [] →
  (∀ d, tmp = Some d → d ∈ w_dirs w) →
  (∀ c, c ∈ chrom_list df_align → spill_error w tmp c = None) →
  well_formed df_align ref_fa qry_fa →
  ∃ snv insdel w' t_snv t_insdel,
    variant_tables_snv_insdel df_align ref_fa qry_fa tmp w = (Ok (snv, insdel), w')
    ∧ collect_snv w' snv = Ok t_snv
    ∧ collect_insdel w' insdel = Ok t_insdel.
Proof.
  intros Hne Htmp Hwr Hwf.
  destruct (chrom_loop_returns (with_row_index df_align) ref_fa qry_fa tmp
              (chrom_list df_align) w) as (srcs & w' & Hloop & Hlen);
    [|done|].
  { intros c Hc. by apply chrom_result_returns. }
  assert (srcs ≠ []) as Hsrcs.
  { intros ->. destruct df_align as [|r df_align]; [done|].
    assert (al_chrom r ∈ chrom_list (r :: df_align)) as Hin.
    { apply chrom_list_elem. exists r. split; [left|done]. }
    destruct (chrom_list (r :: df_align)); [by apply elem_of_nil in Hin|done]. }
  assert (Hcall : variant_tables_snv_insdel df_align ref_fa qry_fa tmp w
                  = (Ok (srcs.*1, srcs.*2), w')).
  { unfold variant_tables_snv_insdel. unfold bind at 1.
    assert (check_temp_dir tmp w = (Ok (), w)) as ->.
    { unfold check_temp_dir. destruct tmp as [d|]; [|done].
      unfold bind, isdir. rewrite bool_decide_true by auto. done. }
    unfold bind at 1. rewrite Hloop.
    destruct srcs as [|src srcs]; [done|]. done. }
  destruct (pipeline_tables _ _ _ _ _ _ _ _ Hcall) as (parts & _ & Hs & Hi).
  eauto 10.
Qed.
End Returns.

(** * Further properties *)

(** ** Rows and the records they come from *)
Section RowProvenance.
Context `{ScoreModel, ComplTable, BioSeq, !ParquetWriter}.

Lemma snv_row_meta is_rev seq_ref seq_qry d o s :
  snv_row is_rev seq_ref seq_qry d o = Ok s →
  snv_vartype (srow s) = SNV
  ∧ snv_call_source (srow s) = CALL_SOURCE
  ∧ snv_filter (srow s) = al_filter (op_rec d)
  ∧ snv_align_source (srow s) = [al_align_index (op_rec d)].
Proof.
  unfold snv_row. intros Hs.
  apply rbind_Ok in Hs as (rb & _ & Hs).
  apply rbind_Ok in Hs as (qb & _ & [= <-]). simpl. tauto.
Qed.

Lemma oriented_rows_ref_bounds (r : AlignRecord) seq_qry d :
  d ∈ oriented_rows r seq_qry →
  al_pos r ≤ op_pos d ∧ op_pos d ≤ op_end d
  ∧ op_end d ≤ al_pos r + ref_span (al_align_ops r).
Proof.
  assert (Hal : ∀ a, a ∈ aligned_rows r →
    al_pos r ≤ op_pos a ∧ op_pos a ≤ op_end a
    ∧ op_end a ≤ al_pos r + ref_span (al_align_ops r)).
  { intros a Ha%running_rows_bounds.
    rewrite <- list_fmap_compose, list_fmap_id in Ha. lia. }
  unfold oriented_rows. destruct (al_is_rev r); [|apply Hal].
  intros (a & -> & Ha)%list_elem_of_fmap. apply Hal in Ha. simpl. lia.
Qed.

(** X1.  On a forward record the SNV row for offset [o] of a mismatch run
    at [(pos, qry_pos)] has [pos' = pos + o] and [qry_pos' = qry_pos + o],
    with [end' = pos' + 1] and [qry_end' = qry_pos' + 1]; every offset of
    the run has its row. *)
Theorem snv_forward_offsets (df_align : list AlignRecord) i r seq_ref seq_qry rows k d o :
  df_align !! i = Some r →
  al_is_rev r = false →
  let df := record_df (with_row_index df_align) (Z.of_nat i)
              (al_is_rev r) (al_pos r) seq_qry in
  call_snv (al_is_rev r) seq_ref seq_qry df = Ok rows →
  df !! k = Some d →
  op_code d = op.X →
  0 ≤ o < Z.pos (op_len d) →
  ∃ s, s ∈ rows
       ∧ snv_row (al_is_rev r) seq_ref seq_qry d o = Ok s
       ∧ snv_pos (srow s) = op_pos d + o
       ∧ snv_qry_pos (srow s) = op_qry_pos d + o
       ∧ snv_end (srow s) = snv_pos (srow s) + 1
       ∧ snv_qry_end (srow s) = snv_qry_pos (srow s) + 1.
Proof.
  intros Hr Hfwd df Hrows Hd Hx Ho.
  assert (Hin : d ∈ df) by eauto using list_elem_of_lookup_2.
  destruct (call_snv_offset _ _ _ _ _ d o Hrows Hin Hx Ho) as (s & Hs & Hrow).
  exists s.
  pose proof (snv_row_fields _ _ _ _ _ _ Hrow) as (Hp & Hq & He & Hqe & _).
  rewrite Hfwd in Hq. split_and!; [done|done|done|lia|done|done].
Qed.

(** X2.  Every row of the returned SNV table belongs to one alignment
    record: it carries that record's [chrom], [qry_id], [filter] and
    strand, names the record's [align_index] as its only source, is a
    one-base SNV scored [mismatch(1)] with call source INTRA, and its
    position lies inside the reference span of the record. *)
Theorem snv_row_record (df_align : list AlignRecord) ref_fa qry_fa tmp w
    snv insdel w' table k s :
  variant_tables_snv_insdel df_align ref_fa qry_fa tmp w = (Ok (snv, insdel), w') →
  collect_snv w' snv = Ok table →
  table !! k = Some s →
  ∃ i r,
    df_align !! i = Some r
    ∧ snv_chrom s = al_chrom r
    ∧ snv_qry_id s = al_qry_id r
    ∧ snv_filter s = al_filter r
    ∧ snv_qry_rev s = al_is_rev r
    ∧ snv_align_source s = [al_align_index r]
    ∧ snv_vartype s = SNV
    ∧ snv_call_source s = "INTRA"
    ∧ snv_var_score s = mismatch 1
    ∧ snv_end s = snv_pos s + 1
    ∧ snv_qry_end s = snv_qry_pos s + 1
    ∧ al_pos r ≤ snv_pos s
    ∧ snv_pos s < al_pos r + ref_span (al_align_ops r).
Proof.
  intros Hcall Hcol Hs%list_elem_of_lookup_2.
  destruct (snv_output_rows _ _ _ _ _ _ _ _ _ _ Hcall Hcol Hs)
    as (i & r & seq_ref & seq_qry & d & o & sc & Hr & Href & Hq & Hd & Hx & Ho
        & Hrow & ->).
  pose proof (oriented_rows_elem _ _ _ Hd) as (Hre & _ & Hrec).
  pose proof (oriented_rows_ref_bounds _ _ _ Hd) as (Hlo & _ & Hhi).
  pose proof (snv_row_fields _ _ _ _ _ _ Hrow)
    as (Hp & _ & He & Hqe & Hc & Hid & Hrev & Hsc & _).
  pose proof (snv_row_meta _ _ _ _ _ _ Hrow) as (Hvt & Hcs & Hfi & Has).
  rewrite Hx in Hre. rewrite ref_len_X in Hre.
  rewrite Hrec in Hc, Hid, Hrev, Hfi, Has.
  exists i, r. split_and!; [done..|lia|lia].
Qed.

(** X3.  Every row of the returned INS/DEL table belongs to one
    alignment record: it carries that record's [chrom], [qry_id],
    [filter] and strand, names the record's [align_index] as its only
    source, is an INS or a DEL scored [gap(varlen)] with call source
    INTRA, spans at least one base on both axes ([pos < end],
    [qry_pos < qry_end]) and starts inside the closed reference span of
    the record. *)
Theorem insdel_row_record (df_align : list AlignRecord) ref_fa qry_fa tmp w
    snv insdel w' table k s :
  variant_tables_snv_insdel df_align ref_fa qry_fa tmp w = (Ok (snv, insdel), w') →
  collect_insdel w' insdel = Ok table →
  table !! k = Some s →
  ∃ i r,
    df_align !! i = Some r
    ∧ sv_chrom s = al_chrom r
    ∧ sv_qry_id s = al_qry_id r
    ∧ sv_filter s = al_filter r
    ∧ sv_qry_rev s = al_is_rev r
    ∧ sv_align_source s = [al_align_index r]
    ∧ (sv_vartype s = INS ∨ sv_vartype s = DEL)
    ∧ sv_call_source s = "INTRA"
    ∧ sv_var_score s = gap (sv_varlen s)
    ∧ sv_pos s < sv_end s
    ∧ sv_qry_pos s < sv_qry_end s
    ∧ al_pos r ≤ sv_pos s
    ∧ sv_pos s ≤ al_pos r + ref_span (al_align_ops r)
    ∧ (sv_vartype s = DEL → sv_end s ≤ al_pos r + ref_span (al_align_ops r)).
Proof.
  intros Hcall Hcol Hs%list_elem_of_lookup_2.
  destruct (insdel_output_rows _ _ _ _ _ _ _ _ _ _ Hcall Hcol Hs)
    as (i & r & seq_ref & seq_qry & d & Hr & Href & Hq & Hd & Hcase).
  pose proof (oriented_rows_elem _ _ _ Hd) as (Hre & Hqe & Hrec).
  pose proof (oriented_rows_ref_bounds _ _ _ Hd) as (Hlo & Hmid & Hhi).
  exists i, r.
  destruct Hcase as [[Hi ->] | [Hdl ->]]; cbn [srow ins_row del_row sv_chrom
    sv_qry_id sv_varlen sv_seq sv_vartype sv_end sv_pos sv_qry_end sv_qry_pos
    sv_filter sv_qry_rev sv_align_source sv_call_source sv_var_score];
    rewrite Hrec.
  - rewrite Hi, qry_len_I in Hqe.
    split_and!; [done|done|done|done|done|done|by left|done|done|lia|lia|done|lia|done].
  - rewrite Hdl, ref_len_D in Hre.
    split_and!; [done|done|done|done|done|done|by right|done|done|lia|lia|done|lia|].
    intros _. lia.
Qed.
End RowProvenance.

(** ** The expansion tiles the record *)
Section Tiling.
Context `{ScoreModel}.

Lemma running_rows_length (ex : list (AlignRecord * (op.code * positive))) a b :
  length (running_rows ex a b) = length ex.
Proof.
  revert a b. induction ex as [|x ex IH]; intros a b; [done|].
  simpl. by rewrite IH.
Qed.

Lemma running_rows_last (ex : list (AlignRecord * (op.code * positive))) a b d :
  last (running_rows ex a b) = Some d →
  op_end d = a + ref_span (snd <$> ex)
  ∧ op_qry_end d = b + qry_span (snd <$> ex).
Proof.
  revert a b. induction ex as [|x ex IH]; intros a b; [done|].
  rewrite fmap_cons. cbn [running_rows ref_span qry_span foldr].
  fold (ref_span (snd <$> ex)). fold (qry_span (snd <$> ex)).
  destruct ex as [|y ex].
  - cbn. intros [= <-]. cbn. lia.
  - remember (y :: ex) as ex' eqn:Hex'. rewrite last_cons.
    destruct (last (running_rows ex' (a + ref_len x.2) (b + qry_len x.2)))
      as [d'|] eqn:Hl.
    + intros [= <-]. apply IH in Hl. lia.
    + apply last_None in Hl. subst ex'. done.
Qed.

Lemma running_rows_lookup (ex : list (AlignRecord * (op.code * positive))) a b k d :
  running_rows ex a b !! k = Some d →
  ex !! k = Some (op_rec d, (op_code d, op_len d))
  ∧ op_end d = op_pos d + ref_len (op_code d, op_len d)
  ∧ op_qry_end d = op_qry_pos d + qry_len (op_code d, op_len d).
Proof.
  revert a b k. induction ex as [|[r [c l]] ex IH]; intros a b k; [done|].
  destruct k as [|k]; simpl.
  - intros [= <-]. done.
  - apply IH.
Qed.

(** X4.  The expansion of a record has one row per operation, in order.
    It starts at the record's [pos] on the reference and at 0 on the
    query, each row begins where the row before it ends on both axes,
    each row advances by its length on the axes its code advances, and
    the last row ends at [pos] plus the total reference advance and at
    the total query advance. *)
Theorem expansion_tiles (df_align : list AlignRecord) i r :
  df_align !! i = Some r →
  let expanded :=
    op_rows (explode_ops (with_row_index df_align) (Z.of_nat i)) (al_pos r) in
  length expanded = length (al_align_ops r)
  ∧ (∀ a, head expanded = Some a → op_pos a = al_pos r ∧ op_qry_pos a = 0)
  ∧ (∀ k a b, expanded !! k = Some a → expanded !! S k = Some b →
       op_pos b = op_end a ∧ op_qry_pos b = op_qry_end a)
  ∧ (∀ a, last expanded = Some a →
       op_end a = al_pos r + ref_span (al_align_ops r)
       ∧ op_qry_end a = qry_span (al_align_ops r))
  ∧ (∀ k a, expanded !! k = Some a →
       al_align_ops r !! k = Some (op_code a, op_len a)
       ∧ op_rec a = r
       ∧ op_end a = op_pos a + ref_len (op_code a, op_len a)
       ∧ op_qry_end a = op_qry_pos a + qry_len (op_code a, op_len a)).
Proof.
  intros Hr expanded.
  assert (Hexp : expanded = aligned_rows r).
  { subst expanded. rewrite (explode_ops_with_row_index df_align i r Hr).
    apply op_rows_running. }
  rewrite Hexp. unfold aligned_rows. split_and!.
  - by rewrite running_rows_length, length_fmap.
  - intros a Ha. by apply running_rows_head in Ha.
  - intros k a b Ha Hb. by eapply running_rows_chain.
  - intros a Ha%running_rows_last.
    rewrite <- list_fmap_compose, list_fmap_id in Ha. lia.
  - intros k a Ha. apply running_rows_lookup in Ha as (Hk & He & Hqe).
    rewrite list_lookup_fmap in Hk.
    destruct (al_align_ops r !! k) as [o|]; [|done].
    injection Hk as -> ->. done.
Qed.

(** X5.  On a reverse record the frame tiles the query contig from its
    end downwards: the first row ends at the contig length, each row ends
    where the row before it begins, every row keeps its width
    [qry_end - qry_pos], and the last row begins at the contig length minus the
    total query advance; the reference axis is not touched. *)
Theorem reverse_tiles (df_align : list AlignRecord) i r seq_qry :
  df_align !! i = Some r →
  al_is_rev r = true →
  let qlen := Z.of_nat (length seq_qry) in
  let df := record_df (with_row_index df_align) (Z.of_nat i)
              (al_is_rev r) (al_pos r) seq_qry in
  (∀ a, head df = Some a → op_qry_end a = qlen ∧ op_pos a = al_pos r)
  ∧ (∀ k a b, df !! k = Some a → df !! S k = Some b →
       op_qry_end b = op_qry_pos a ∧ op_pos b = op_end a)
  ∧ (∀ a, last df = Some a →
       op_qry_pos a = qlen - qry_span (al_align_ops r)
       ∧ op_end a = al_pos r + ref_span (al_align_ops r))
  ∧ (∀ k a, df !! k = Some a →
       op_qry_end a - op_qry_pos a = qry_len (op_code a, op_len a)
       ∧ op_qry_pos a ≤ op_qry_end a).
Proof.
  intros Hr Hrev qlen df.
  assert (Hdf : df = remap_rev qlen <$> aligned_rows r).
  { subst df. rewrite (record_df_oriented df_align i r seq_qry Hr).
    unfold oriented_rows. by rewrite Hrev. }
  rewrite Hdf. unfold aligned_rows. split_and!.
  - intros a Ha. rewrite head_lookup, list_lookup_fmap in Ha.
    destruct (running_rows _ _ _ !! 0%nat) as [a0|] eqn:H0; [|done].
    injection Ha as <-. rewrite <- head_lookup in H0.
    apply running_rows_head in H0 as [Hp Hq]. simpl. split; [lia|done].
  - intros k a b Ha Hb. rewrite list_lookup_fmap in Ha, Hb.
    destruct (running_rows _ _ _ !! k) as [a0|] eqn:Hk; [|done].
    destruct (running_rows _ _ _ !! S k) as [b0|] eqn:HSk; [|done].
    injection Ha as <-. injection Hb as <-.
    destruct (running_rows_chain _ _ _ _ _ _ Hk HSk) as [Hp Hq].
    simpl. split; [lia|done].
  - intros a Ha. rewrite fmap_last in Ha.
    destruct (last (running_rows _ _ _)) as [a0|] eqn:Hl; [|done].
    injection Ha as <-. apply running_rows_last in Hl.
    rewrite <- list_fmap_compose, list_fmap_id in Hl. simpl. lia.
  - intros k a Ha. rewrite list_lookup_fmap in Ha.
    destruct (running_rows _ _ _ !! k) as [a0|] eqn:Hk; [|done].
    injection Ha as <-. apply running_rows_lookup in Hk as (_ & _ & Hqe).
    pose proof (qry_len_nonneg (op_code a0, op_len a0)). simpl. lia.
Qed.
End Tiling.

(** ** Files, spill and failures *)
Section SpillFiles.
Context `{ScoreModel, ComplTable, BioSeq, !ParquetWriter}.

Lemma mapW_cons_any {A B} (f : A → M B) x l w r w' :
  mapW f (x :: l) w = (r, w') →
  (∃ e, f x w = (Raise e, w') ∧ r = Raise e)
  ∨ (∃ y w1 r', f x w = (Ok y, w1) ∧ mapW f l w1 = (r', w')
       ∧ r = match r' with Ok ys => Ok (y :: ys) | Raise e => Raise e end).
Proof.
  cbn [mapW]. intros Hm.
  apply bind_inv in Hm as [(y & w1 & Hy & Hm) | (e & Hy & ->)]; [|left; eauto].
  right. exists y, w1.
  apply bind_inv in Hm as [(ys & w2 & Hys & Hm) | (e & Hys & ->)].
  - unfold ret in Hm. injection Hm as <- <-. exists (Ok ys). done.
  - exists (Raise e). done.
Qed.

(** Whatever its outcome, the outer loop leaves the directories and every
    file that is not a spill file of one of its chromosomes alone. *)
Lemma chrom_loop_frame (df_align : list (Z * AlignRecord)) ref_fa qry_fa tmp chroms w r w' :
  mapW (process_chrom df_align ref_fa qry_fa tmp) chroms w = (r, w') →
  w_dirs w' = w_dirs w
  ∧ ∀ p, (∀ c, c ∈ chroms → p ∉ chrom_paths tmp c) →
         w_files w' !! p = w_files w !! p.
Proof.
  revert w r. induction chroms as [|c cs IH]; intros w r Hloop.
  - injection Hloop as <- <-. done.
  - apply mapW_cons_any in Hloop
      as [(e & Hc & ->) | (y & w1 & r' & Hc & Hloop & ->)];
      apply process_chrom_spec in Hc as (Hd & Hf & _).
    + split; [done|]. intros p Hp. apply Hf, Hp. left.
    + destruct (IH _ _ Hloop) as (Hd' & Hf'). split; [congruence|].
      intros p Hp. rewrite Hf', Hf; [done|..].
      * apply Hp. left.
      * intros c' Hc'. apply Hp. by right.
Qed.

(** A successful turn of the outer loop, by mode. *)
Lemma process_chrom_Ok (df_align : list (Z * AlignRecord)) ref_fa qry_fa tmp c w src w' :
  process_chrom df_align ref_fa qry_fa tmp c w = (Ok src, w') →
  ∃ part,
    chrom_result df_align ref_fa qry_fa c = Ok part
    ∧ spill_error w tmp c = None
    ∧ match tmp with
      | Some d =>
          src = (ScanParquet (temp_file_name d "snv" c),
                 ScanParquet (temp_file_name d "insdel" c))
          ∧ w_files w' !! temp_file_name d "snv" c
            = Some (SnvFile (chrom_snv_table part))
          ∧ w_files w' !! temp_file_name d "insdel" c
            = Some (InsDelFile (chrom_insdel_table part))
      | None =>
          src = (InMemory (chrom_snv_table part),
                 InMemory (chrom_insdel_table part))
      end.
Proof.
  intros Hout.
  pose proof (process_chrom_spec _ _ _ _ _ _ _ _ Hout) as (_ & _ & Hres).
  destruct (chrom_result df_align ref_fa qry_fa c) as [part|e] eqn:Hpart;
    [|by destruct Hres].
  destruct (spill_error w tmp c) as [e|]; [done|].
  exists part. split; [done|]. split; [done|].
  destruct Hres as (src' & [= <-] & Hread).
  unfold process_chrom in Hout.
  apply bind_inv in Hout as [(seq_ref & w1 & _ & Hout) | (e & _ & [=])].
  apply bind_inv in Hout as [(parts & w2 & _ & Hout) | (e & _ & [=])].
  apply bind_inv in Hout as [(f1 & w3 & _ & Hout) | (e & _ & [=])].
  apply bind_inv in Hout as [(f2 & w4 & _ & Hout) | (e & _ & [=])].
  destruct tmp as [d|].
  - apply bind_inv in Hout as [([] & w5 & _ & Hout) | (e & _ & [=])].
    unfold ret in Hout. injection Hout as <- <-.
    destruct (Hread w5) as (Hr1 & Hr2); [done|].
    cbn [fst snd read_snv read_insdel] in Hr1, Hr2.
    split; [done|]. split.
    + destruct (w_files w5 !! temp_file_name d "snv" c) as [[rows|rows]|];
        try done. by injection Hr1 as ->.
    + destruct (w_files w5 !! temp_file_name d "insdel" c) as [[rows|rows]|];
        try done. by injection Hr2 as ->.
  - unfold ret in Hout. injection Hout as <- <-.
    destruct (Hread w4) as (Hr1 & Hr2); [done|].
    cbn [fst snd read_snv read_insdel] in Hr1, Hr2.
    injection Hr1 as Hr1. injection Hr2 as Hr2.
    unfold chrom_snv_table, chrom_insdel_table. by rewrite Hr1, Hr2.
Qed.

(** A failing turn of the outer loop: the tables of the chromosome could
    not be computed, and then no file was touched, or they could and a
    write of the batch failed. *)
Lemma process_chrom_Raise (df_align : list (Z * AlignRecord)) ref_fa qry_fa tmp c w e w' :
  process_chrom df_align ref_fa qry_fa tmp c w = (Raise e, w') →
  (chrom_result df_align ref_fa qry_fa c = Raise e ∧ w_files w' = w_files w)
  ∨ ((∃ part, chrom_result df_align ref_fa qry_fa c = Ok part)
     ∧ spill_error w tmp c = Some e).
Proof.
  intros Hpc.
  pose proof (process_chrom_spec _ _ _ _ _ _ _ _ Hpc) as (_ & _ & Hres).
  destruct (chrom_result df_align ref_fa qry_fa c) as [part|e'].
  - right. split; [by eexists|].
    destruct (spill_error w tmp c) as [e'|].
    + by injection Hres as ->.
    + by destruct Hres as (? & ? & _).
  - left. destruct Hres as [[= ->] ?]. done.
Qed.


(** The frames the outer loop returns, by mode, and the files it leaves. *)
Lemma chrom_loop_srcs (df_align : list (Z * AlignRecord)) ref_fa qry_fa tmp
    chroms w srcs w' :
  NoDup chroms →
  mapW (process_chrom df_align ref_fa qry_fa tmp) chroms w = (Ok srcs, w') →
  ∃ parts,
    mapR (chrom_result df_align ref_fa qry_fa) chroms = Ok parts
    ∧ match tmp with
      | Some d =>
          srcs = (λ c, (ScanParquet (temp_file_name d "snv" c),
                        ScanParquet (temp_file_name d "insdel" c))) <$> chroms
          ∧ Forall2 (λ c part,
               w_files w' !! temp_file_name d "snv" c
                 = Some (SnvFile (chrom_snv_table part))
               ∧ w_files w' !! temp_file_name d "insdel" c
                 = Some (InsDelFile (chrom_insdel_table part)))
              chroms parts
      | None =>
          srcs = (λ part, (InMemory (chrom_snv_table part),
                           InMemory (chrom_insdel_table part))) <$> parts
      end.
Proof.
  intros Hnd. revert w srcs.
  induction chroms as [|c cs IH]; intros w srcs Hloop.
  - injection Hloop as <- <-. exists []. split; [done|].
    destruct tmp; [split; [done|constructor]|done].
  - apply NoDup_cons in Hnd as [Hc Hnd].
    apply mapW_cons_inv in Hloop as (src & srcs' & w1 & Hsrc & Hloop & ->).
    apply process_chrom_Ok in Hsrc as (part & Hpart & _ & Hmode).
    destruct (IH Hnd _ _ Hloop) as (parts & Hparts & Hmodes).
    destruct (chrom_loop_frame _ _ _ _ _ _ _ _ Hloop) as (_ & Hframe).
    exists (part :: parts). split; [cbn [mapR]; by rewrite Hpart, Hparts|].
    destruct tmp as [d|].
    + destruct Hmode as (-> & Hf1 & Hf2). destruct Hmodes as (-> & HF).
      split; [done|]. constructor; [|done].
      assert (Hother : ∀ p, p ∈ chrom_paths (Some d) c →
                w_files w' !! p = w_files w1 !! p).
      { intros p Hp. apply Hframe. intros c' Hc'.
        apply (chrom_paths_disjoint (Some d) c c' p); [|done]. by intros ->. }
      rewrite !Hother by (cbn [chrom_paths]; rewrite !elem_of_cons; auto).
      done.
    + rewrite Hmode, Hmodes. done.
Qed.

Lemma check_temp_dir_Ok tmp w :
  (∀ d, tmp = Some d → d ∈ w_dirs w) → check_temp_dir tmp w = (Ok (), w).
Proof.
  intros Htmp. unfold check_temp_dir. destruct tmp as [d|]; [|done].
  unfold bind, isdir. rewrite bool_decide_true by auto. done.
Qed.

(** The call in terms of its outer loop, once the directory check passes. *)
Lemma call_after_check (df_align : list AlignRecord) ref_fa qry_fa tmp w :
  (∀ d, tmp = Some d → d ∈ w_dirs w) →
  variant_tables_snv_insdel df_align ref_fa qry_fa tmp w
  = match mapW (process_chrom (with_row_index df_align) ref_fa qry_fa tmp)
            (chrom_list df_align) w with
    | (Ok srcs, w') =>
        match srcs with
        | [] => (Raise (ValueError "cannot concat empty list"), w')
        | _ => (Ok (srcs.*1, srcs.*2), w')
        end
    | (Raise e, w') => (Raise e, w')
    end.
Proof.
  intros Htmp. unfold variant_tables_snv_insdel. unfold bind at 1.
  rewrite (check_temp_dir_Ok tmp w Htmp). unfold bind at 1.
  destruct (mapW _ _ w) as [[srcs|e] w']; [|done].
  destruct srcs as [|src srcs]; done.
Qed.
End SpillFiles.

Section SpillClaims.
Context `{ScoreModel, ComplTable, BioSeq, !ParquetWriter}.



(** X6.  Whatever the outcome, the call never changes the set of
    directories and never touches a file other than the two spill files
    [snv_<chrom>.parquet] and [insdel_<chrom>.parquet] of its
    chromosomes under the temporary directory; without a temporary
    directory it writes nothing. *)
Theorem writes_only_spill_files (df_align : list AlignRecord) ref_fa qry_fa tmp w :
  let out := variant_tables_snv_insdel df_align ref_fa qry_fa tmp w in
  w_dirs out.2 = w_dirs w
  ∧ (∀ p, (∀ c, c ∈ chrom_list df_align → p ∉ chrom_paths tmp c) →
          w_files out.2 !! p = w_files w !! p)
  ∧ (tmp = None → w_files out.2 = w_files w).
Proof.
  intros out.
  assert (Hframe : w_dirs out.2 = w_dirs w
    ∧ ∀ p, (∀ c, c ∈ chrom_list df_align → p ∉ chrom_paths tmp c) →
           w_files out.2 !! p = w_files w !! p).
  { subst out. destruct (variant_tables_snv_insdel _ _ _ _ w) as [r w'] eqn:Hcall.
    unfold variant_tables_snv_insdel in Hcall. cbn [snd].
    apply bind_inv in Hcall as [([] & w1 & Hchk & Hcall) | (e & Hchk & _)];
      apply check_temp_dir_inv in Hchk as [-> _]; [|done].
    apply bind_inv in Hcall as [(srcs & w2 & Hloop & Hcall) | (e & Hloop & _)];
      [|by apply chrom_loop_frame in Hloop].
    apply chrom_loop_frame in Hloop.
    apply bind_inv in Hcall as [(s1 & w3 & Hc1 & Hcall) | (e & Hc1 & _)];
      apply lift_inv in Hc1 as [_ ->]; [|done].
    apply bind_inv in Hcall as [(s2 & w4 & Hc2 & Hcall) | (e & Hc2 & _)];
      apply lift_inv in Hc2 as [_ ->]; [|done].
    unfold ret in Hcall. by injection Hcall as _ <-. }
  destruct Hframe as (Hd & Hf). split_and!; [done..|].
  intros ->. apply map_eq. intros p. apply Hf.
  intros c _. cbn [chrom_paths]. apply not_elem_of_nil.
Qed.

(** X7.  When the call returns with a temporary directory, its two frames
    are the scans of [snv_<chrom>.parquet] and [insdel_<chrom>.parquet]
    over the chromosomes in ascending order, and each of these files
    holds the sorted table of its chromosome, whatever was stored under
    that name before; without a temporary directory the frames hold the
    same tables in memory. *)
Theorem spill_files_hold_partitions (df_align : list AlignRecord) ref_fa qry_fa
    tmp w snv insdel w' :
  variant_tables_snv_insdel df_align ref_fa qry_fa tmp w = (Ok (snv, insdel), w') →
  ∃ parts : list (list (Scored SnvRow) * list (Scored InsDelRow)),
    mapR (chrom_result (with_row_index df_align) ref_fa qry_fa)
         (chrom_list df_align) = Ok parts
    ∧ match tmp with
      | Some d =>
          d ∈ w_dirs w
          ∧ snv = (λ c, ScanParquet (temp_file_name d "snv" c))
                    <$> chrom_list df_align
          ∧ insdel = (λ c, ScanParquet (temp_file_name d "insdel" c))
                       <$> chrom_list df_align
          ∧ Forall2 (λ c part,
               w_files w' !! temp_file_name d "snv" c
                 = Some (SnvFile (chrom_snv_table part))
               ∧ w_files w' !! temp_file_name d "insdel" c
                 = Some (InsDelFile (chrom_insdel_table part)))
              (chrom_list df_align) parts
      | None =>
          snv = (λ part, InMemory (chrom_snv_table part)) <$> parts
          ∧ insdel = (λ part, InMemory (chrom_insdel_table part)) <$> parts
      end.
Proof.
  unfold variant_tables_snv_insdel. intros Hcall.
  apply bind_inv in Hcall as [([] & w1 & Hchk & Hcall) | (e & _ & [=])].
  apply check_temp_dir_inv in Hchk as [-> Hdir].
  apply bind_inv in Hcall as [(srcs & w2 & Hloop & Hcall) | (e & _ & [=])].
  apply bind_inv in Hcall as [(snv' & w3 & Hc1 & Hcall) | (e & _ & [=])].
  apply lift_inv in Hc1 as [Hc1 ->].
  apply bind_inv in Hcall as [(insdel' & w4 & Hc2 & Hcall) | (e & _ & [=])].
  apply lift_inv in Hc2 as [Hc2 ->].
  unfold ret in Hcall. injection Hcall as <- <- <-.
  symmetry in Hc1, Hc2. apply pl_concat_Ok in Hc1 as ->, Hc2 as ->.
  apply chrom_loop_srcs in Hloop as (parts & Hparts & Hmode);
    [|apply chrom_list_NoDup].
  exists parts. split; [done|]. destruct tmp as [d|].
  - destruct Hmode as (-> & HF). split_and!; [|by rewrite <- list_fmap_compose..|done].
    destruct (bool_decide (d ∈ w_dirs w)) eqn:Hd; [|done].
    by apply bool_decide_eq_true in Hd.
  - rewrite Hmode. by rewrite <- !list_fmap_compose.
Qed.


(** X9.  When the call returns, every alignment record had its reference
    chromosome and its query contig in the sequence files, and every
    mismatch base of the record could be read from them. *)
Theorem returns_needs_sequences (df_align : list AlignRecord) ref_fa qry_fa tmp w
    snv insdel w' i r :
  variant_tables_snv_insdel df_align ref_fa qry_fa tmp w = (Ok (snv, insdel), w') →
  df_align !! i = Some r →
  ∃ seq_ref seq_qry rows,
    ref_fa (al_chrom r) = Some seq_ref
    ∧ qry_fa (al_qry_id r) = Some seq_qry
    ∧ call_snv (al_is_rev r) seq_ref seq_qry
        (record_df (with_row_index df_align) (Z.of_nat i)
           (al_is_rev r) (al_pos r) seq_qry) = Ok rows.
Proof.
  intros (parts & Hparts & _)%pipeline_tables Hr.
  assert (al_chrom r ∈ chrom_list df_align) as (n & Hn)%list_elem_of_lookup.
  { apply chrom_list_elem. eauto using list_elem_of_lookup_2. }
  apply mapR_Ok_Forall2 in Hparts.
  destruct (Forall2_lookup_l _ _ _ _ _ Hparts Hn) as (part & _ & Hpart).
  apply chrom_result_Ok in Hpart as (seq_ref & frames & Href & Hframes & _).
  assert (loop_row i r ∈ chrom_records (with_row_index df_align) (al_chrom r))
    as (m & Hm)%list_elem_of_lookup by (apply chrom_records_elem; eauto).
  apply mapR_Ok_Forall2 in Hframes.
  destruct (Forall2_lookup_l _ _ _ _ _ Hframes Hm) as ([fs fi] & _ & Hres).
  apply (record_result_Ok df_align) in Hres as (seq_qry & Hq & Hsnv & _);
    [|done].
  exists seq_ref, seq_qry, fs.
  by rewrite (record_df_oriented df_align i r seq_qry Hr).
Qed.

(** X10.  On an empty alignment table the call raises the [ValueError] of
    the final [concat] ("cannot concat empty list") once the directory
    check has passed, and leaves the world as it was. *)
Theorem empty_table_raises ref_fa qry_fa tmp w :
  (∀ d, tmp = Some d → d ∈ w_dirs w) →
  variant_tables_snv_insdel [] ref_fa qry_fa tmp w
  = (Raise (ValueError "cannot concat empty list"), w).
Proof. intros Htmp. by rewrite (call_after_check [] ref_fa qry_fa tmp w Htmp). Qed.

Lemma mapW_app_raise {A B} (f : A → M B) pre c rest w ys w1 e w2 :
  mapW f pre w = (Ok ys, w1) →
  f c w1 = (Raise e, w2) →
  mapW f (pre ++ c :: rest) w = (Raise e, w2).
Proof.
  revert w ys. induction pre as [|x pre IH]; intros w ys Hpre Hc.
  - injection Hpre as <- <-. cbn [app mapW]. unfold bind. by rewrite Hc.
  - apply mapW_cons_inv in Hpre as (y & ys' & w0 & Hx & Hpre & ->).
    cbn [app mapW]. unfold bind at 1. rewrite Hx.
    unfold bind at 1. by rewrite (IH _ _ Hpre Hc).
Qed.

Lemma spill_error_elem w tmp c e :
  spill_error w tmp c = Some e →
  ∃ p, p ∈ chrom_paths tmp c ∧ write_error w p = Some e.
Proof.
  unfold spill_error. intros He.
  assert (Hin : e ∈ omap (write_error w) (chrom_paths tmp c)).
  { destruct (omap _ _) as [|e' l]; [done|]. injection He as ->. left. }
  apply list_elem_of_omap in Hin as (p & ? & ?). eauto.
Qed.

(** X11.  When the chromosomes before [c] in ascending order succeed,
    their tables computed and their spill files written, and [c] fails,
    the call raises: the error of the tables of [c] when they cannot be
    computed, and otherwise the error of a write to one of the two spill
    files of [c].  Nothing is cleaned up: the spill files of the
    chromosomes before [c] stay as written.  The files of the chromosomes
    after [c] are as they were before the call, and so are the files of
    [c] when its tables could not be computed. *)
Theorem first_failure (df_align : list AlignRecord) ref_fa qry_fa tmp w pre c rest :
  (∀ d, tmp = Some d → d ∈ w_dirs w) →
  chrom_list df_align = pre ++ c :: rest →
  (∀ c', c' ∈ pre →
     (∃ part, chrom_result (with_row_index df_align) ref_fa qry_fa c' = Ok part)
     ∧ spill_error w tmp c' = None) →
  (∀ part, chrom_result (with_row_index df_align) ref_fa qry_fa c = Ok part →
           spill_error w tmp c ≠ None) →
  ∃ e w',
    variant_tables_snv_insdel df_align ref_fa qry_fa tmp w = (Raise e, w')
    ∧ (∀ e', chrom_result (with_row_index df_align) ref_fa qry_fa c = Raise e' →
         e = e'
         ∧ ∀ p, p ∈ chrom_paths tmp c → w_files w' !! p = w_files w !! p)
    ∧ (∀ part,
         chrom_result (with_row_index df_align) ref_fa qry_fa c = Ok part →
         ∃ p, p ∈ chrom_paths tmp c ∧ write_error w p = Some e)
    ∧ (∀ d c' part, tmp = Some d → c' ∈ pre →
         chrom_result (with_row_index df_align) ref_fa qry_fa c' = Ok part →
         w_files w' !! temp_file_name d "snv" c'
           = Some (SnvFile (chrom_snv_table part))
         ∧ w_files w' !! temp_file_name d "insdel" c'
           = Some (InsDelFile (chrom_insdel_table part)))
    ∧ (∀ c' p, c' ∈ rest → p ∈ chrom_paths tmp c' →
         w_files w' !! p = w_files w !! p).
Proof.
  intros Htmp Hlist Hpre Hc.
  pose proof (chrom_list_NoDup df_align) as Hnd. rewrite Hlist in Hnd.
  apply NoDup_app in Hnd as (Hnd_pre & Hdisj & Hnd_rest).
  apply NoDup_cons in Hnd_rest as [Hc_rest _].
  destruct (chrom_loop_returns (with_row_index df_align) ref_fa qry_fa tmp pre w)
    as (srcs & w1 & Hloop & _);
    [intros c' Hc'; by apply Hpre | intros c' Hc'; by apply Hpre |].
  pose proof (chrom_loop_frame _ _ _ _ _ _ _ _ Hloop) as (Hd1 & Hfpre).
  destruct (process_chrom (with_row_index df_align) ref_fa qry_fa tmp c w1)
    as [rc w2] eqn:Hpc.
  pose proof (process_chrom_spec _ _ _ _ _ _ _ _ Hpc) as (_ & Hfc & _).
  assert (∃ e, rc = Raise e) as [e ->].
  { destruct rc as [src|e]; [|by eexists].
    apply process_chrom_Ok in Hpc as (part & Hpart & Hwr & _).
    rewrite (spill_error_dirs w1 w) in Hwr by done. by destruct (Hc part). }
  exists e, w2. split_and!.
  - rewrite (call_after_check df_align ref_fa qry_fa tmp w Htmp), Hlist.
    by rewrite (mapW_app_raise _ pre c rest w srcs w1 e w2 Hloop Hpc).
  - intros e' He'.
    apply process_chrom_Raise in Hpc as [[Hres Hfiles] | [[part Hpart] _]];
      [|congruence].
    split; [congruence|]. intros p Hp. rewrite Hfiles. apply Hfpre.
    intros c'' Hc''. apply (chrom_paths_disjoint tmp c c'' p); [|done].
    intros ->. by apply (Hdisj c''); [|left].
  - intros part Hpart.
    apply process_chrom_Raise in Hpc as [[Hres _] | [_ Hwr]]; [congruence|].
    rewrite (spill_error_dirs w1 w) in Hwr by done.
    by apply spill_error_elem.
  - intros d c' part -> Hc' Hpart.
    apply chrom_loop_srcs in Hloop as (parts & Hparts & _ & HF); [|done].
    apply list_elem_of_lookup in Hc' as (n & Hn).
    destruct (Forall2_lookup_l _ _ _ _ _ HF Hn) as (part' & Hn' & Hf1 & Hf2).
    apply mapR_Ok_Forall2 in Hparts.
    destruct (Forall2_lookup_l _ _ _ _ _ Hparts Hn) as (part'' & Hn'' & Hp'').
    rewrite Hn' in Hn''. injection Hn'' as <-.
    rewrite Hpart in Hp''. injection Hp'' as <-.
    assert (c' ≠ c) as Hne.
    { intros ->. apply (Hdisj c); [by eapply list_elem_of_lookup_2|left]. }
    rewrite !Hfc; [done|..];
      apply (chrom_paths_disjoint (Some d) c' c); [done| |done|];
      cbn [chrom_paths]; rewrite !elem_of_cons; auto.
  - intros c' p Hc' Hp.
    transitivity (w_files w1 !! p).
    + apply Hfc. apply (chrom_paths_disjoint tmp c' c); [|done].
      intros ->. done.
    + apply Hfpre. intros c'' Hc''.
      apply (chrom_paths_disjoint tmp c' c'' p); [|done].
      intros ->. apply (Hdisj c''); [done|]. by right.
Qed.
End SpillClaims.

(** ** Totals over the whole table *)

Lemma sumZ_app {A} (f : A → Z) l1 l2 : sumZ f (l1 ++ l2) = sumZ f l1 + sumZ f l2.
Proof. induction l1 as [|x l1 IH]; simpl; [done|]. rewrite IH. lia. Qed.

Lemma sumZ_Permutation {A} (f : A → Z) l1 l2 : l1 ≡ₚ l2 → sumZ f l1 = sumZ f l2.
Proof. induction 1; simpl; lia. Qed.

Lemma sumZ_fmap {A B} (f : B → Z) (g : A → B) l : sumZ f (g <$> l) = sumZ (f ∘ g) l.
Proof.
  induction l as [|x l IH]; [done|].
  rewrite fmap_cons. unfold sumZ in *. cbn [foldr]. by rewrite IH.
Qed.

Lemma sumZ_ext {A} (f g : A → Z) l :
  (∀ x, x ∈ l → f x = g x) → sumZ f l = sumZ g l.
Proof.
  induction l as [|x l IH]; intros Hfg; simpl; [done|].
  rewrite Hfg by left. rewrite IH; [done|]. intros y Hy. apply Hfg. by right.
Qed.

Lemma sumZ_zero {A} (f : A → Z) l : (∀ x, x ∈ l → f x = 0) → sumZ f l = 0.
Proof.
  induction l as [|x l IH]; intros Hf; simpl; [done|].
  rewrite Hf by left. rewrite IH; [done|]. intros y Hy. apply Hf. by right.
Qed.

Lemma sumZ_concat {A} (f : A → Z) (ls : list (list A)) :
  sumZ f (concat ls) = sumZ (sumZ f) ls.
Proof. induction ls as [|l ls IH]; simpl; [done|]. by rewrite sumZ_app, IH. Qed.

Lemma length_sumZ {A} (l : list A) : Z.of_nat (length l) = sumZ (λ _, 1) l.
Proof. induction l as [|x l IH]; simpl; [done|]. lia. Qed.

Lemma sumZ_plus {A} (f g : A → Z) l :
  sumZ (λ x, f x + g x) l = sumZ f l + sumZ g l.
Proof. induction l as [|x l IH]; simpl; [done|]. rewrite IH. lia. Qed.

Lemma sumZ_indicator {K} `{!EqDecision K} (k0 : K) (a : Z) (ks : list K) :
  NoDup ks → k0 ∈ ks →
  sumZ (λ k, if decide (k0 = k) then a else 0) ks = a.
Proof.
  induction 1 as [|k ks Hk Hnd IH]; intros Hin; [by apply elem_of_nil in Hin|].
  cbn [sumZ foldr]. fold (sumZ (λ k, if decide (k0 = k) then a else 0) ks).
  apply elem_of_cons in Hin as [-> | Hin].
  - rewrite decide_True by done. rewrite sumZ_zero; [lia|].
    intros k' Hk'. rewrite decide_False; [done|]. by intros ->.
  - rewrite decide_False by (by intros ->). rewrite IH by done. lia.
Qed.

(** Splitting a list by a key and summing the classes gives the sum over
    the list, when the keys are listed once each. *)
Lemma sumZ_classes {A K} `{!EqDecision K} (f : A → Z) (key : A → K)
    (l : list A) (ks : list K) :
  NoDup ks → (∀ x, x ∈ l → key x ∈ ks) →
  sumZ (λ k, sumZ f (filter (λ x, key x = k) l)) ks = sumZ f l.
Proof.
  intros Hnd. induction l as [|x l IH]; intros Hks.
  - apply sumZ_zero. done.
  - assert (Hx : key x ∈ ks) by (apply Hks; left).
    specialize (IH (λ y Hy, Hks y (list_elem_of_further _ _ _ Hy))).
    rewrite (sumZ_ext _ (λ k, (if decide (key x = k) then f x else 0)
                              + sumZ f (filter (λ y, key y = k) l))).
    + rewrite sumZ_plus, IH, sumZ_indicator by done. done.
    + intros k _. rewrite filter_cons. by destruct (decide (key x = k)).
Qed.

Section Totals.
Context `{ScoreModel, ComplTable, BioSeq, !ParquetWriter}.

Lemma varlen_sum_table vt (l : list (Scored InsDelRow)) :
  table_varlen_sum vt (srow <$> l) = varlen_sum vt l.
Proof.
  unfold table_varlen_sum, varlen_sum, sumZ.
  induction l as [|s l IH]; [done|].
  rewrite fmap_cons. cbn [foldr]. by rewrite IH.
Qed.

Lemma varlen_sum_concat vt (ls : list (list (Scored InsDelRow))) :
  varlen_sum vt (concat ls) = sumZ (varlen_sum vt) ls.
Proof.
  induction ls as [|l ls IH]; simpl; [done|]. by rewrite varlen_sum_app, IH.
Qed.

(** The sizes of the two frames of one record. *)
Lemma record_result_sizes (df_align : list AlignRecord) qry_fa seq_ref i r fr :
  df_align !! i = Some r →
  record_result (with_row_index df_align) qry_fa seq_ref (loop_row i r) = Ok fr →
  Z.of_nat (length fr.1) = op_len_sum op.X (al_align_ops r)
  ∧ varlen_sum INS fr.2 = op_len_sum op.I (al_align_ops r)
  ∧ varlen_sum DEL fr.2 = op_len_sum op.D (al_align_ops r).
Proof.
  intros Hr Hres. destruct fr as [snv insdel].
  apply (record_result_Ok df_align) in Hres as (seq_qry & Hq & Hsnv & Hperm);
    [|done].
  cbn [fst snd].
  destruct (call_ins_varlen (al_is_rev r) seq_qry (oriented_rows r seq_qry))
    as [Hi1 Hi2].
  destruct (call_del_varlen seq_ref (oriented_rows r seq_qry)) as [Hd1 Hd2].
  rewrite oriented_rows_ops in Hi1, Hd1.
  rewrite (call_snv_length _ _ _ _ _ Hsnv), oriented_rows_ops.
  rewrite !(varlen_sum_Permutation _ _ _ Hperm), !varlen_sum_app. lia.
Qed.

(** The sizes of the two tables of one chromosome. *)
Lemma chrom_result_sizes (df_align : list AlignRecord) ref_fa qry_fa c part :
  chrom_result (with_row_index df_align) ref_fa qry_fa c = Ok part →
  let on_chrom := filter (λ x, al_chrom x.2 = c) (with_row_index df_align) in
  Z.of_nat (length part.1)
    = sumZ (λ x, op_len_sum op.X (al_align_ops x.2)) on_chrom
  ∧ varlen_sum INS part.2
    = sumZ (λ x, op_len_sum op.I (al_align_ops x.2)) on_chrom
  ∧ varlen_sum DEL part.2
    = sumZ (λ x, op_len_sum op.D (al_align_ops x.2)) on_chrom.
Proof.
  intros (seq_ref & frames & _ & Hframes & Hp1 & Hp2)%chrom_result_Ok on_chrom.
  unfold chrom_records in Hframes. fold on_chrom in Hframes.
  set (sorted := sort_by String.le (λ x, al_qry_id x.2) on_chrom) in *.
  assert (Hperm : sorted ≡ₚ on_chrom) by apply sort_by_Permutation.
  apply mapR_Ok_Forall2, Forall2_fmap_l in Hframes.
  assert (Hsizes : ∀ x fr, x ∈ sorted →
    record_result (with_row_index df_align) qry_fa seq_ref
      (x.1, al_qry_id x.2, al_is_rev x.2, al_pos x.2) = Ok fr →
    Z.of_nat (length fr.1) = op_len_sum op.X (al_align_ops x.2)
    ∧ varlen_sum INS fr.2 = op_len_sum op.I (al_align_ops x.2)
    ∧ varlen_sum DEL fr.2 = op_len_sum op.D (al_align_ops x.2)).
  { intros [j r] fr Hx Hres. rewrite Hperm in Hx.
    apply list_elem_of_filter in Hx as [_ Hx].
    apply elem_of_lookup_imap in Hx as (i & r' & [= -> ->] & Hr).
    by apply (record_result_sizes df_align qry_fa seq_ref i r'). }
  assert (Hsum : Z.of_nat (length (concat frames.*1))
      = sumZ (λ x, op_len_sum op.X (al_align_ops x.2)) sorted
    ∧ varlen_sum INS (concat frames.*2)
      = sumZ (λ x, op_len_sum op.I (al_align_ops x.2)) sorted
    ∧ varlen_sum DEL (concat frames.*2)
      = sumZ (λ x, op_len_sum op.D (al_align_ops x.2)) sorted).
  { clear Hp1 Hp2 Hperm. induction Hframes as [|x fr xs frs Hx _ IH].
    - done.
    - destruct (Hsizes x fr) as (E1 & E2 & E3); [left|done|].
      destruct IH as (I1 & I2 & I3);
        [intros y fr' Hy; apply Hsizes; by right|].
      rewrite !fmap_cons. cbn [concat sumZ foldr].
      rewrite length_app, Nat2Z.inj_add, !varlen_sum_app.
      unfold sumZ in I1, I2, I3. lia. }
  destruct Hsum as (S1 & S2 & S3).
  rewrite Hp1, Hp2.
  rewrite (Permutation_length (sort_by_Permutation _ _ _)).
  rewrite !(varlen_sum_Permutation _ _ _ (sort_by_Permutation _ _ _)).
  rewrite S1, S2, S3.
  split_and!; by apply sumZ_Permutation.
Qed.

(** X12.  Nothing is lost or duplicated on the way to the returned
    tables: the SNV table has as many rows as the mismatch operations of
    all alignment records have bases, and the INS rows and the DEL rows
    of the INS/DEL table have total [varlen] equal to the total length of
    all I operations and of all D operations. *)
Theorem table_totals (df_align : list AlignRecord) ref_fa qry_fa tmp w
    snv insdel w' t_snv t_insdel :
  variant_tables_snv_insdel df_align ref_fa qry_fa tmp w = (Ok (snv, insdel), w') →
  collect_snv w' snv = Ok t_snv →
  collect_insdel w' insdel = Ok t_insdel →
  Z.of_nat (length t_snv)
    = sumZ (λ r, op_len_sum op.X (al_align_ops r)) df_align
  ∧ table_varlen_sum INS t_insdel
    = sumZ (λ r, op_len_sum op.I (al_align_ops r)) df_align
  ∧ table_varlen_sum DEL t_insdel
    = sumZ (λ r, op_len_sum op.D (al_align_ops r)) df_align.
Proof.
  intros (parts & Hparts & Hsnv & Hins)%pipeline_tables Hc1 Hc2.
  rewrite Hsnv in Hc1. rewrite Hins in Hc2.
  injection Hc1 as <-. injection Hc2 as <-.
  apply mapR_Ok_Forall2 in Hparts.
  assert (Hparts_sum :
    Z.of_nat (length (concat (chrom_snv_table <$> parts)))
      = sumZ (λ c, sumZ (λ x : Z * AlignRecord, op_len_sum op.X (al_align_ops x.2))
                     (filter (λ x, al_chrom x.2 = c) (with_row_index df_align)))
          (chrom_list df_align)
    ∧ table_varlen_sum INS (concat (chrom_insdel_table <$> parts))
      = sumZ (λ c, sumZ (λ x : Z * AlignRecord, op_len_sum op.I (al_align_ops x.2))
                     (filter (λ x, al_chrom x.2 = c) (with_row_index df_align)))
          (chrom_list df_align)
    ∧ table_varlen_sum DEL (concat (chrom_insdel_table <$> parts))
      = sumZ (λ c, sumZ (λ x : Z * AlignRecord, op_len_sum op.D (al_align_ops x.2))
                     (filter (λ x, al_chrom x.2 = c) (with_row_index df_align)))
          (chrom_list df_align)).
  { clear Hsnv Hins. induction Hparts as [|c part cs ps Hc _ IH]; [done|].
    destruct (chrom_result_sizes _ _ _ _ _ Hc) as (E1 & E2 & E3).
    destruct IH as (I1 & I2 & I3).
    rewrite !fmap_cons. cbn [concat sumZ foldr].
    unfold table_varlen_sum in *. rewrite length_app, Nat2Z.inj_add, !sumZ_app.
    fold (table_varlen_sum INS (chrom_insdel_table part)).
    fold (table_varlen_sum DEL (chrom_insdel_table part)).
    unfold chrom_snv_table at 1. unfold chrom_insdel_table at 1 3.
    rewrite length_fmap, !varlen_sum_table.
    unfold sumZ in I1, I2, I3, E1, E2, E3 |- *. lia. }
  destruct Hparts_sum as (-> & -> & ->).
  assert (Hkeys : ∀ x, x ∈ with_row_index df_align →
            al_chrom x.2 ∈ chrom_list df_align).
  { intros [j r] (i & r' & [= -> ->] & Hr)%elem_of_lookup_imap.
    apply chrom_list_elem. eauto using list_elem_of_lookup_2. }
  assert (Hsnd : (snd <$> with_row_index df_align) = df_align).
  { unfold with_row_index. apply list_eq. intros i.
    rewrite list_lookup_fmap, list_lookup_imap.
    by destruct (df_align !! i). }
  rewrite !(sumZ_classes _ (λ x : Z * AlignRecord, al_chrom x.2) _ _
              (chrom_list_NoDup df_align) Hkeys).
  assert (Hidx : ∀ f : AlignRecord → Z,
            sumZ f df_align = sumZ (f ∘ snd) (with_row_index df_align)).
  { intros f. rewrite <- Hsnd at 1. apply sumZ_fmap. }
  by rewrite !Hidx.
Qed.
End Totals.

(** ** The inversion table under unique alignment indices *)

Lemma filter_key_unique {A K} `{!EqDecision K} (f : A → K) (key : option K)
    (l : list A) :
  NoDup (f <$> l) →
  (length (filter (λ a, Some (f a) = key) l) ≤ 1)%nat.
Proof.
  induction l as [|a l IH]; [simpl; lia|].
  rewrite fmap_cons. intros [Ha Hnd]%NoDup_cons. specialize (IH Hnd).
  rewrite filter_cons. destruct (decide (Some (f a) = key)) as [Hk|]; [|done].
  destruct (filter (λ a0, Some (f a0) = key) l) as [|b bs] eqn:Hf;
    [simpl; lia|].
  assert (Hb : b ∈ filter (λ a0, Some (f a0) = key) l) by (rewrite Hf; left).
  apply list_elem_of_filter in Hb as [Hbk Hb]. exfalso. apply Ha.
  rewrite <- Hk in Hbk. injection Hbk as <-.
  apply list_elem_of_fmap. eauto.
Qed.

Section InversionUnique.
Context `{ScoreModel, InvCollaborators}.

Lemma join_filter_unique (df_align : list AlignRecord) (r : InvRow) :
  NoDup (al_align_index <$> df_align) →
  join_filter df_align r
  = [with_id_source r
       (al_filter <$>
          head (filter (λ a, Some (al_align_index a) = head (inv_align_source r))
                  df_align))].
Proof.
  intros Hnd. unfold join_filter.
  pose proof (filter_key_unique al_align_index (head (inv_align_source r))
                df_align Hnd) as Hlen.
  destruct (filter _ df_align) as [|a [|b bs]]; [done|done|].
  simpl in Hlen. lia.
Qed.

(** X13.  When no two alignment records share an [align_index], the join
    of [variant_tables_inv] neither drops nor duplicates a row: the
    inversion table has exactly one row per accepted region, in the order
    of the flagged regions, and the [filter] of a row is that of the
    alignment record whose [align_index] is the first entry of
    [align_source], null when there is no such record. *)
Theorem inv_unique_index (df_align : list AlignRecord) (df_flag : list FlagRow)
    ref_fa qry_fa (df_ref_fai df_qry_fai : Fai) (pav_params : option PavParams) :
  NoDup (al_align_index <$> df_align) →
  let accepted :=
    accepted_inv_rows df_align df_flag ref_fa qry_fa df_ref_fai df_qry_fai
      (default default_params pav_params) in
  let df_inv :=
    variant_tables_inv df_align df_flag ref_fa qry_fa df_ref_fai df_qry_fai
      pav_params in
  df_inv
  = (λ r, with_id_source r
            (al_filter <$>
               head (filter (λ a, Some (al_align_index a)
                                  = head (inv_align_source r)) df_align)))
      <$> accepted
  ∧ ivr_row <$> df_inv = accepted
  ∧ length df_inv = length accepted.
Proof.
  intros Hnd accepted df_inv.
  assert (Heq : df_inv
    = (λ r, with_id_source r
              (al_filter <$>
                 head (filter (λ a, Some (al_align_index a)
                                    = head (inv_align_source r)) df_align)))
        <$> accepted).
  { unfold df_inv, variant_tables_inv. fold accepted.
    induction accepted as [|r rs IH]; [done|].
    rewrite bind_cons, fmap_cons, IH, join_filter_unique by done. done. }
  split; [done|]. rewrite Heq. split.
  - rewrite <- list_fmap_compose. by rewrite <- (list_fmap_id accepted) at 2.
  - by rewrite length_fmap.
Qed.
End InversionUnique.

(** * The result summary *)

(** ** Splitting *)

Lemma py_split_nonempty sep s : py_split sep s ≠ [].
Proof.
  destruct s as [|c s]; simpl; [done|].
  case_bool_decide; [done|]. by destruct (py_split sep s).
Qed.

Lemma py_split_no_sep sep s : contains_char sep s = false → py_split sep s = [s].
Proof.
  induction s as [|c s IH]; simpl; [done|].
  case_bool_decide; [done|]. simpl. intros Hs. by rewrite IH.
Qed.

Lemma py_split1_contains sep s :
  contains_char sep s = true →
  ∃ k v, py_split1 sep s = [k; v] ∧ s = k +:+ String sep v
         ∧ contains_char sep k = false.
Proof.
  induction s as [|c s IH]; simpl; [done|].
  case_bool_decide as Hc.
  - subst c. intros _. by exists EmptyString, s.
  - simpl. intros (k & v & -> & -> & Hk)%IH.
    exists (String c k), v. split_and!; [done|done|].
    cbn [contains_char]. rewrite Hk. by rewrite bool_decide_eq_false_2.
Qed.

Lemma contains_char_app sep k v : contains_char sep (k +:+ String sep v) = true.
Proof.
  induction k as [|c k IH].
  - change (EmptyString +:+ String sep v) with (String sep v).
    cbn [contains_char]. by rewrite bool_decide_eq_true_2.
  - change (String c k +:+ String sep v) with (String c (k +:+ String sep v)).
    cbn [contains_char]. rewrite IH. by destruct (bool_decide (c = sep)).
Qed.

Lemma py_split1_app sep k v :
  contains_char sep k = false → py_split1 sep (k +:+ String sep v) = [k; v].
Proof.
  induction k as [|c k IH].
  - change (EmptyString +:+ String sep v) with (String sep v).
    cbn [py_split1]. by rewrite bool_decide_eq_true_2.
  - change (String c k +:+ String sep v) with (String c (k +:+ String sep v)).
    cbn [py_split1 contains_char].
    case_bool_decide; [done|]. simpl. intros Hk. by rewrite IH.
Qed.

Lemma foldR_app {A B} (f : B → A → Result B) b l1 l2 :
  foldR f b (l1 ++ l2) = let! b' := foldR f b l1 in foldR f b' l2.
Proof.
  revert b. induction l1 as [|x l1 IH]; intros b; simpl; [done|].
  destruct (f b x); simpl; [apply IH|done].
Qed.

Section SummaryFacts.
Context `{PyInt, FileSystem}.

(** ** The INFO dict *)

(** A turn of the INFO loop never raises: it sets one key, the entry
    itself for a flag and the part before the first [=] otherwise. *)
Lemma parse_entry_Ok (info : gmap string InfoVal) (e : string) :
  ∃ k v, parse_entry info e = Ok (<[k := v]> info)
    ∧ ((contains_char "=" e = false ∧ k = e ∧ v = ITrue)
       ∨ ∃ s, e = k +:+ String "=" s ∧ contains_char "=" k = false
              ∧ v = IStr s).
Proof.
  unfold parse_entry. destruct (contains_char "=" e) eqn:He.
  - apply py_split1_contains in He as (k & s & -> & -> & Hk).
    exists k, (IStr s). split; [done|]. right. by exists s.
  - exists e, ITrue. split; [done|]. by left.
Qed.

Lemma parse_entry_flag (info : gmap string InfoVal) (k : string) :
  contains_char "=" k = false → parse_entry info k = Ok (<[k := ITrue]> info).
Proof. intros Hk. unfold parse_entry. by rewrite Hk. Qed.

Lemma parse_entry_pair (info : gmap string InfoVal) (k v : string) :
  contains_char "=" k = false →
  parse_entry info (k +:+ String "=" v) = Ok (<[k := IStr v]> info).
Proof.
  intros Hk. unfold parse_entry.
  by rewrite contains_char_app, py_split1_app.
Qed.

Lemma parse_entries_Ok (es : list string) (info : gmap string InfoVal) :
  ∃ info', foldR parse_entry info es = Ok info'.
Proof.
  revert info. induction es as [|e es IH]; intros info; simpl; [by eexists|].
  destruct (parse_entry_Ok info e) as (k & v & -> & _). simpl. apply IH.
Qed.

Lemma parse_entries_keep (es : list string) (info info' : gmap string InfoVal) k :
  (∀ e, e ∈ es → e ≠ k ∧ ∀ v, e ≠ k +:+ String "=" v) →
  foldR parse_entry info es = Ok info' →
  info' !! k = info !! k.
Proof.
  revert info. induction es as [|e es IH]; intros info Hes; simpl.
  - by intros [= ->].
  - destruct (parse_entry_Ok info e) as (k' & v & -> & Hkv). simpl.
    intros Hfold. rewrite (IH _ (λ e' He', Hes e' (list_elem_of_further _ _ _ He')) Hfold).
    apply lookup_insert_ne. intros ->.
    destruct (Hes e) as [Hne Hnv]; [left|].
    destruct Hkv as [(_ & -> & _) | (s & -> & _)]; [done|by eapply Hnv].
Qed.

Lemma parse_entries_keys (es : list string) (info info' : gmap string InfoVal) k :
  foldR parse_entry info es = Ok info' →
  is_Some (info' !! k) →
  is_Some (info !! k)
  ∨ ∃ e, e ∈ es ∧ (e = k ∨ ∃ v, e = k +:+ String "=" v).
Proof.
  revert info. induction es as [|e es IH]; intros info; simpl.
  - intros [= ->]. by left.
  - destruct (parse_entry_Ok info e) as (k' & v & -> & Hkv). simpl.
    intros Hfold Hk. destruct (IH _ Hfold Hk) as [Hin | (e' & He' & Hk')].
    + destruct (decide (k' = k)) as [->|Hne].
      * right. exists e. split; [left|].
        destruct Hkv as [(_ & -> & _) | (s & -> & _)]; eauto.
      * left. by rewrite lookup_insert_ne in Hin.
    + right. exists e'. split; [by right|done].
Qed.

(** X14.  The INFO column is split at every [;], and every entry sets one
    key of the dict: reading never fails, the last entry for a key wins, an
    entry [k=v] keeps everything after its first [=] as the value (also
    further [=] signs), an entry without [=] maps to [True], and the dict
    has no key that is not the key of an entry. *)
Theorem info_last_wins (field : string) (pre post : list string) (e k : string) :
  py_split ";" field = pre ++ e :: post →
  contains_char "=" k = false →
  (∀ e', e' ∈ post → e' ≠ k ∧ ∀ v, e' ≠ k +:+ String "=" v) →
  ∃ info, parse_info field = Ok info
    ∧ (e = k → info !! k = Some ITrue)
    ∧ (∀ v, e = k +:+ String "=" v → info !! k = Some (IStr v))
    ∧ (∀ k', is_Some (info !! k') →
         ∃ e', e' ∈ py_split ";" field
               ∧ (e' = k' ∨ ∃ v, e' = k' +:+ String "=" v)).
Proof.
  intros Hsplit Hk Hpost. unfold parse_info.
  destruct (parse_entries_Ok (py_split ";" field) ∅) as [info Hinfo].
  exists info. split; [done|].
  split_and!.
  - intros ->. rewrite Hsplit, foldR_app in Hinfo.
    destruct (parse_entries_Ok pre ∅) as [m Hm]. rewrite Hm in Hinfo.
    cbn [rbind foldR] in Hinfo. rewrite parse_entry_flag in Hinfo by done.
    cbn [rbind] in Hinfo.
    rewrite (parse_entries_keep _ _ _ _ Hpost Hinfo).
    apply lookup_insert_eq.
  - intros v ->. rewrite Hsplit, foldR_app in Hinfo.
    destruct (parse_entries_Ok pre ∅) as [m Hm]. rewrite Hm in Hinfo.
    cbn [rbind foldR] in Hinfo. rewrite parse_entry_pair in Hinfo by done.
    cbn [rbind] in Hinfo.
    rewrite (parse_entries_keep _ _ _ _ Hpost Hinfo).
    apply lookup_insert_eq.
  - intros k' Hk'.
    destruct (parse_entries_keys _ _ _ _ Hinfo Hk') as [Hin|]; [|done].
    rewrite lookup_empty in Hin. by destruct Hin.
Qed.

(** X15.  An INFO column without [;] and without [=] is read as one flag:
    the empty column gives the dict with the empty key, and the missing
    value [.] of VCF gives the key [.]. *)
Theorem info_single_flag (field : string) :
  contains_char ";" field = false →
  contains_char "=" field = false →
  parse_info field = Ok {[ field := ITrue ]}.
Proof.
  intros Hsemi Heq. unfold parse_info. rewrite py_split_no_sep by done.
  cbn [foldR]. by rewrite parse_entry_flag.
Qed.
End SummaryFacts.

Section ReaderFacts.
Context `{PyInt, FileSystem}.

(** ** The reader *)

Lemma parse_info_Ok (field : string) : ∃ info, parse_info field = Ok info.
Proof. apply parse_entries_Ok. Qed.

(** The two kinds of turn of the loop over the lines. *)
Lemma read_line_spec (records : list VcfRecord) (line : string) :
  (is_data_line line = false ∧ read_line records line = Ok records)
  ∨ (is_data_line line = true
     ∧ ∃ f0 f1 f2 f3 f4 f5 f6 f7 rest info,
         line_fields line = f0 :: f1 :: f2 :: f3 :: f4 :: f5 :: f6 :: f7 :: rest
         ∧ parse_info f7 = Ok info
         ∧ read_line records line
           = let! pos := int_of_str f1 in
             Ok (records ++ [ {| vr_chrom := f0; vr_pos := pos; vr_id := f2;
                                 vr_ref := f3; vr_alt := f4; vr_qual := f5;
                                 vr_filter := f6; vr_info := info |} ])).
Proof.
  unfold is_data_line, read_line, line_fields.
  destruct (startswith_char "#" line); [by left|].
  destruct (py_split TAB (rstrip_char NL line))
    as [|f0 [|f1 [|f2 [|f3 [|f4 [|f5 [|f6 [|f7 rest]]]]]]]]; try (by left).
  right. split; [done|].
  destruct (parse_info_Ok f7) as [info Hinfo].
  exists f0, f1, f2, f3, f4, f5, f6, f7, rest, info.
  split; [done|]. split; [done|]. by rewrite Hinfo.
Qed.

Lemma read_lines_spec (lines : list string) (records recs : list VcfRecord) :
  foldR read_line records lines = Ok recs →
  ∃ new, recs = records ++ new
    ∧ Forall2 line_record (filter (λ l, is_data_line l = true) lines) new.
Proof.
  revert records. induction lines as [|line lines IH]; intros records; simpl.
  - intros [= <-]. exists []. by rewrite app_nil_r.
  - rewrite filter_cons.
    destruct (read_line_spec records line)
      as [[Hd ->] | (Hd & f0 & f1 & f2 & f3 & f4 & f5 & f6 & f7 & rest & info
                       & Hf & Hinfo & ->)]; rewrite Hd.
    + rewrite decide_False by done. apply IH.
    + rewrite decide_True by done. unfold int_of_str.
      destruct (py_int f1) as [pos|] eqn:Hpos; [|done]. cbn [of_option rbind].
      intros (new & -> & Hnew)%IH. eexists (_ :: new).
      rewrite <- app_assoc. split; [done|].
      constructor; [|done]. exists f1, f7, rest. by rewrite Hf.
Qed.

Lemma read_lines_returns (lines : list string) (records : list VcfRecord) :
  (∀ line, line ∈ lines → is_data_line line = true →
     is_Some (line_fields line !! 1%nat ≫= py_int)) →
  ∃ recs, foldR read_line records lines = Ok recs.
Proof.
  revert records. induction lines as [|line lines IH]; intros records Hint; simpl.
  - by eexists.
  - destruct (read_line_spec records line)
      as [[Hd ->] | (Hd & f0 & f1 & f2 & f3 & f4 & f5 & f6 & f7 & rest & info
                       & Hf & Hinfo & ->)].
    + apply IH. intros l Hl. apply Hint. by right.
    + destruct (Hint line) as [pos Hpos]; [left|done|].
      rewrite Hf in Hpos. simpl in Hpos. unfold int_of_str. rewrite Hpos.
      cbn [of_option rbind]. apply IH. intros l Hl. apply Hint. by right.
Qed.

Lemma read_lines_raises (lines : list string) (records : list VcfRecord) e :
  foldR read_line records lines = Raise e →
  ∃ pre line post f1,
    lines = pre ++ line :: post
    ∧ is_data_line line = true
    ∧ line_fields line !! 1%nat = Some f1
    ∧ py_int f1 = None
    ∧ e = ValueError ("invalid literal for int() with base 10: '" +:+ f1 +:+ "'")
    ∧ ∀ l, l ∈ pre → is_data_line l = true →
           is_Some (line_fields l !! 1%nat ≫= py_int).
Proof.
  revert records. induction lines as [|line lines IH]; intros records; simpl;
    [done|].
  destruct (read_line_spec records line)
    as [[Hd ->] | (Hd & f0 & f1 & f2 & f3 & f4 & f5 & f6 & f7 & rest & info
                     & Hf & Hinfo & ->)].
  - intros (pre & l & post & f1 & -> & ? & ? & ? & ? & Hpre)%IH.
    exists (line :: pre), l, post, f1. split_and!; try done.
    intros l' [->|Hl']%elem_of_cons Hd'; [congruence|by apply Hpre].
  - unfold int_of_str. destruct (py_int f1) as [pos|] eqn:Hpos;
      cbn [of_option rbind].
    + intros (pre & l & post & f1' & -> & ? & ? & ? & ? & Hpre)%IH.
      exists (line :: pre), l, post, f1'. split_and!; try done.
      intros l' [->|Hl']%elem_of_cons Hd'; [|by apply Hpre].
      rewrite Hf. simpl. by rewrite Hpos.
    + intros [= <-]. exists [], line, lines, f1. split_and!; try done.
      * by rewrite Hf.
      * intros l Hl. by apply elem_of_nil in Hl.
Qed.

(** X16.  The records [read_vcf_records] returns are the data lines of
    the file, one record per line and in the order of the file: the lines
    that start with [#] and the lines with fewer than eight tab-separated
    fields give nothing.  The record of a line has the first seven fields
    of the line, with the second read as an integer, and the dict of the
    eighth. *)
Theorem records_are_data_lines (vcf_path : FilePath) (lines : list string)
    (recs : list VcfRecord) :
  open_lines vcf_path = Ok lines →
  read_vcf_records vcf_path = Ok recs →
  Forall2 (λ line rec,
             ∃ f1 f7 rest,
               line_fields line
               = vr_chrom rec :: f1 :: vr_id rec :: vr_ref rec :: vr_alt rec
                   :: vr_qual rec :: vr_filter rec :: f7 :: rest
               ∧ py_int f1 = Some (vr_pos rec)
               ∧ parse_info f7 = Ok (vr_info rec))
          (filter (λ l, is_data_line l = true) lines) recs
  ∧ length recs = length (filter (λ l, is_data_line l = true) lines)
  ∧ (length recs ≤ length lines)%nat.
Proof.
  intros Hopen. unfold read_vcf_records. rewrite Hopen. cbn [rbind].
  intros (new & -> & Hnew)%read_lines_spec. rewrite app_nil_l.
  split; [done|]. apply Forall2_length in Hnew as Hlen.
  split; [done|]. rewrite <- Hlen. apply length_filter.
Qed.

(** X17.  Reading a file fails exactly when a data line has a second
    field that [int] does not accept: one such line loses the records of
    the whole file, and the error is the [ValueError] of the first such
    line.  An error of the opener is passed on. *)
Theorem read_returns_iff (vcf_path : FilePath) (lines : list string) :
  open_lines vcf_path = Ok lines →
  ((∃ recs, read_vcf_records vcf_path = Ok recs)
   ↔ ∀ line, line ∈ lines → is_data_line line = true →
        is_Some (line_fields line !! 1%nat ≫= py_int))
  ∧ (∀ e, read_vcf_records vcf_path = Raise e →
       ∃ pre line post f1,
         lines = pre ++ line :: post
         ∧ is_data_line line = true
         ∧ line_fields line !! 1%nat = Some f1
         ∧ py_int f1 = None
         ∧ e = ValueError
                 ("invalid literal for int() with base 10: '" +:+ f1 +:+ "'")
         ∧ ∀ l, l ∈ pre → is_data_line l = true →
                is_Some (line_fields l !! 1%nat ≫= py_int)).
Proof.
  intros Hopen. unfold read_vcf_records. rewrite Hopen. cbn [rbind].
  split; [split|].
  - intros [recs Hrecs] line Hline Hd.
    destruct (read_lines_spec _ _ _ Hrecs) as (new & _ & Hnew).
    assert (Hin : line ∈ filter (λ l, is_data_line l = true) lines)
      by by apply list_elem_of_filter.
    apply list_elem_of_lookup in Hin as [i Hi].
    destruct (Forall2_lookup_l _ _ _ _ _ Hnew Hi)
      as (rec & _ & f1 & f7 & rest & Hf & Hpos & _).
    rewrite Hf. simpl. by rewrite Hpos.
  - apply read_lines_returns.
  - apply read_lines_raises.
Qed.
End ReaderFacts.

Lemma omap_length_le {A B} (f : A → option B) (l : list A) :
  (length (omap f l) ≤ length l)%nat.
Proof.
  induction l as [|x l IH]; [done|].
  change (omap f (x :: l))
    with (match f x with Some y => y :: omap f l | None => omap f l end).
  destruct (f x); simpl; lia.
Qed.

Section SummaryCounts.
Context `{PyInt, FileSystem}.

(** ** The summary of one file *)

Lemma counter_sum_incr (m : gmap InfoVal nat) (k : InfoVal) :
  map_fold (λ _ n acc, (n + acc)%nat) 0%nat
    (<[k := S (default 0%nat (m !! k))]> m)
  = S (map_fold (λ _ n acc, (n + acc)%nat) 0%nat m).
Proof.
  destruct (m !! k) as [n|] eqn:Hk; cbn [default].
  - rewrite <- (insert_delete_eq m).
    rewrite map_fold_insert_L; [|intros; lia|apply lookup_delete_eq].
    rewrite (map_fold_delete_L _ _ k n m); [unfold id; lia|intros; lia|done].
  - rewrite map_fold_insert_L; [done|intros; lia|done].
Qed.

Lemma count_records_spec (recs : list VcfRecord) (c : gmap InfoVal nat)
    (l : list Z) :
  let counted := foldl count_record (c, l) recs in
  (∀ t, default 0%nat (counted.1 !! t)
        = (default 0%nat (c !! t)
           + length (filter (λ r, record_svtype r = t) recs))%nat)
  ∧ map_fold (λ _ n acc, (n + acc)%nat) 0%nat counted.1
    = (map_fold (λ _ n acc, (n + acc)%nat) 0%nat c + length recs)%nat
  ∧ ((∀ t n, c !! t = Some n → (0 < n)%nat) →
     ∀ t n, counted.1 !! t = Some n → (0 < n)%nat)
  ∧ counted.2
    = l ++ omap (λ r, Z.abs <$> (vr_info r !! "SVLEN" ≫= info_int)) recs.
Proof.
  revert c l. induction recs as [|rec recs IH]; intros c l counted.
  - subst counted. simpl. split_and!; [intros; lia|lia|done|by rewrite app_nil_r].
  - subst counted. cbn [foldl].
    pose (c1 := <[record_svtype rec :=
                    S (default 0%nat (c !! record_svtype rec))]> c).
    pose (l1 := match vr_info rec !! "SVLEN" with
                | Some svlen =>
                    match info_int svlen with
                    | Some n => l ++ [Z.abs n]
                    | None => l
                    end
                | None => l
                end).
    change (count_record (c, l) rec) with (c1, l1).
    destruct (IH c1 l1) as (Hcount & Hsum & Hpos & Hlen).
    split_and!.
    + intros t. rewrite Hcount, filter_cons. unfold c1.
      destruct (decide (record_svtype rec = t)) as [->|Hne].
      * rewrite lookup_insert_eq. simpl. lia.
      * rewrite lookup_insert_ne by done. lia.
    + rewrite Hsum. unfold c1. rewrite counter_sum_incr. simpl. lia.
    + intros Hc. apply Hpos. intros t n. unfold c1.
      destruct (decide (record_svtype rec = t)) as [->|Hne].
      * rewrite lookup_insert_eq. intros [= <-]. lia.
      * rewrite lookup_insert_ne by done. apply Hc.
    + rewrite Hlen. unfold l1. simpl.
      destruct (vr_info rec !! "SVLEN") as [svlen|]; simpl; [|done].
      destruct (info_int svlen); simpl; [|done].
      by rewrite <- app_assoc.
Qed.

(** X18.  When the file is read, [summarize_vcf] returns, whatever the
    SVLEN values are, and the summary counts every record once: [total] is
    the number of records, the count of a type is the number of records
    with that [SVTYPE] (with [UNKNOWN] for the records without one) and is
    never stored as zero, and the counts add up to [total].  [sv_lengths]
    has, in the order of the records, the absolute value of every SVLEN
    that [int] accepts, with 1 for an SVLEN flag; so it has at most [total]
    entries and none is negative. *)
Theorem summary_counts (vcf_path : FilePath) (recs : list VcfRecord) :
  read_vcf_records vcf_path = Ok recs →
  ∃ s, summarize_vcf vcf_path = Ok s
    ∧ sm_file s = fp_name vcf_path
    ∧ sm_total s = length recs
    ∧ (∀ t, default 0%nat (sm_by_type s !! t)
            = length (filter (λ r, record_svtype r = t) recs))
    ∧ (∀ t n, sm_by_type s !! t = Some n → (0 < n)%nat)
    ∧ map_fold (λ _ n acc, (n + acc)%nat) 0%nat (sm_by_type s) = sm_total s
    ∧ sm_sv_lengths s
      = omap (λ r, Z.abs <$> (vr_info r !! "SVLEN" ≫= info_int)) recs
    ∧ (length (sm_sv_lengths s) ≤ sm_total s)%nat
    ∧ Forall (λ n, 0 ≤ n) (sm_sv_lengths s).
Proof.
  intros Hread. unfold summarize_vcf. rewrite Hread. cbn [rbind].
  eexists. split; [done|]. cbn [sm_file sm_total sm_by_type sm_sv_lengths].
  destruct (count_records_spec recs ∅ []) as (Hcount & Hsum & Hpos & Hlen).
  split; [done|]. split; [done|]. split_and!.
  - intros t. rewrite Hcount, lookup_empty. done.
  - apply Hpos. intros t n. by rewrite lookup_empty.
  - rewrite Hsum, map_fold_empty. done.
  - by rewrite Hlen.
  - rewrite Hlen, app_nil_l. apply omap_length_le.
  - rewrite Hlen, app_nil_l. apply Forall_forall. intros n Hn.
    apply list_elem_of_omap in Hn as (r & _ & Hr).
    destruct (vr_info r !! "SVLEN" ≫= info_int); [|done].
    injection Hr as <-. lia.
Qed.

End SummaryCounts.

Section OutputFiles.
Context `{PyInt, FileSystem}.

(** ** The categories of the output files *)

(** What the loops of [find_output_files] keep true of the four lists,
    for the files seen so far. *)
Lemma categorise_spec (categories : Categories) (seen : list FilePath)
    (root fname : string) :
  let vcf p := py_in ".vcf" (lower (fp_name p)) in
  let bed p := py_in ".bed" (lower (fp_name p)) in
  let tsv p := py_in ".tsv" (lower (fp_name p)) in
  let inv c l :=
    cat_vcf c = filter (λ p, vcf p = true) l
    ∧ cat_bed c = filter (λ p, vcf p = false ∧ bed p = true) l
    ∧ cat_tsv c = filter (λ p, vcf p = false ∧ bed p = false ∧ tsv p = true) l
    ∧ cat_other c
      = filter (λ p, vcf p = false ∧ bed p = false ∧ tsv p = false) l in
  inv categories seen →
  inv (categorise categories root fname)
      (seen ++ [ {| fp_root := root; fp_name := fname |} ]).
Proof.
  intros vcf bed tsv inv (Hv & Hb & Ht & Ho). unfold inv, categorise.
  rewrite !filter_app, !filter_cons, !filter_nil. subst vcf bed tsv.
  cbn [fp_name].
  destruct (py_in ".vcf" (lower fname)) eqn:Ev;
    [|destruct (py_in ".bed" (lower fname)) eqn:Eb;
      [|destruct (py_in ".tsv" (lower fname)) eqn:Et]];
    cbn [cat_vcf cat_bed cat_tsv cat_other];
    rewrite Hv, Hb, Ht, Ho;
    repeat match goal with
      | |- context [decide ?P] => destruct (decide P) as [?|?]
      end;
    rewrite ?app_nil_r; try done; exfalso; intuition congruence.
Qed.

Lemma categorise_files (categories : Categories) (seen : list FilePath)
    (root : string) (files : list string) :
  let vcf p := py_in ".vcf" (lower (fp_name p)) in
  let bed p := py_in ".bed" (lower (fp_name p)) in
  let tsv p := py_in ".tsv" (lower (fp_name p)) in
  let inv c l :=
    cat_vcf c = filter (λ p, vcf p = true) l
    ∧ cat_bed c = filter (λ p, vcf p = false ∧ bed p = true) l
    ∧ cat_tsv c = filter (λ p, vcf p = false ∧ bed p = false ∧ tsv p = true) l
    ∧ cat_other c
      = filter (λ p, vcf p = false ∧ bed p = false ∧ tsv p = false) l in
  inv categories seen →
  inv (foldl (λ c fname, categorise c root fname) categories files)
      (seen ++ ((λ fname, {| fp_root := root; fp_name := fname |}) <$> files)).
Proof.
  intros vcf bed tsv inv. revert categories seen.
  induction files as [|fname files IH]; intros categories seen Hinv.
  - by rewrite fmap_nil, app_nil_r.
  - rewrite fmap_cons. cbn [foldl]. rewrite cons_middle, app_assoc.
    apply IH. by apply categorise_spec.
Qed.

Lemma four_way_Permutation {A} (P1 P2 P3 P4 : A → Prop)
    `{!∀ x, Decision (P1 x), !∀ x, Decision (P2 x),
      !∀ x, Decision (P3 x), !∀ x, Decision (P4 x)} (l : list A) :
  (∀ x, (P1 x ∧ ¬ P2 x ∧ ¬ P3 x ∧ ¬ P4 x) ∨ (¬ P1 x ∧ P2 x ∧ ¬ P3 x ∧ ¬ P4 x)
        ∨ (¬ P1 x ∧ ¬ P2 x ∧ P3 x ∧ ¬ P4 x) ∨ (¬ P1 x ∧ ¬ P2 x ∧ ¬ P3 x ∧ P4 x)) →
  filter P1 l ++ filter P2 l ++ filter P3 l ++ filter P4 l ≡ₚ l.
Proof.
  intros Hone. induction l as [|x l IH]; [done|].
  rewrite !filter_cons.
  destruct (Hone x) as [(? & ? & ? & ?) | [(? & ? & ? & ?)
    | [(? & ? & ? & ?) | (? & ? & ? & ?)]]];
    repeat match goal with
      | |- context [decide ?P] => destruct (decide P) as [?|?]; try done
      end.
  - simpl. by rewrite IH.
  - simpl. rewrite <- Permutation_middle. by rewrite IH.
  - simpl. rewrite app_assoc, <- Permutation_middle, <- app_assoc.
    by rewrite IH.
  - simpl. rewrite !app_assoc, <- Permutation_middle, <- !app_assoc.
    by rewrite IH.
Qed.

(** X19.  [find_output_files] puts every file that [os.walk] lists in
    exactly one of the four lists and keeps the order of the walk inside
    each list.  The test is on the lower-cased file name and goes by
    priority: a name with [.vcf] anywhere in it is a VCF file, also when
    it has [.bed] or [.tsv] as well; then [.bed], then [.tsv], and
    [other] takes the rest.  So the four lengths add up to the number of
    files. *)
Theorem categories_partition (output_dir : string) :
  let categories := find_output_files output_dir in
  let files := walked_files output_dir in
  let vcf p := py_in ".vcf" (lower (fp_name p)) in
  let bed p := py_in ".bed" (lower (fp_name p)) in
  let tsv p := py_in ".tsv" (lower (fp_name p)) in
  cat_vcf categories = filter (λ p, vcf p = true) files
  ∧ cat_bed categories = filter (λ p, vcf p = false ∧ bed p = true) files
  ∧ cat_tsv categories
    = filter (λ p, vcf p = false ∧ bed p = false ∧ tsv p = true) files
  ∧ cat_other categories
    = filter (λ p, vcf p = false ∧ bed p = false ∧ tsv p = false) files
  ∧ cat_vcf categories ++ cat_bed categories ++ cat_tsv categories
      ++ cat_other categories ≡ₚ files
  ∧ (length (cat_vcf categories) + length (cat_bed categories)
     + length (cat_tsv categories) + length (cat_other categories))%nat
    = length files.
Proof.
  intros categories files vcf bed tsv.
  assert (Hinv :
    cat_vcf categories = filter (λ p, vcf p = true) files
    ∧ cat_bed categories = filter (λ p, vcf p = false ∧ bed p = true) files
    ∧ cat_tsv categories
      = filter (λ p, vcf p = false ∧ bed p = false ∧ tsv p = true) files
    ∧ cat_other categories
      = filter (λ p, vcf p = false ∧ bed p = false ∧ tsv p = false) files).
  { subst categories files. unfold find_output_files, walked_files.
    set (c0 := {| cat_vcf := []; cat_bed := []; cat_tsv := []; cat_other := [] |}).
    rewrite <- (app_nil_l (os_walk output_dir ≫= _)).
    assert (H0' : cat_vcf c0 = filter (λ p, vcf p = true) []
      ∧ cat_bed c0 = filter (λ p, vcf p = false ∧ bed p = true) []
      ∧ cat_tsv c0 = filter (λ p, vcf p = false ∧ bed p = false ∧ tsv p = true) []
      ∧ cat_other c0
        = filter (λ p, vcf p = false ∧ bed p = false ∧ tsv p = false) [])
      by done.
    revert H0'. generalize c0 (@nil FilePath). clear c0.
    induction (os_walk output_dir) as [|[[root dirs] names] walk IH];
      intros c seen Hc.
    - by rewrite app_nil_r.
    - rewrite bind_cons, app_assoc. cbn [foldl]. apply IH.
      by apply categorise_files. }
  destruct Hinv as (Hv & Hb & Ht & Ho).
  assert (Hperm : cat_vcf categories ++ cat_bed categories
            ++ cat_tsv categories ++ cat_other categories ≡ₚ files).
  { rewrite Hv, Hb, Ht, Ho. apply four_way_Permutation. intros p.
    subst vcf bed tsv. cbv beta.
    destruct (py_in ".vcf" (lower (fp_name p)));
      destruct (py_in ".bed" (lower (fp_name p)));
      destruct (py_in ".tsv" (lower (fp_name p))); intuition congruence. }
  split_and!; try done.
  rewrite <- (Permutation_length Hperm), !length_app. lia.
Qed.
End OutputFiles.

(** * Examples of the further properties *)

Lemma snv_forward_offsets_witness :
  ∃ d, demo_fwd_df !! 1%nat = Some d ∧
  ∃ s, s ∈ demo_fwd_snv
       ∧ snv_row (al_is_rev demo_fwd) demo_ref demo_qry d 1 = Ok s
       ∧ snv_pos (srow s) = op_pos d + 1
       ∧ snv_qry_pos (srow s) = op_qry_pos d + 1
       ∧ snv_end (srow s) = snv_pos (srow s) + 1
       ∧ snv_qry_end (srow s) = snv_qry_pos (srow s) + 1.
Proof.
  eexists. split; [vm_compute; reflexivity|].
  eapply (snv_forward_offsets [demo_fwd] 0%nat demo_fwd demo_ref demo_qry
            demo_fwd_snv 1%nat).
  - reflexivity.
  - reflexivity.
  - vm_compute. reflexivity.
  - vm_compute. reflexivity.
  - reflexivity.
  - simpl. lia.
Defined.

Lemma snv_row_record_witness :
  ∃ s, demo_snv_table !! 0%nat = Some s ∧
  ∃ i r,
    [demo_rev; demo_fwd; demo_chr0] !! i = Some r
    ∧ snv_chrom s = al_chrom r
    ∧ snv_qry_id s = al_qry_id r
    ∧ snv_filter s = al_filter r
    ∧ snv_qry_rev s = al_is_rev r
    ∧ snv_align_source s = [al_align_index r]
    ∧ snv_vartype s = SNV
    ∧ snv_call_source s = "INTRA"
    ∧ snv_var_score s = mismatch 1
    ∧ snv_end s = snv_pos s + 1
    ∧ snv_qry_end s = snv_qry_pos s + 1
    ∧ al_pos r ≤ snv_pos s
    ∧ snv_pos s < al_pos r + ref_span (al_align_ops r).
Proof.
  eexists. split; [vm_compute; reflexivity|].
  eapply (snv_row_record [demo_rev; demo_fwd; demo_chr0] demo_ref_fa2 demo_qry_fa
            (Some "tmp") demo_world demo_frames.1 demo_frames.2 demo_run.2
            demo_snv_table 0%nat).
  - vm_compute. reflexivity.
  - vm_compute. reflexivity.
  - vm_compute. reflexivity.
Defined.

Lemma insdel_row_record_witness :
  ∃ s, demo_insdel_table !! 1%nat = Some s ∧
  ∃ i r,
    [demo_rev; demo_fwd; demo_chr0] !! i = Some r
    ∧ sv_chrom s = al_chrom r
    ∧ sv_qry_id s = al_qry_id r
    ∧ sv_filter s = al_filter r
    ∧ sv_qry_rev s = al_is_rev r
    ∧ sv_align_source s = [al_align_index r]
    ∧ (sv_vartype s = INS ∨ sv_vartype s = DEL)
    ∧ sv_call_source s = "INTRA"
    ∧ sv_var_score s = gap (sv_varlen s)
    ∧ sv_pos s < sv_end s
    ∧ sv_qry_pos s < sv_qry_end s
    ∧ al_pos r ≤ sv_pos s
    ∧ sv_pos s ≤ al_pos r + ref_span (al_align_ops r)
    ∧ (sv_vartype s = DEL → sv_end s ≤ al_pos r + ref_span (al_align_ops r)).
Proof.
  eexists. split; [vm_compute; reflexivity|].
  eapply (insdel_row_record [demo_rev; demo_fwd; demo_chr0] demo_ref_fa2
            demo_qry_fa (Some "tmp") demo_world demo_frames.1 demo_frames.2
            demo_run.2 demo_insdel_table 1%nat).
  - vm_compute. reflexivity.
  - vm_compute. reflexivity.
  - vm_compute. reflexivity.
Defined.

Lemma expansion_tiles_witness :
  [demo_rev] !! 0%nat = Some demo_rev
  ∧ length (op_rows (explode_ops (with_row_index [demo_rev]) 0) (al_pos demo_rev))
    = length (al_align_ops demo_rev)
  ∧ ∀ a, last (op_rows (explode_ops (with_row_index [demo_rev]) 0)
                 (al_pos demo_rev)) = Some a →
         op_end a = al_pos demo_rev + ref_span (al_align_ops demo_rev)
         ∧ op_qry_end a = qry_span (al_align_ops demo_rev).
Proof.
  split; [reflexivity|].
  destruct (expansion_tiles [demo_rev] 0%nat demo_rev)
    as (Hlen & _ & _ & Hlast & _).
  - reflexivity.
  - split; [exact Hlen | exact Hlast].
Defined.

Lemma reverse_tiles_witness :
  al_is_rev demo_rev = true
  ∧ (∀ a, head demo_rev_df = Some a →
       op_qry_end a = Z.of_nat (length demo_qry) ∧ op_pos a = al_pos demo_rev)
  ∧ (∀ a, last demo_rev_df = Some a →
       op_qry_pos a
       = Z.of_nat (length demo_qry) - qry_span (al_align_ops demo_rev)
       ∧ op_end a = al_pos demo_rev + ref_span (al_align_ops demo_rev)).
Proof.
  split; [reflexivity|].
  destruct (reverse_tiles [demo_rev] 0%nat demo_rev demo_qry)
    as (Hhead & _ & Hlast & _).
  - reflexivity.
  - reflexivity.
  - split; [exact Hhead | exact Hlast].
Defined.

Lemma spill_files_hold_partitions_witness :
  ∃ parts : list (list (Scored SnvRow) * list (Scored InsDelRow)),
    mapR (chrom_result (with_row_index [demo_rev; demo_fwd; demo_chr0])
            demo_ref_fa2 demo_qry_fa)
         (chrom_list [demo_rev; demo_fwd; demo_chr0]) = Ok parts
    ∧ Forall2 (λ c part,
         w_files demo_run.2 !! temp_file_name "tmp" "snv" c
           = Some (SnvFile (chrom_snv_table part))
         ∧ w_files demo_run.2 !! temp_file_name "tmp" "insdel" c
           = Some (InsDelFile (chrom_insdel_table part)))
        (chrom_list [demo_rev; demo_fwd; demo_chr0]) parts.
Proof.
  destruct (spill_files_hold_partitions [demo_rev; demo_fwd; demo_chr0]
              demo_ref_fa2 demo_qry_fa (Some "tmp") demo_world demo_frames.1
              demo_frames.2 demo_run.2)
    as (parts & Hparts & _ & _ & _ & Hfiles).
  - vm_compute. reflexivity.
  - exists parts. split; [exact Hparts | exact Hfiles].
Defined.


Lemma returns_needs_sequences_witness :
  ∃ seq_ref seq_qry rows,
    demo_ref_fa2 (al_chrom demo_chr0) = Some seq_ref
    ∧ demo_qry_fa (al_qry_id demo_chr0) = Some seq_qry
    ∧ call_snv (al_is_rev demo_chr0) seq_ref seq_qry
        (record_df (with_row_index [demo_rev; demo_fwd; demo_chr0])
           (Z.of_nat 2) (al_is_rev demo_chr0) (al_pos demo_chr0) seq_qry)
      = Ok rows.
Proof.
  apply (returns_needs_sequences [demo_rev; demo_fwd; demo_chr0] demo_ref_fa2
           demo_qry_fa (Some "tmp") demo_world demo_frames.1 demo_frames.2
           demo_run.2 2%nat demo_chr0).
  - vm_compute. reflexivity.
  - reflexivity.
Defined.

Lemma empty_table_raises_witness :
  variant_tables_snv_insdel [] demo_ref_fa2 demo_qry_fa (Some "tmp") demo_world
  = (Raise (ValueError "cannot concat empty list"), demo_world).
Proof.
  apply (empty_table_raises demo_ref_fa2 demo_qry_fa (Some "tmp") demo_world).
  intros d [= <-]. simpl. apply elem_of_singleton. reflexivity.
Defined.

Lemma first_failure_witness :
  ∃ e w',
    variant_tables_snv_insdel [demo_slash; demo_chr0] demo_ref_fa3 demo_qry_fa
      (Some "tmp") demo_world_stale = (Raise e, w')
    ∧ (∃ p, p ∈ chrom_paths (Some "tmp") "chr1/x"
            ∧ write_error demo_world_stale p = Some e)
    ∧ (∀ d c' part, Some "tmp" = Some d → c' ∈ ["chr0"] →
         chrom_result (with_row_index [demo_slash; demo_chr0]) demo_ref_fa3
           demo_qry_fa c' = Ok part →
         w_files w' !! temp_file_name d "snv" c'
           = Some (SnvFile (chrom_snv_table part))
         ∧ w_files w' !! temp_file_name d "insdel" c'
           = Some (InsDelFile (chrom_insdel_table part))).
Proof.
  destruct (first_failure [demo_slash; demo_chr0] demo_ref_fa3 demo_qry_fa
              (Some "tmp") demo_world_stale ["chr0"] "chr1/x" [])
    as (e & w' & Hrun & _ & Hsink & Hfiles & _).
  - intros d [= <-]. simpl. apply elem_of_singleton. reflexivity.
  - vm_compute. reflexivity.
  - intros c' ->%list_elem_of_singleton. split.
    + eexists. vm_compute. reflexivity.
    + vm_compute. reflexivity.
  - intros part _. vm_compute. discriminate.
  - exists e, w'. split; [exact Hrun|]. split; [|exact Hfiles].
    eapply Hsink. vm_compute. reflexivity.
Defined.

Lemma table_totals_witness :
  Z.of_nat (length demo_snv_table)
    = sumZ (λ r, op_len_sum op.X (al_align_ops r)) [demo_rev; demo_fwd; demo_chr0]
  ∧ table_varlen_sum INS demo_insdel_table
    = sumZ (λ r, op_len_sum op.I (al_align_ops r)) [demo_rev; demo_fwd; demo_chr0]
  ∧ table_varlen_sum DEL demo_insdel_table
    = sumZ (λ r, op_len_sum op.D (al_align_ops r)) [demo_rev; demo_fwd; demo_chr0].
Proof.
  apply (table_totals [demo_rev; demo_fwd; demo_chr0] demo_ref_fa2 demo_qry_fa
           (Some "tmp") demo_world demo_frames.1 demo_frames.2 demo_run.2
           demo_snv_table demo_insdel_table).
  - vm_compute. reflexivity.
  - vm_compute. reflexivity.
  - vm_compute. reflexivity.
Defined.

Lemma inv_unique_index_witness :
  NoDup (al_align_index <$> [demo_rev; demo_fwd; demo_chr0])
  ∧ ivr_row <$> variant_tables_inv [demo_rev; demo_fwd; demo_chr0] demo_flags
                  demo_ref_fa2 demo_qry_fa [] [] None
    = accepted_inv_rows [demo_rev; demo_fwd; demo_chr0] demo_flags
        demo_ref_fa2 demo_qry_fa [] [] (default default_params None)
  ∧ length (variant_tables_inv [demo_rev; demo_fwd; demo_chr0] demo_flags
              demo_ref_fa2 demo_qry_fa [] [] None)
    = length (accepted_inv_rows [demo_rev; demo_fwd; demo_chr0] demo_flags
                demo_ref_fa2 demo_qry_fa [] [] (default default_params None)).
Proof.
  assert (Hnd : NoDup (al_align_index <$> [demo_rev; demo_fwd; demo_chr0])).
  { apply (bool_decide_unpack _). vm_compute. exact I. }
  split; [exact Hnd|].
  destruct (inv_unique_index [demo_rev; demo_fwd; demo_chr0] demo_flags
              demo_ref_fa2 demo_qry_fa [] [] None Hnd) as (_ & Hrows & Hlen).
  split; [exact Hrows | exact Hlen].
Defined.

Lemma info_last_wins_witness :
  ∃ info, parse_info "SVTYPE=INS;SVLEN=52;NOTE=a=b;SVTYPE=DUP" = Ok info
    ∧ info !! "NOTE" = Some (IStr "a=b").
Proof.
  destruct (info_last_wins "SVTYPE=INS;SVLEN=52;NOTE=a=b;SVTYPE=DUP"
              ["SVTYPE=INS"; "SVLEN=52"] ["SVTYPE=DUP"] "NOTE=a=b" "NOTE")
    as (info & Hinfo & _ & Hval & _).
  - vm_compute. reflexivity.
  - reflexivity.
  - intros e' ->%list_elem_of_singleton. split; [discriminate|].
    intros v Heq. cbv in Heq. discriminate Heq.
  - exists info. split; [exact Hinfo|]. apply Hval. reflexivity.
Defined.

Lemma info_single_flag_witness :
  parse_info "." = Ok {[ "." := ITrue ]}.
Proof. apply (info_single_flag "."); reflexivity. Defined.

Lemma records_are_data_lines_witness :
  open_lines demo_vcf_path = Ok demo_vcf_lines
  ∧ Forall2 line_record
      (filter (λ l, is_data_line l = true) demo_vcf_lines) demo_records
  ∧ length demo_records
    = length (filter (λ l, is_data_line l = true) demo_vcf_lines).
Proof.
  split; [vm_compute; reflexivity|].
  destruct (records_are_data_lines demo_vcf_path demo_vcf_lines demo_records)
    as (Hrecs & Hlen & _).
  - vm_compute. reflexivity.
  - vm_compute. reflexivity.
  - split; [exact Hrecs | exact Hlen].
Defined.

Lemma read_returns_iff_witness :
  ∃ pre line post f1,
    demo_bad_lines = pre ++ line :: post
    ∧ is_data_line line = true
    ∧ line_fields line !! 1%nat = Some f1
    ∧ py_int f1 = None
    ∧ ValueError "invalid literal for int() with base 10: '1e3'"
      = ValueError ("invalid literal for int() with base 10: '" +:+ f1 +:+ "'")
    ∧ ∀ l, l ∈ pre → is_data_line l = true →
           is_Some (line_fields l !! 1%nat ≫= py_int).
Proof.
  destruct (read_returns_iff demo_bad_path demo_bad_lines) as [_ Hraise].
  - vm_compute. reflexivity.
  - apply Hraise. vm_compute. reflexivity.
Defined.

Lemma summary_counts_witness :
  ∃ s, summarize_vcf demo_vcf_path = Ok s
    ∧ sm_total s = length demo_records
    ∧ map_fold (λ _ n acc, (n + acc)%nat) 0%nat (sm_by_type s) = sm_total s
    ∧ sm_sv_lengths s
      = omap (λ r, Z.abs <$> (vr_info r !! "SVLEN" ≫= info_int)) demo_records.
Proof.
  destruct (summary_counts demo_vcf_path demo_records)
    as (s & Hs & _ & Htotal & _ & _ & Hsum & Hlen & _).
  - vm_compute. reflexivity.
  - exists s. split_and!; [exact Hs | exact Htotal | exact Hsum | exact Hlen].
Defined.

(** On a file system that refuses one of the spill files, the run of
    [demo_run] raises that refusal, and so does the run over a chromosome
    whose spill files lie in a directory that does not exist; both runs
    return without the temporary directory. *)
Example refused_write :
  (variant_tables_snv_insdel (H2 := demo_refusing_writer)
     [demo_rev; demo_fwd; demo_chr0] demo_ref_fa2 demo_qry_fa (Some "tmp")
     demo_world).1
  = Raise (PermissionError "tmp/insdel_chr0.parquet").
Proof. vm_compute. reflexivity. Qed.

Example missing_spill_directory :
  (variant_tables_snv_insdel [demo_slash; demo_chr0] demo_ref_fa3 demo_qry_fa
     (Some "tmp") demo_world).1
  = Raise (FileNotFoundError "tmp/snv_chr1/x.parquet")
  ∧ ∃ frames,
      (variant_tables_snv_insdel [demo_slash; demo_chr0] demo_ref_fa3
         demo_qry_fa None demo_world).1 = Ok frames.
Proof. split; [vm_compute; reflexivity|]. eexists. vm_compute. reflexivity. Qed.
